(** * openapi-to-har: OpenAPI documents to HAR request objects

    A shallow embedding of [src/openapi-to-har.js].  The JavaScript module
    reads an OpenAPI document (a graph of objects reachable from one root),
    resolves local [$ref] pointers by writing the resolved value back into the
    document, and assembles one HAR request descriptor per operation.

    The embedding keeps what the code depends on:
    - JavaScript values with the dynamic checks the code performs
      ([typeof], truthiness, property reads that raise on [undefined]);
    - the document as a store of objects addressed by location, so that the
      in-place writes of [$ref] resolution and the aliasing they create are
      visible to later reads;
    - the built-in prototypes as objects of the same store, so that a
      property read finds the members that a value inherits
      ([constructor], [toString], ...) and a write to a built-in object is
      seen by every value that inherits from it;
    - exceptions as an error result, and [console.log] as a log in the state.

    Boundaries of the model: numbers are integers (printed in full by
    ToString, as JavaScript does below 10^21); strings are sequences
    of bytes and case mapping is ASCII; ToString is the built-in
    conversion of each kind of value; the prototype of a value follows
    from its kind, and the built-in objects have the members of
    ECMAScript 2017; the properties of an object are listed in the order
    in which a [for-in] loop visits them; the sampler and
    [JSON.stringify] are parameters, and the sampler does not write to the
    document.  The loop bodies that the source repeats for the path-level
    and the operation-level parameter list are written once and used
    twice. *)

From Stdlib Require Import List String Ascii ZArith Lia Bool Arith PeanoNat.
From Stdlib Require Import DecimalString.
Import ListNotations.
Local Open Scope string_scope.
Local Open Scope list_scope.

Set Implicit Arguments.
Set Warnings "-register-all".

Infix "+++" := String.append (at level 60, right associativity).

(* ------------------------------------------------------------------ *)
(** ** Strings *)
(* ------------------------------------------------------------------ *)

Module Str.

Definition lower_ascii (c : ascii) : ascii :=
  let n := nat_of_ascii c in
  if (65 <=? n)%nat && (n <=? 90)%nat then ascii_of_nat (n + 32) else c.

Definition upper_ascii (c : ascii) : ascii :=
  let n := nat_of_ascii c in
  if (97 <=? n)%nat && (n <=? 122)%nat then ascii_of_nat (n - 32) else c.

Fixpoint map (f : ascii -> ascii) (s : string) : string :=
  match s with
  | EmptyString => EmptyString
  | String c s' => String (f c) (map f s')
  end.

(** [String.prototype.toLowerCase] and [toUpperCase]. *)
Definition toLowerCase (s : string) : string := map lower_ascii s.
Definition toUpperCase (s : string) : string := map upper_ascii s.

(** [/^#/.test(s)] *)
Definition starts_with_hash (s : string) : bool :=
  match s with
  | String c _ => Ascii.eqb c "#"
  | EmptyString => false
  end.

(** [s.split('/')]: always at least one part. *)
Fixpoint split_slash (s : string) : list string :=
  match s with
  | EmptyString => [EmptyString]
  | String c s' =>
      if Ascii.eqb c "/" then EmptyString :: split_slash s'
      else match split_slash s' with
           | [] => [String c EmptyString]
           | p :: ps => String c p :: ps
           end
  end.

Fixpoint drop (n : nat) (s : string) : string :=
  match n, s with
  | O, _ => s
  | S n', String _ s' => drop n' s'
  | S _, EmptyString => EmptyString
  end.

(** The text before and after the first occurrence of [pat] in [s]. *)
Fixpoint split_first (pat s : string) : option (string * string) :=
  if String.prefix pat s then Some (EmptyString, drop (String.length pat) s)
  else match s with
       | EmptyString => None
       | String c s' =>
           match split_first pat s' with
           | Some (a, b) => Some (String c a, b)
           | None => None
           end
       end.

(** [GetSubstitution] of ECMAScript for a string pattern (no captures):
    [$$] is a dollar, [$&] the match, [$`] the text before it, [$'] the
    text after it; any other [$] stands for itself. *)
Fixpoint getSubstitution (matched before after rep : string) : string :=
  match rep with
  | EmptyString => EmptyString
  | String a r0 =>
      if Ascii.eqb a "$" then
        match r0 with
        | String c r =>
            if Ascii.eqb c "$" then String "$" (getSubstitution matched before after r)
            else if Ascii.eqb c "&" then matched +++ getSubstitution matched before after r
            else if Ascii.eqb c "`" then before +++ getSubstitution matched before after r
            else if Ascii.eqb c "'" then after +++ getSubstitution matched before after r
            else String a (getSubstitution matched before after r0)
        | EmptyString => String a EmptyString
        end
      else String a (getSubstitution matched before after r0)
  end.

(** [s.replace(pat, rep)] with a string pattern: the first occurrence only. *)
Definition replace (s pat rep : string) : string :=
  match split_first pat s with
  | Some (before, after) => before +++ getSubstitution pat before after rep +++ after
  | None => s
  end.



Definition of_Z (z : Z) : string := NilZero.string_of_int (Z.to_int z).
Definition of_nat (n : nat) : string := NilZero.string_of_uint (Nat.to_uint n).

Fixpoint parse_digits (acc : nat) (s : string) : option nat :=
  match s with
  | EmptyString => Some acc
  | String c s' =>
      let n := nat_of_ascii c in
      if (48 <=? n)%nat && (n <=? 57)%nat
      then parse_digits (10 * acc + (n - 48)) s'
      else None
  end.

(** A property key that is a canonical array index ("0", "1", "12", ...). *)
Definition index_of_key (k : string) : option nat :=
  match k with
  | EmptyString => None
  | _ => match parse_digits 0 k with
         | Some n => if String.eqb (of_nat n) k then Some n else None
         | None => None
         end
  end.

End Str.


(* ------------------------------------------------------------------ *)
(** ** JavaScript values and the object store *)
(* ------------------------------------------------------------------ *)

Definition loc := nat.

(** A value is a primitive or a reference to an object of the store.
    [VNew] is the object literal [{}] that [resolveRef] returns for a
    reference without path, and that stands for the caller's values when
    there are none: an empty object that no other value refers to.  It is
    given a location when it is stored into a property ([setProp]); until
    then it has no property of its own, and a read of it finds what it
    inherits. *)
Inductive val : Type :=
| VUndef
| VNull
| VBool (b : bool)
| VNum (n : Z)
| VStr (s : string)
| VObj (l : loc)
| VNew.

(** Objects keep their properties in enumeration order.  An array has its
    elements and, besides, the named properties assigned to it.  [Native]
    is a built-in object: a prototype, or a built-in function when
    [callable]; [text] is what ToString makes of it.  The members of a
    built-in object are not enumerable, but for the properties that the
    program assigns to it. *)
Inductive obj : Type :=
| Obj (props : list (string * val))
| Arr (elems : list val) (props : list (string * val))
| Native (callable : bool) (text : string) (members : list (string * val)).

Definition heap := list obj.

Inductive exn : Type :=
| TypeError
| SamplerError.

Inductive res (A : Type) : Type :=
| Ok (a : A)
| Err (e : exn).
Arguments Ok {A} a.
Arguments Err {A} e.

Definition rbind {A B} (r : res A) (k : A -> res B) : res B :=
  match r with
  | Ok a => k a
  | Err e => Err e
  end.

Notation "'let?' x ':=' r 'in' k" := (rbind r (fun x => k))
  (at level 10, x name, r at level 100, k at level 200).

(** [typeof v !== 'undefined'] *)
Definition defined (v : val) : bool :=
  match v with
  | VUndef => false
  | _ => true
  end.

(** [v != null] *)
Definition not_nullish (v : val) : bool :=
  match v with
  | VUndef | VNull => false
  | _ => true
  end.

(** ToBoolean *)
Definition truthy (v : val) : bool :=
  match v with
  | VUndef | VNull => false
  | VBool b => b
  | VNum n => negb (Z.eqb n 0)
  | VStr s => negb (String.eqb s "")
  | VObj _ | VNew => true
  end.

(** [v === s] for a string literal [s] *)
Definition is_str (v : val) (s : string) : bool :=
  match v with
  | VStr t => String.eqb t s
  | _ => false
  end.

(** The own property [k] of a list of properties, if there is one. *)
Definition assoc (k : string) (ps : list (string * val)) : option val :=
  option_map snd (find (fun kv => String.eqb (fst kv) k) ps).

(** The property names that the program assigns to. *)
Definition written (k : string) : bool :=
  String.eqb k "schema" || String.eqb k "type" || String.eqb k "requestBody".

(** The store begins with the built-in prototypes, at these locations. *)
Definition objectProto : loc := 0.
Definition functionProto : loc := 1.
Definition arrayProto : loc := 2.
Definition stringProto : loc := 3.
Definition numberProto : loc := 4.
Definition booleanProto : loc := 5.

Definition own_prop (o : obj) (k : string) : option val :=
  match o with
  | Obj ps => assoc k ps
  | Arr es ps =>
      if String.eqb k "length" then Some (VNum (Z.of_nat (List.length es)))
      else match Str.index_of_key k with
           | Some i => nth_error es i
           | None => assoc k ps
           end
  | Native _ _ ms => assoc k ms
  end.

(** The own property [k] of a value.  A string has its length and its
    characters; the other primitives have no own property. *)
Definition own (h : heap) (v : val) (k : string) : option val :=
  match v with
  | VStr s =>
      if String.eqb k "length" then Some (VNum (Z.of_nat (String.length s)))
      else match Str.index_of_key k with
           | Some i => option_map (fun c => VStr (String c EmptyString)) (String.get i s)
           | None => None
           end
  | VObj l =>
      match nth_error h l with
      | Some o => own_prop o k
      | None => None
      end
  | _ => None
  end.

(** What stands above [l] in a chain of prototypes: a prototype is not
    its own prototype. *)
Fixpoint after (l : loc) (ps : list loc) : option (list loc) :=
  match ps with
  | [] => None
  | p :: ps' => if Nat.eqb p l then Some ps' else after l ps'
  end.

Definition above (l : loc) (ps : list loc) : list loc :=
  match after l ps with
  | Some ps' => ps'
  | None => ps
  end.

(** The prototype chain of a value, nearest first.  It follows from the
    kind of the value: a primitive is read through its wrapper. *)
Definition chain (h : heap) (v : val) : list loc :=
  match v with
  | VUndef | VNull => []
  | VBool _ => [booleanProto; objectProto]
  | VNum _ => [numberProto; objectProto]
  | VStr _ => [stringProto; objectProto]
  | VNew => [objectProto]
  | VObj l =>
      match nth_error h l with
      | Some (Obj _) => above l [objectProto]
      | Some (Arr _ _) => above l [arrayProto; objectProto]
      | Some (Native true _ _) => above l [functionProto; objectProto]
      | Some (Native false _ _) => above l [objectProto]
      | None => []
      end
  end.

(** The members of the prototype at [p]: only a built-in object serves as
    a prototype. *)
Definition members_at (h : heap) (p : loc) : list (string * val) :=
  match nth_error h p with
  | Some (Native _ _ ms) => ms
  | _ => []
  end.

(** The first member named [k] along a chain. *)
Fixpoint inherited (h : heap) (ps : list loc) (k : string) : option val :=
  match ps with
  | [] => None
  | p :: ps' =>
      match assoc k (members_at h p) with
      | Some v => Some v
      | None => inherited h ps' k
      end
  end.

(** The names of the accessors of [Function.prototype] that raise. *)
Definition restricted (k : string) : bool :=
  String.eqb k "caller" || String.eqb k "arguments".

(** A built-in function. *)
Definition callable_value (h : heap) (v : val) : bool :=
  match v with
  | VObj l =>
      match nth_error h l with
      | Some (Native c _ _) => c
      | _ => false
      end
  | _ => false
  end.

(** Property read [v[k]].  Reading a property of [undefined] or [null]
    raises.  An own property comes first, then the members that the value
    inherits; the built-in prototypes have no member named by an array
    index, and the program gives them none, so that an index is read
    from the value itself only.  Two inherited members are accessors:
    [__proto__] yields the prototype of the value, and [caller] and
    [arguments] of a built-in function raise. *)
Definition get (h : heap) (v : val) (k : string) : res val :=
  match v with
  | VUndef | VNull => Err TypeError
  | _ =>
      match own h v k with
      | Some x => Ok x
      | None =>
          match Str.index_of_key k with
          | Some _ => Ok VUndef
          | None =>
              match inherited h (chain h v) k with
              | Some x => Ok x
              | None =>
                  if String.eqb k "__proto__" then
                    Ok (match chain h v with
                        | p :: _ => VObj p
                        | [] => VNull
                        end)
                  else if callable_value h v && restricted k
                  then Err TypeError
                  else Ok VUndef
              end
          end
      end
  end.

Definition indices (n : nat) : list string := List.map Str.of_nat (seq 0 n).

(** The own enumerable properties of a value, in enumeration order:
    [Object.keys(v)] for a value other than [undefined] and [null]. *)
Definition own_keys (h : heap) (v : val) : list string :=
  match v with
  | VStr s => indices (String.length s)
  | VObj l =>
      match nth_error h l with
      | Some (Obj ps) => List.map fst ps
      | Some (Arr es ps) => indices (List.length es) ++ List.map fst ps
      | Some (Native _ _ ms) => filter written (List.map fst ms)
      | None => []
      end
  | _ => []
  end.

(** Every own property name of a value, enumerable or not. *)
Definition own_names (h : heap) (v : val) : list string :=
  match v with
  | VStr s => "length" :: indices (String.length s)
  | VObj l =>
      match nth_error h l with
      | Some (Obj ps) => List.map fst ps
      | Some (Arr es ps) => "length" :: indices (List.length es) ++ List.map fst ps
      | Some (Native _ _ ms) => List.map fst ms
      | None => []
      end
  | _ => []
  end.

(** The enumerable members along a chain that no name of [seen], and no
    member of a nearer prototype, hides. *)
Fixpoint inherited_keys (h : heap) (seen : list string) (ps : list loc) : list string :=
  match ps with
  | [] => []
  | p :: ps' =>
      let names := List.map fst (members_at h p) in
      filter (fun k => written k && negb (existsb (String.eqb k) seen)) names
      ++ inherited_keys h (seen ++ names) ps'
  end.

(** The keys a [for (k in v)] loop visits, fixed when the loop starts:
    the own enumerable properties, then the inherited ones. *)
Definition forin_keys (h : heap) (v : val) : list string :=
  own_keys h v ++ inherited_keys h (own_names h v) (chain h v).

(** [Object.keys(v)] *)
Definition object_keys (h : heap) (v : val) : res (list string) :=
  match v with
  | VUndef | VNull => Err TypeError
  | _ => Ok (own_keys h v)
  end.

Fixpoint join_commas (ss : list string) : string :=
  match ss with
  | [] => EmptyString
  | [s] => s
  | s :: ss' => s +++ "," +++ join_commas ss'
  end.

(** ToString, by the built-in conversions.  An array prints its elements
    separated by commas, with [null] and [undefined] printed as nothing;
    nesting deeper than [fuel] arrays prints as nothing. *)
Fixpoint toStr_fuel (fuel : nat) (h : heap) (v : val) : string :=
  match v with
  | VUndef => "undefined"
  | VNull => "null"
  | VBool true => "true"
  | VBool false => "false"
  | VNum n => Str.of_Z n
  | VStr s => s
  | VNew => "[object Object]"
  | VObj l =>
      match nth_error h l with
      | Some (Arr es _) =>
          match fuel with
          | O => EmptyString
          | S fuel' =>
              join_commas
                (List.map (fun e => if not_nullish e then toStr_fuel fuel' h e
                                    else EmptyString) es)
          end
      | Some (Native _ t _) => t
      | _ => "[object Object]"
      end
  end.

Definition toStr (h : heap) (v : val) : string := toStr_fuel (List.length h) h v.

(** [v.toLowerCase()] and [v.toUpperCase()]: only a string has the method. *)
Definition toLowerCase (v : val) : res string :=
  match v with
  | VStr s => Ok (Str.toLowerCase s)
  | _ => Err TypeError
  end.

Definition toUpperCase (v : val) : res string :=
  match v with
  | VStr s => Ok (Str.toUpperCase s)
  | _ => Err TypeError
  end.

Fixpoint put (k : string) (v : val) (ps : list (string * val)) : list (string * val) :=
  match ps with
  | [] => [(k, v)]
  | (k', v') :: ps' =>
      if String.eqb k' k then (k, v) :: ps' else (k', v') :: put k v ps'
  end.

Fixpoint update (l : loc) (f : obj -> obj) (h : heap) : heap :=
  match h, l with
  | [], _ => []
  | o :: h', O => f o :: h'
  | o :: h', S l' => o :: update l' f h'
  end.

Definition put_obj (k : string) (v : val) (o : obj) : obj :=
  match o with
  | Obj ps => Obj (put k v ps)
  | Arr es ps => Arr es (put k v ps)
  | Native c t ms => Native c t (put k v ms)
  end.

(** Property write [target[k] = v], for the keys the program writes
    ([schema], [type], [requestBody]: never an array index).  Writing to
    [undefined] or [null] raises; writing to another primitive is ignored
    (the module runs in sloppy mode).  A [VNew] written into the store
    becomes an object of its own. *)
Definition setProp (h : heap) (target : val) (k : string) (v : val) : res unit * heap :=
  match target with
  | VUndef | VNull => (Err TypeError, h)
  | VObj l =>
      match v with
      | VNew => (Ok tt, update l (put_obj k (VObj (List.length h))) (h ++ [Obj []]))
      | _ => (Ok tt, update l (put_obj k v) h)
      end
  | _ => (Ok tt, h)
  end.

(* ------------------------------------------------------------------ *)
(** ** Computations: the store, the log and exceptions *)
(* ------------------------------------------------------------------ *)

(** The state a call works on: the objects of the document and what
    [console.log] has printed. *)
Record state : Type := mkState { heap_of : heap; log_of : list exn }.

Definition M (A : Type) : Type := state -> res A * state.

Definition ret {A} (a : A) : M A := fun s => (Ok a, s).

Definition bind {A B} (m : M A) (k : A -> M B) : M B :=
  fun s => match m s with
           | (Ok a, s') => k a s'
           | (Err e, s') => (Err e, s')
           end.

Notation "x <- m ;; k" := (bind m (fun x => k))
  (at level 61, m at next level, right associativity).
Notation "m ;;; k" := (bind m (fun _ => k))
  (at level 61, right associativity).

(** A read-only computation on the current store. *)
Definition lift {A} (f : heap -> res A) : M A := fun s => (f (heap_of s), s).

Definition write (target : val) (k : string) (v : val) : M unit :=
  fun s => let '(r, h') := setProp (heap_of s) target k v in
           (r, mkState h' (log_of s)).

Definition console_log (e : exn) : M unit :=
  fun s => (Ok tt, mkState (heap_of s) (log_of s ++ [e])).

Definition try_catch {A} (m : M A) (handler : exn -> M A) : M A :=
  fun s => match m s with
           | (Ok a, s') => (Ok a, s')
           | (Err e, s') => handler e s'
           end.

(** The body of a [for (k in v)] loop run over the keys in order. *)
Fixpoint foldM {A} (body : string -> A -> M A) (keys : list string) (a : A) : M A :=
  match keys with
  | [] => ret a
  | k :: ks => a' <- body k a ;; foldM body ks a'
  end.

Definition forIn {A} (v : val) (body : string -> A -> M A) (a : A) : M A :=
  fun s => foldM body (forin_keys (heap_of s) v) a s.

(** The same for a loop that only reads the store. *)
Fixpoint rfold {A} (body : string -> A -> res A) (keys : list string) (a : A) : res A :=
  match keys with
  | [] => Ok a
  | k :: ks => let? a' := body k a in rfold body ks a'
  end.

Definition rforIn {A} (h : heap) (v : val) (body : string -> A -> res A) (a : A) : res A :=
  rfold body (forin_keys h v) a.

(** A loop whose body may leave the enclosing function with [return]. *)
Inductive flow (A : Type) : Type :=
| Continue (a : A)
| Return (a : A).
Arguments Continue {A} a.
Arguments Return {A} a.

Fixpoint foldF {A} (body : string -> A -> M (flow A)) (keys : list string) (a : A)
  : M (flow A) :=
  match keys with
  | [] => ret (Continue a)
  | k :: ks =>
      r <- body k a ;;
      match r with
      | Continue a' => foldF body ks a'
      | Return a' => ret (Return a')
      end
  end.

Definition forInF {A} (v : val) (body : string -> A -> M (flow A)) (a : A) : M (flow A) :=
  fun s => foldF body (forin_keys (heap_of s) v) a s.

(* ------------------------------------------------------------------ *)
(** ** Documents written as JSON *)
(* ------------------------------------------------------------------ *)

Inductive json : Type :=
| JNull
| JBool (b : bool)
| JNum (n : Z)
| JStr (s : string)
| JArr (items : list json)
| JObj (fields : list (string * json)).

(** Builds the objects of a JSON text in the store, children first. *)
Fixpoint load (j : json) (h : heap) : val * heap :=
  match j with
  | JNull => (VNull, h)
  | JBool b => (VBool b, h)
  | JNum n => (VNum n, h)
  | JStr s => (VStr s, h)
  | JArr items =>
      let '(vs, h1) :=
        (fix go (js : list json) (h : heap) : list val * heap :=
           match js with
           | [] => ([], h)
           | j :: js' =>
               let '(v, h1) := load j h in
               let '(vs, h2) := go js' h1 in
               (v :: vs, h2)
           end) items h in
      (VObj (List.length h1), h1 ++ [Arr vs []])
  | JObj fields =>
      let '(ps, h1) :=
        (fix go (kvs : list (string * json)) (h : heap) : list (string * val) * heap :=
           match kvs with
           | [] => ([], h)
           | (k, j) :: kvs' =>
               let '(v, h1) := load j h in
               let '(ps, h2) := go kvs' h1 in
               ((k, v) :: ps, h2)
           end) fields h in
      (VObj (List.length h1), h1 ++ [Obj ps])
  end.

(** *** The built-in objects

    The objects that the values of a document inherit from, with the
    members that ECMAScript 2017 and its Annex B give them under a string
    name: the six prototypes, their constructors, and one function object
    for each method.  (Numbers being integers, the constants of [Number]
    that are not integers are left out.) *)

(** A built-in function: its name, the number of its parameters and what
    else it holds. *)
Definition builtin (name : string) (arity : Z) (more : list (string * val)) : obj :=
  Native true ("function " +++ name +++ "() { [native code] }")
    (("length", VNum arity) :: ("name", VStr name) :: more).

(** The members that name the methods of a table, the function objects
    being laid out from [base] on. *)
Definition method_members (base : loc) (table : list (string * Z)) : list (string * val) :=
  List.map (fun ik => (fst (snd ik), VObj (base + fst ik)))
           (combine (seq 0 (List.length table)) table).

Definition method_objects (table : list (string * Z)) : list obj :=
  List.map (fun na => builtin (fst na) (snd na) []) table.

Definition objectPrototypeMethods : list (string * Z) :=
  [("hasOwnProperty", 1); ("isPrototypeOf", 1); ("propertyIsEnumerable", 1);
   ("toLocaleString", 0); ("toString", 0); ("valueOf", 0);
   ("__defineGetter__", 2); ("__defineSetter__", 2);
   ("__lookupGetter__", 1); ("__lookupSetter__", 1)]%Z.

Definition functionPrototypeMethods : list (string * Z) :=
  [("apply", 2); ("bind", 1); ("call", 1); ("toString", 0)]%Z.

Definition arrayPrototypeMethods : list (string * Z) :=
  [("concat", 1); ("copyWithin", 2); ("entries", 0); ("every", 1); ("fill", 1);
   ("filter", 1); ("find", 1); ("findIndex", 1); ("forEach", 1); ("includes", 1);
   ("indexOf", 1); ("join", 1); ("keys", 0); ("lastIndexOf", 1); ("map", 1);
   ("pop", 0); ("push", 1); ("reduce", 1); ("reduceRight", 1); ("reverse", 0);
   ("shift", 0); ("slice", 2); ("some", 1); ("sort", 1); ("splice", 2);
   ("toLocaleString", 0); ("toString", 0); ("unshift", 1); ("values", 0)]%Z.

Definition stringPrototypeMethods : list (string * Z) :=
  [("charAt", 1); ("charCodeAt", 1); ("codePointAt", 1); ("concat", 1);
   ("endsWith", 1); ("includes", 1); ("indexOf", 1); ("lastIndexOf", 1);
   ("localeCompare", 1); ("match", 1); ("normalize", 0); ("padEnd", 1);
   ("padStart", 1); ("repeat", 1); ("replace", 2); ("search", 1); ("slice", 2);
   ("split", 2); ("startsWith", 1); ("substring", 2); ("toLocaleLowerCase", 0);
   ("toLocaleUpperCase", 0); ("toLowerCase", 0); ("toString", 0);
   ("toUpperCase", 0); ("trim", 0); ("valueOf", 0);
   ("substr", 2); ("anchor", 1); ("big", 0); ("blink", 0); ("bold", 0);
   ("fixed", 0); ("fontcolor", 1); ("fontsize", 1); ("italics", 0); ("link", 1);
   ("small", 0); ("strike", 0); ("sub", 0); ("sup", 0)]%Z.

Definition numberPrototypeMethods : list (string * Z) :=
  [("toExponential", 1); ("toFixed", 1); ("toLocaleString", 0);
   ("toPrecision", 1); ("toString", 1); ("valueOf", 0)]%Z.

Definition booleanPrototypeMethods : list (string * Z) :=
  [("toString", 0); ("valueOf", 0)]%Z.

Definition objectMethods : list (string * Z) :=
  [("assign", 2); ("create", 2); ("defineProperties", 2); ("defineProperty", 3);
   ("entries", 1); ("freeze", 1); ("getOwnPropertyDescriptor", 2);
   ("getOwnPropertyDescriptors", 1); ("getOwnPropertyNames", 1);
   ("getOwnPropertySymbols", 1); ("getPrototypeOf", 1); ("is", 2);
   ("isExtensible", 1); ("isFrozen", 1); ("isSealed", 1); ("keys", 1);
   ("preventExtensions", 1); ("seal", 1); ("setPrototypeOf", 2); ("values", 1)]%Z.

Definition arrayMethods : list (string * Z) :=
  [("from", 1); ("isArray", 1); ("of", 0)]%Z.

Definition stringMethods : list (string * Z) :=
  [("fromCharCode", 1); ("fromCodePoint", 1); ("raw", 1)]%Z.

Definition numberMethods : list (string * Z) :=
  [("isFinite", 1); ("isInteger", 1); ("isNaN", 1); ("isSafeInteger", 1);
   ("parseFloat", 1); ("parseInt", 2)]%Z.

(** The tables in the order in which their function objects are laid out,
    after the six prototypes and the six constructors. *)
Definition method_tables : list (list (string * Z)) :=
  [objectPrototypeMethods; functionPrototypeMethods; arrayPrototypeMethods;
   stringPrototypeMethods; numberPrototypeMethods; booleanPrototypeMethods;
   objectMethods; arrayMethods; stringMethods; numberMethods].

(** The location of the first function object of the [n]th table. *)
Definition table_base (n : nat) : loc :=
  12 + List.length (List.concat (firstn n method_tables)).

Definition methods_of (n : nat) : list (string * val) :=
  method_members (table_base n) (nth n method_tables []).

Definition realm : heap :=
  [ Native false "[object Object]" (("constructor", VObj 6) :: methods_of 0);
    Native true "function () { [native code] }"
      (("length", VNum 0) :: ("name", VStr "") :: ("constructor", VObj 7)
       :: methods_of 1);
    Native false "" (("length", VNum 0) :: ("constructor", VObj 8) :: methods_of 2);
    Native false "" (("length", VNum 0) :: ("constructor", VObj 9) :: methods_of 3);
    Native false "0" (("constructor", VObj 10) :: methods_of 4);
    Native false "false" (("constructor", VObj 11) :: methods_of 5);
    builtin "Object" 1 (("prototype", VObj objectProto) :: methods_of 6);
    builtin "Function" 1 [("prototype", VObj functionProto)];
    builtin "Array" 1 (("prototype", VObj arrayProto) :: methods_of 7);
    builtin "String" 1 (("prototype", VObj stringProto) :: methods_of 8);
    builtin "Number" 1
      (("prototype", VObj numberProto)
       :: ("MAX_SAFE_INTEGER", VNum 9007199254740991)
       :: ("MIN_SAFE_INTEGER", VNum (-9007199254740991))
       :: methods_of 9);
    builtin "Boolean" 1 [("prototype", VObj booleanProto)] ]
  ++ method_objects (List.concat method_tables).

(** A document freshly parsed from JSON into a store that holds the
    built-in objects, and nothing logged yet. *)
Definition parse (j : json) : val * state :=
  let '(v, h) := load j realm in (v, mkState h []).

(** A document and the caller's values, parsed into one store. *)
Definition parseWith (doc values : json) : val * val * state :=
  let '(d, h) := load doc realm in
  let '(v, h') := load values h in
  (d, v, mkState h' []).

(* ------------------------------------------------------------------ *)
(** ** Reference resolution *)
(* ------------------------------------------------------------------ *)

(** The inner function [recursive(obj, index)] of [resolveRef], on the
    parts from [index] on. *)
Fixpoint recursive (h : heap) (o : val) (parts : list string) : res val :=
  match parts with
  | [] => Ok VUndef
  | p :: rest =>
      match rest with
      | [] => get h o p
      | _ :: _ => let? o' := get h o p in recursive h o' rest
      end
  end.

Definition resolveRef (h : heap) (openApi : val) (ref : string) : res val :=
  let parts := Str.split_slash ref in
  if (List.length parts <=? 1)%nat then Ok VNew
  else recursive h openApi (tl parts).

(** [let param = raw; if (typeof param['$ref'] === 'string' &&
    /^#/.test(param['$ref'])) param = resolveRef(openApi, param['$ref'])] *)
Definition derefParam (h : heap) (openApi raw : val) : res val :=
  let? r := get h raw "$ref" in
  match r with
  | VStr s => if Str.starts_with_hash s then resolveRef h openApi s else Ok raw
  | _ => Ok raw
  end.

(** The in-place resolution of [param.schema], as the payload and query
    loops do it: the resolved schema is written into the parameter, and a
    schema without type is given the type [object]. *)
Definition resolveSchema (openApi param : val) : M unit :=
  sch <- lift (fun h => get h param "schema") ;;
  if defined sch then
    r <- lift (fun h => get h sch "$ref") ;;
    match r with
    | VStr s =>
        if Str.starts_with_hash s then
          v <- lift (fun h => resolveRef h openApi s) ;;
          write param "schema" v ;;;
          sch' <- lift (fun h => get h param "schema") ;;
          t <- lift (fun h => get h sch' "type") ;;
          if defined t then ret tt else write sch' "type" (VStr "object")
        else ret tt
    | _ => ret tt
    end
  else ret tt.

(** The first lines of the loop bodies of [getPayload] and
    [getQueryStrings]. *)
Definition prepareParam (openApi raw : val) : M val :=
  param <- lift (fun h => derefParam h openApi raw) ;;
  resolveSchema openApi param ;;;
  ret param.

(** [typeof param.in !== 'undefined' && param.in.toLowerCase() === kind] *)
Definition in_is (h : heap) (param : val) (kind : string) : res bool :=
  let? i := get h param "in" in
  if defined i then let? s := toLowerCase i in Ok (String.eqb s kind)
  else Ok false.

(** [param.type || param.schema.type] *)
Definition typeOrSchemaType (h : heap) (param : val) : res val :=
  let? t := get h param "type" in
  if truthy t then Ok t
  else let? sch := get h param "schema" in get h sch "type".

(** ['SOME_' + (param.type || param.schema.type).toUpperCase() + '_VALUE'] *)
Definition placeholder (h : heap) (param : val) : res string :=
  let? t := typeOrSchemaType h param in
  let? u := toUpperCase t in
  Ok ("SOME_" +++ u +++ "_VALUE").

(** [openApi.paths[path]] and [openApi.paths[path][method]] *)
Definition pathItem (h : heap) (openApi : val) (path : string) : res val :=
  let? paths := get h openApi "paths" in get h paths path.

Definition operation (h : heap) (openApi : val) (path method : string) : res val :=
  let? item := pathItem h openApi path in get h item method.

(* ------------------------------------------------------------------ *)
(** ** The request descriptor *)
(* ------------------------------------------------------------------ *)

(** An element of [headers] or [queryString].  Every name the code pushes
    has passed through [toLowerCase] when the function returns, so it is a
    string; a header value is whatever the document holds. *)
Record entry : Type := mkEntry { ename : string; evalue : val }.

Record formParam : Type := mkFormParam { fname : val; fvalue : string }.

Record postData : Type := mkPostData {
  mimeType : string;
  text : val;
  params : option (list formParam)
}.

Record har : Type := mkHar {
  method : string;
  url : string;
  headers : list entry;
  queryString : list entry;
  httpVersion : string;
  cookies : list val;
  headersSize : Z;
  bodySize : Z;
  har_postData : option postData
}.

Record harItem : Type := mkHarItem {
  item_method : string;
  item_url : string;
  item_description : val;
  item_har : har
}.

Definition key (e : entry) : string := Str.toLowerCase (ename e).

(** [_.remove(array, e => e.name.toLowerCase() === k)] *)
Definition remove_key (k : string) (es : list entry) : list entry :=
  filter (fun e => negb (String.eqb (key e) k)) es.

(** [array.indexOf(k) > -1] *)
Definition mem (k : string) (ks : list string) : bool :=
  existsb (String.eqb k) ks.

(* ------------------------------------------------------------------ *)
(** ** getBaseUrl *)
(* ------------------------------------------------------------------ *)

Definition getBaseUrl (h : heap) (openApi : val) : res val :=
  let? servers := get h openApi "servers" in
  if truthy servers then
    let? s0 := get h servers "0" in get h s0 "url"
  else
    let? schemes := get h openApi "schemes" in
    let? baseUrl :=
      if defined schemes then let? s0 := get h schemes "0" in Ok (toStr h s0)
      else Ok "http" in
    let? basePath := get h openApi "basePath" in
    let? host := get h openApi "host" in
    if is_str basePath "/" || negb (truthy basePath)
    then Ok (VStr (baseUrl +++ "://" +++ toStr h host))
    else Ok (VStr (baseUrl +++ ("://" +++ toStr h host) +++ toStr h basePath)).

(* ------------------------------------------------------------------ *)
(** ** getFullPath *)
(* ------------------------------------------------------------------ *)

(** The body of the loop of [getFullPath]. *)
Definition fullPathStep (h : heap) (openApi parameters : val) (i : string)
  (fullPath : string) : res string :=
  let? raw := get h parameters i in
  let? param := derefParam h openApi raw in
  let? isPath := in_is h param "path" in
  if isPath then
    let? example := get h param "example" in
    if defined example then
      let? name := get h param "name" in
      Ok (Str.replace fullPath ("{" +++ toStr h name +++ "}") (toStr h example))
    else Ok fullPath
  else Ok fullPath.

(** [openApi.paths[path].parameters || openApi.paths[path][method].parameters] *)
Definition fullPathParameters (h : heap) (openApi : val) (path method : string)
  : res val :=
  let? item := pathItem h openApi path in
  let? pathLevel := get h item "parameters" in
  if truthy pathLevel then Ok pathLevel
  else let? op := operation h openApi path method in get h op "parameters".

Definition getFullPath (h : heap) (openApi : val) (path method : string) : res string :=
  let? parameters := fullPathParameters h openApi path method in
  if defined parameters
  then rforIn h parameters (fullPathStep h openApi parameters) path
  else Ok path.

(* ------------------------------------------------------------------ *)
(** ** getHeadersArray *)
(* ------------------------------------------------------------------ *)

(** [for (i in types) headers.push({name: hname, value: types[i]})] *)
Definition pushAll (h : heap) (hname : string) (types : val) (hs : list entry)
  : res (list entry) :=
  rforIn h types
    (fun i hs => let? t := get h types i in Ok (hs ++ [mkEntry hname t])) hs.

(** The accept and content-type headers of Swagger 2.0: those of the
    operation, or else those of the document. *)
Definition mediaHeaders (h : heap) (openApi pathObj : val) (field hname : string)
  (hs : list entry) : res (list entry) :=
  let? own := get h pathObj field in
  if defined own then pushAll h hname own hs
  else
    let? global := get h openApi field in
    if defined global then pushAll h hname global hs else Ok hs.

(** The content-type headers of OpenAPI 3: one for each key of
    [requestBody.content]. *)
Definition contentHeaders (h : heap) (pathObj : val) (hs : list entry)
  : res (list entry) :=
  let? rb := get h pathObj "requestBody" in
  if truthy rb then
    let? content := get h rb "content" in
    if truthy content then
      let? ks := object_keys h content in
      Ok (hs ++ List.map (fun k => mkEntry "content-type" (VStr k)) ks)
    else Ok hs
  else Ok hs.

(** [{name: param.name, value: 'SOME_' + ... + '_VALUE'}] together with
    [param.name.toLowerCase()], which both loops evaluate. *)
Definition headerEntry (h : heap) (param : val) : res entry :=
  let? name := get h param "name" in
  let? v := placeholder h param in
  let? _ := toLowerCase name in
  Ok (mkEntry (toStr h name) (VStr v)).

(** The list being built and the lowercased names seen so far
    ([headers] and [definedHeaders]; [queryStrings] and
    [definedQueryStrings]). *)
Definition collected : Type := (list entry * list string)%type.

(** Path level: push the entry and record its name. *)
Definition pushPathLevel (e : entry) (c : collected) : collected :=
  (fst c ++ [e], snd c ++ [key e]).

(** Operation level: an entry whose name was recorded replaces the entries
    with that name; otherwise its name is recorded.  It is pushed in both
    cases. *)
Definition pushOperationLevel (e : entry) (c : collected) : collected :=
  if mem (key e) (snd c)
  then (remove_key (key e) (fst c) ++ [e], snd c)
  else (fst c ++ [e], snd c ++ [key e]).

(** What an iteration does with the list: nothing, or one push. *)
Definition pushed (push : entry -> collected -> collected) (oe : option entry)
  (c : collected) : collected :=
  match oe with
  | Some e => push e c
  | None => c
  end.

(** The entry that the iteration for key [k] pushes, if the parameter is
    an [in: header] parameter. *)
Definition headerParam (h : heap) (openApi parameters : val) (k : string)
  : res (option entry) :=
  let? raw := get h parameters k in
  let? param := derefParam h openApi raw in
  let? isHeader := in_is h param "header" in
  if isHeader then let? e := headerEntry h param in Ok (Some e)
  else Ok None.

Definition headerStep (push : entry -> collected -> collected)
  (h : heap) (openApi parameters : val) (k : string) (c : collected) : res collected :=
  let? oe := headerParam h openApi parameters k in
  Ok (pushed push oe c).

Definition headerParams (h : heap) (openApi : val) (path method : string)
  (hs : list entry) : res collected :=
  let? item := pathItem h openApi path in
  let? pathLevel := get h item "parameters" in
  let? c :=
    if defined pathLevel
    then rforIn h pathLevel (headerStep pushPathLevel h openApi pathLevel) (hs, [])
    else Ok (hs, []) in
  let? pathObj := operation h openApi path method in
  let? opLevel := get h pathObj "parameters" in
  if defined opLevel
  then rforIn h opLevel (headerStep pushOperationLevel h openApi opLevel) c
  else Ok c.

(** [basicAuthDef], [apiKeyAuthDef] and [oauthDef]. *)
Record authDefs : Type := mkAuth { basicAuthDef : val; apiKeyAuthDef : val; oauthDef : val }.

Definition noAuth : authDefs := mkAuth VUndef VUndef VUndef.

(** [Object.keys(requirement)[0]] and the scheme definition of that name,
    from [securityDefinitions] if the document has them, else from
    [components.securitySchemes]. *)
Definition schemeOf (h : heap) (openApi requirement : val) : res (val * val) :=
  let? ks := object_keys h requirement in
  let secScheme := match ks with k :: _ => VStr k | [] => VUndef end in
  let? defs := get h openApi "securityDefinitions" in
  let? secDefinition :=
    if truthy defs then get h defs (toStr h secScheme)
    else
      let? components := get h openApi "components" in
      let? schemes := get h components "securitySchemes" in
      get h schemes (toStr h secScheme) in
  Ok (secScheme, secDefinition).

(** The body of the loop over [pathObj.security]. *)
Definition securityStepOperation (h : heap) (openApi security : val) (l : string)
  (a : authDefs) : res authDefs :=
  let? requirement := get h security l in
  let? sd := schemeOf h openApi requirement in
  let '(secScheme, secDefinition) := sd in
  let? ty := get h secDefinition "type" in
  let? authType := toLowerCase ty in
  let? scheme := get h secDefinition "scheme" in
  let? authScheme :=
    if negb (String.eqb authType "apikey") && not_nullish scheme
    then let? s := toLowerCase scheme in Ok (VStr s)
    else Ok VNull in
  if String.eqb authType "basic" then
    Ok (mkAuth secScheme (apiKeyAuthDef a) (oauthDef a))
  else if String.eqb authType "apikey" then
    let? loc := get h secDefinition "in" in
    if is_str loc "header"
    then Ok (mkAuth (basicAuthDef a) secDefinition (oauthDef a))
    else Ok a
  else if String.eqb authType "oauth2" then
    Ok (mkAuth (basicAuthDef a) (apiKeyAuthDef a) secScheme)
  else if String.eqb authType "http" then
    if is_str authScheme "bearer" then
      Ok (mkAuth (basicAuthDef a) (apiKeyAuthDef a) secScheme)
    else if is_str authScheme "basic" then
      Ok (mkAuth secScheme (apiKeyAuthDef a) (oauthDef a))
    else Ok a
  else Ok a.

(** The body of the loop over [openApi.security].  The scheme is read
    unless the type is [apikey] or [oauth2]. *)
Definition securityStepDocument (h : heap) (openApi security : val) (m : string)
  (a : authDefs) : res authDefs :=
  let? requirement := get h security m in
  let? sd := schemeOf h openApi requirement in
  let '(secScheme, secDefinition) := sd in
  let? ty := get h secDefinition "type" in
  let? authType := toLowerCase ty in
  let? authScheme :=
    if negb (String.eqb authType "apikey") && negb (String.eqb authType "oauth2")
    then
      let? scheme := get h secDefinition "scheme" in
      let? s := toLowerCase scheme in Ok (VStr s)
    else Ok VNull in
  if String.eqb authType "http" then
    if is_str authScheme "bearer" then
      Ok (mkAuth (basicAuthDef a) (apiKeyAuthDef a) secScheme)
    else if is_str authScheme "basic" then
      Ok (mkAuth secScheme (apiKeyAuthDef a) (oauthDef a))
    else Ok a
  else if String.eqb authType "basic" then
    Ok (mkAuth secScheme (apiKeyAuthDef a) (oauthDef a))
  else if String.eqb authType "apikey" then
    let? loc := get h secDefinition "in" in
    if is_str loc "header"
    then Ok (mkAuth (basicAuthDef a) secDefinition (oauthDef a))
    else Ok a
  else if String.eqb authType "oauth2" then
    Ok (mkAuth (basicAuthDef a) (apiKeyAuthDef a) secScheme)
  else Ok a.

Definition securityDefs (h : heap) (openApi pathObj : val) : res authDefs :=
  let? own := get h pathObj "security" in
  if defined own then
    rforIn h own (securityStepOperation h openApi own) noAuth
  else
    let? global := get h openApi "security" in
    if defined global then
      rforIn h global (securityStepDocument h openApi global) noAuth
    else Ok noAuth.

(** The last statement of [getHeadersArray]: at most one push. *)
Definition authHeader (h : heap) (a : authDefs) (definedHeaders : list string)
  : res (list entry) :=
  if truthy (basicAuthDef a) && negb (mem "authorization" definedHeaders) then
    Ok [mkEntry "Authorization" (VStr ("Basic " +++ "REPLACE_BASIC_AUTH"))]
  else
    let? apiKeyFree :=
      if truthy (apiKeyAuthDef a) then
        let? name := get h (apiKeyAuthDef a) "name" in
        let? lname := toLowerCase name in
        Ok (negb (mem lname definedHeaders))
      else Ok false in
    if apiKeyFree then
      let? name := get h (apiKeyAuthDef a) "name" in
      Ok [mkEntry (toStr h name) (VStr "REPLACE_KEY_VALUE")]
    else if truthy (oauthDef a) && negb (mem "authorization" definedHeaders) then
      Ok [mkEntry "Authorization" (VStr ("Bearer " +++ "REPLACE_BEARER_TOKEN"))]
    else Ok [].

(** Everything before the security part: the headers pushed so far and
    [definedHeaders]. *)
Definition declaredHeaders (h : heap) (openApi : val) (path method : string)
  : res collected :=
  let? pathObj := operation h openApi path method in
  let? hs := mediaHeaders h openApi pathObj "consumes" "accept" [] in
  let? hs := mediaHeaders h openApi pathObj "produces" "content-type" hs in
  let? hs := contentHeaders h pathObj hs in
  headerParams h openApi path method hs.

Definition getHeadersArray (h : heap) (openApi : val) (path method : string)
  : res (list entry) :=
  let? c := declaredHeaders h openApi path method in
  let? pathObj := operation h openApi path method in
  let? a := securityDefs h openApi pathObj in
  let? auth := authHeader h a (snd c) in
  Ok (fst c ++ auth).

(* ------------------------------------------------------------------ *)
(** ** getQueryStrings *)
(* ------------------------------------------------------------------ *)

(** [openApi.paths[path].parameters] and
    [openApi.paths[path][method].parameters], which the loops of
    [getQueryStrings] and [getPayload] read again at every iteration. *)
Definition pathParameters (openApi : val) (path : string) (h : heap) : res val :=
  let? item := pathItem h openApi path in get h item "parameters".

Definition operationParameters (openApi : val) (path method : string) (h : heap)
  : res val :=
  let? op := operation h openApi path method in get h op "parameters".

(** The value of a query parameter.  The placeholder is computed first,
    whatever the other sources of a value are. *)
Definition queryValue (h : heap) (values param : val) : res string :=
  let? value := placeholder h param in
  let? name := get h param "name" in
  let? given := get h values (toStr h name) in
  if defined given then Ok (toStr h given)
  else
    let? default := get h param "default" in
    if defined default then Ok (toStr h default)
    else
      let? sch := get h param "schema" in
      if defined sch then
        let? example := get h sch "example" in
        if defined example then Ok (toStr h example) else Ok value
      else Ok value.

Definition queryEntry (h : heap) (values param : val) : res entry :=
  let? value := queryValue h values param in
  let? name := get h param "name" in
  let? _ := toLowerCase name in
  Ok (mkEntry (toStr h name) (VStr value)).

(** The entry that the iteration for key [i] pushes, if the parameter is
    an [in: query] parameter.  The parameter is prepared first, which may
    write to the document. *)
Definition queryParam (openApi values : val) (parameters : heap -> res val)
  (i : string) : M (option entry) :=
  ps <- lift parameters ;;
  raw <- lift (fun h => get h ps i) ;;
  param <- prepareParam openApi raw ;;
  isQuery <- lift (fun h => in_is h param "query") ;;
  if isQuery then
    e <- lift (fun h => queryEntry h values param) ;;
    ret (Some e)
  else ret None.

Definition queryStep (push : entry -> collected -> collected)
  (openApi values : val) (parameters : heap -> res val) (i : string) (c : collected)
  : M collected :=
  oe <- queryParam openApi values parameters i ;;
  ret (pushed push oe c).

(** The loop over one of the two parameter lists, if the list is defined. *)
Definition queryLevel (push : entry -> collected -> collected)
  (openApi values : val) (parameters : heap -> res val) (c : collected) : M collected :=
  ps <- lift parameters ;;
  if defined ps then forIn ps (queryStep push openApi values parameters) c
  else ret c.

Definition queryCollect (openApi : val) (path method : string) (values : val)
  : M collected :=
  let values := if defined values then values else VNew in
  c <- queryLevel pushPathLevel openApi values (pathParameters openApi path) ([], []) ;;
  queryLevel pushOperationLevel openApi values
    (operationParameters openApi path method) c.

Definition getQueryStrings (openApi : val) (path method : string) (values : val)
  : M (list entry) :=
  c <- queryCollect openApi path method values ;;
  ret (fst c).

(* ------------------------------------------------------------------ *)
(** ** getPayload, createHar and openApiToHarList *)
(* ------------------------------------------------------------------ *)

(** What a [for (key in sample)] loop visits in a sampled value, each key
    with [sample[key]]. *)
Definition sample_fields (s : option json) : list (string * json) :=
  match s with
  | Some (JObj fields) => fields
  | Some (JArr items) => combine (indices (List.length items)) items
  | Some (JStr t) =>
      combine (indices (String.length t))
              (List.map (fun c => JStr (String c EmptyString)) (list_ascii_of_string t))
  | _ => []
  end.

(** The prototype chain of a sampled value and its own property names:
    the value is not an object of the store, but it inherits from the
    built-in prototypes like one. *)
Definition sample_chain (s : option json) : list loc :=
  match s with
  | Some (JObj _) => [objectProto]
  | Some (JArr _) => [arrayProto; objectProto]
  | Some (JStr _) => [stringProto; objectProto]
  | Some (JNum _) => [numberProto; objectProto]
  | Some (JBool _) => [booleanProto; objectProto]
  | _ => []
  end.

Definition sample_names (s : option json) : list string :=
  match s with
  | Some (JArr _) | Some (JStr _) => "length" :: List.map fst (sample_fields s)
  | _ => List.map fst (sample_fields s)
  end.

(** What the loop visits after the fields of the sample itself: the
    enumerable members that the sample inherits, each with its value. *)
Definition sample_inherited (h : heap) (s : option json) : list (string * val) :=
  List.map
    (fun k => (k, match inherited h (sample_chain s) k with
                  | Some v => v
                  | None => VUndef
                  end))
    (inherited_keys h (sample_names s) (sample_chain s)).

Definition jtoUpperCase (j : json) : res string :=
  match j with
  | JStr s => Ok (Str.toUpperCase s)
  | _ => Err TypeError
  end.

Definition multipart (ps : list formParam) : postData :=
  mkPostData "multipart/form-data" (VStr "") (Some ps).

(** [if (!payload || !payload.params) payload = {..., params: [item]}
     else if (payload.params && payload.params.length > 0)
       payload.params.push(item)] *)
Definition pushForm (item : formParam) (payload : option postData) : option postData :=
  match payload with
  | Some p =>
      match params p with
      | Some ps =>
          if (0 <? List.length ps)%nat
          then Some (mkPostData (mimeType p) (text p) (Some (ps ++ [item])))
          else payload
      | None => Some (multipart [item])
      end
  | None => Some (multipart [item])
  end.

Section WithSampler.

(** The external collaborators: [OpenAPISampler.sample(schema,
    {skipReadOnly: true}, openApi)], which may raise and returns a value of
    its own making ([None] is [undefined]), and [JSON.stringify]. *)
Variable sampler : heap -> val -> val -> res (option json).
Variable stringify : option json -> val.

Definition jsonPayload (sample : option json) : postData :=
  mkPostData "application/json" (stringify sample) None.

(** The body of the two parameter loops of [getPayload]. *)
Definition payloadStep (openApi : val) (parameters : heap -> res val) (i : string)
  (payload : option postData) : M (flow (option postData)) :=
  ps <- lift parameters ;;
  raw <- lift (fun h => get h ps i) ;;
  param <- prepareParam openApi raw ;;
  isBody <- lift (fun h => in_is h param "body") ;;
  sch <- lift (fun h => get h param "schema") ;;
  r <- (if isBody && defined sch then
          try_catch
            (sample <- lift (fun h => sampler h sch openApi) ;;
             ret (Continue (Some (jsonPayload sample))))
            (fun err => console_log err ;;; ret (Return None))
        else ret (Continue payload)) ;;
  match r with
  | Return v => ret (Return v)
  | Continue payload =>
      isForm <- lift (fun h => in_is h param "formdata") ;;
      if isForm then
        name <- lift (fun h => get h param "name") ;;
        ty <- lift (fun h => get h param "type") ;;
        u <- lift (fun _ => toUpperCase ty) ;;
        ret (Continue (pushForm (mkFormParam name ("SOME_" +++ u +++ "_VALUE")) payload))
      else ret (Continue payload)
  end.

Definition payloadLevel (openApi : val) (parameters : heap -> res val)
  (payload : option postData) : M (flow (option postData)) :=
  ps <- lift parameters ;;
  if defined ps then forInF ps (payloadStep openApi parameters) payload
  else ret (Continue payload).

(** [if (op.requestBody && op.requestBody['$ref'])
      op.requestBody = resolveRef(openApi, op.requestBody['$ref'])] *)
Definition resolveRequestBody (openApi : val) (path method : string) : M unit :=
  op <- lift (fun h => operation h openApi path method) ;;
  rb <- lift (fun h => get h op "requestBody") ;;
  if truthy rb then
    ref <- lift (fun h => get h rb "$ref") ;;
    if truthy ref then
      match ref with
      | VStr s =>
          v <- lift (fun h => resolveRef h openApi s) ;;
          write op "requestBody" v
      | _ => fun s => (Err TypeError, s)
      end
    else ret tt
  else ret tt.

(** [op.requestBody.content], when both are truthy. *)
Definition requestContent (openApi : val) (path method : string) (h : heap)
  : res val :=
  let? op := operation h openApi path method in
  let? rb := get h op "requestBody" in
  if truthy rb then get h rb "content" else Ok VUndef.

(** The body of the loop over [requestBody.content].  Neither call of the
    sampler stands in a [try]. *)
Definition contentStep (openApi : val) (path method : string) (i : string)
  (payload : option postData) : M (option postData) :=
  content <- lift (requestContent openApi path method) ;;
  requestBody <- lift (fun h => get h content i) ;;
  sch <- lift (fun h => get h requestBody "schema") ;;
  if truthy sch && String.eqb i "multipart/form-data" then
    sample <- lift (fun h => sampler h sch openApi) ;;
    lift (fun h =>
      let? payload :=
        List.fold_left
          (fun acc kv =>
             let? payload := acc in
             let? u := jtoUpperCase (snd kv) in
             Ok (pushForm (mkFormParam (VStr (fst kv)) ("SOME_" +++ u +++ "_VALUE"))
                   payload))
          (sample_fields sample) (Ok payload) in
      List.fold_left
        (fun acc kv =>
           let? payload := acc in
           let? u := toUpperCase (snd kv) in
           Ok (pushForm (mkFormParam (VStr (fst kv)) ("SOME_" +++ u +++ "_VALUE"))
                 payload))
        (sample_inherited h sample) (Ok payload))
  else if truthy sch && (String.eqb i "application/json" || String.eqb i "*/*") then
    sample <- lift (fun h => sampler h sch openApi) ;;
    ret (Some (jsonPayload sample))
  else ret payload.

Definition getPayload (openApi : val) (path method : string) : M (option postData) :=
  r <- payloadLevel openApi (pathParameters openApi path) None ;;
  match r with
  | Return v => ret v
  | Continue payload =>
      r <- payloadLevel openApi (operationParameters openApi path method) payload ;;
      match r with
      | Return v => ret v
      | Continue payload =>
          resolveRequestBody openApi path method ;;;
          content <- lift (requestContent openApi path method) ;;
          if truthy content
          then forIn content (contentStep openApi path method) payload
          else ret payload
      end
  end.

(** [createHar(openApi, path, method, queryParamValues)]; an absent last
    argument is [VUndef]. *)
Definition createHar (openApi : val) (path method : string) (queryParamValues : val)
  : M har :=
  let queryParamValues := if defined queryParamValues then queryParamValues else VNew in
  baseUrl <- lift (fun h => getBaseUrl h openApi) ;;
  fullPath <- lift (fun h => getFullPath h openApi path method) ;;
  url <- lift (fun h => Ok (toStr h baseUrl +++ fullPath)) ;;
  hs <- lift (fun h => getHeadersArray h openApi path method) ;;
  qs <- getQueryStrings openApi path method queryParamValues ;;
  postData <- getPayload openApi path method ;;
  ret (mkHar (Str.toUpperCase method) url hs qs "HTTP/1.1" [] 0 0 postData).

(** The body of the inner loop of [openApiToHarList]. *)
Definition harListStep (openApi baseUrl : val) (path method : string)
  (harList : list harItem) : M (list harItem) :=
  url <- lift (fun h => Ok (toStr h baseUrl +++ path)) ;;
  har <- createHar openApi path method VUndef ;;
  op <- lift (fun h => operation h openApi path method) ;;
  description <- lift (fun h => get h op "description") ;;
  ret (harList ++
       [mkHarItem (Str.toUpperCase method) url
          (if truthy description then description
           else VStr "No description available")
          har]).

Definition harListPath (openApi baseUrl : val) (path : string)
  (harList : list harItem) : M (list harItem) :=
  item <- lift (fun h => pathItem h openApi path) ;;
  forIn item (harListStep openApi baseUrl path) harList.

(** The [try] block of [openApiToHarList]. *)
Definition harListBody (openApi : val) : M (list harItem) :=
  baseUrl <- lift (fun h => getBaseUrl h openApi) ;;
  paths <- lift (fun h => get h openApi "paths") ;;
  forIn paths (harListPath openApi baseUrl) [].

(** [openApiToHarList(openApi)]; [None] is the [undefined] that the
    function returns after its [catch]. *)
Definition openApiToHarList (openApi : val) : M (option (list harItem)) :=
  try_catch
    (harList <- harListBody openApi ;; ret (Some harList))
    (fun e => console_log e ;;; ret None).

End WithSampler.

(* ------------------------------------------------------------------ *)
(** ** Definitions used to state the properties *)
(* ------------------------------------------------------------------ *)

Fixpoint has_slash (s : string) : bool :=
  match s with
  | EmptyString => false
  | String c s' => Ascii.eqb c "/" || has_slash s'
  end.

(** A read that yields [undefined] where the JavaScript expression would
    raise: [v?.[k]]. *)
Definition field (h : heap) (v : val) (k : string) : val :=
  match get h v k with
  | Ok x => x
  | Err _ => VUndef
  end.

(** Neither [param.type] nor [param.schema.type] is defined. *)
Definition lacksType (h : heap) (param : val) : Prop :=
  field h param "type" = VUndef /\ field h (field h param "schema") "type" = VUndef.






(** The merge of the two parameter lists, on the entries alone: the
    path-level entries [ps] are pushed after the headers [hs0] already
    there, then the operation-level entries [os]. *)
Definition merged (hs0 ps os : list entry) : collected :=
  fold_left (fun c e => pushOperationLevel e c) os
    (fold_left (fun c e => pushPathLevel e c) ps (hs0, [])).

Definition hasKey (k : string) (e : entry) : bool := String.eqb (key e) k.

(** The last entry of a list with a given lowercased name. *)
Definition lastWithKey (k : string) (es : list entry) : option entry :=
  find (hasKey k) (rev es).

(** The name of the entry is not the name of a header of [hs0]. *)
Definition otherThan (hs0 : list entry) (e : entry) : bool :=
  negb (mem (key e) (List.map key hs0)).

(** The entries of the parameters of one list, one for each parameter of
    the kind looked for, in order and before any merge. *)
Fixpoint gather (emit : string -> res (option entry)) (keys : list string)
  : res (list entry) :=
  match keys with
  | [] => Ok []
  | k :: ks =>
      let? oe := emit k in
      let? es := gather emit ks in
      Ok (match oe with Some e => e :: es | None => es end)
  end.

Definition headerEntries (h : heap) (openApi parameters : val) : res (list entry) :=
  gather (headerParam h openApi parameters) (forin_keys h parameters).

Fixpoint gatherM (emit : string -> M (option entry)) (keys : list string)
  : M (list entry) :=
  match keys with
  | [] => ret []
  | k :: ks =>
      oe <- emit k ;;
      es <- gatherM emit ks ;;
      ret (match oe with Some e => e :: es | None => es end)
  end.

Definition queryEntries (openApi values : val) (parameters : heap -> res val)
  : M (list entry) :=
  ps <- lift parameters ;;
  fun s => gatherM (queryParam openApi values parameters)
             (forin_keys (heap_of s) ps) s.

(** What holds of the list and of the recorded names while the
    operation-level entries are merged into [hs0] and the path-level
    entries [ps]. *)
Definition Collected (hs0 ps : list entry) (c : collected) : Prop :=
  (forall e, In e (fst c) -> In (key e) (snd c) \/ In e hs0)
  /\ (forall k, In k (List.map key ps) -> In k (snd c))
  /\ (NoDup (List.map key ps) ->
      NoDup (List.map key (filter (otherThan hs0) (fst c)))).

(** An accept or content-type header. *)
Definition mediaHeader (e : entry) : Prop :=
  ename e = "accept" \/ ename e = "content-type".

Definition basicAuthHeader : entry :=
  mkEntry "Authorization" (VStr "Basic REPLACE_BASIC_AUTH").

Definition bearerAuthHeader : entry :=
  mkEntry "Authorization" (VStr "Bearer REPLACE_BEARER_TOKEN").

(** The three candidates of the security part, each with the condition
    under which its header may be pushed: the candidate exists and no
    header parameter has recorded the name. *)
Definition basicFree (a : authDefs) (d : list string) : bool :=
  truthy (basicAuthDef a) && negb (mem "authorization" d).

Definition apiKeyFree (h : heap) (a : authDefs) (d : list string) : bool :=
  truthy (apiKeyAuthDef a)
  && match field h (apiKeyAuthDef a) "name" with
     | VStr n => negb (mem (Str.toLowerCase n) d)
     | _ => false
     end.

Definition bearerFree (a : authDefs) (d : list string) : bool :=
  truthy (oauthDef a) && negb (mem "authorization" d).

(** The loop of [getQueryStrings] over one parameter list, started in
    state [s] with [c] collected, comes to a parameter and prepares it,
    which gives [param] and the state [s2]. *)
Definition queryLoopReaches (push : entry -> collected -> collected)
  (openApi values : val) (parameters : heap -> res val) (c : collected) (s : state)
  (param : val) (s2 : state) : Prop :=
  exists ps ks1 k ks2 c1 s1 ps1 raw,
    parameters (heap_of s) = Ok ps
    /\ forin_keys (heap_of s) ps = ks1 ++ k :: ks2
    /\ foldM (queryStep push openApi values parameters) ks1 c s = (Ok c1, s1)
    /\ parameters (heap_of s1) = Ok ps1
    /\ get (heap_of s1) ps1 k = Ok raw
    /\ prepareParam openApi raw s1 = (Ok param, s2).

(** The call raises. *)
Definition raises {A} (r : res A * state) : Prop := exists e, fst r = Err e.

(** The items that the inner loop of [openApiToHarList] makes for the
    keys [methods] of the path item of [path], from the state [s] on.
    For each key [createHar] is called without values, in the state that
    the keys before it have left; the item has the key in upper case, the
    base URL followed by the path, the descriptor that the call returns,
    and the description read after the call, or the fallback text when
    that is not truthy. *)
Fixpoint itemsFrom
  (sampler : heap -> val -> val -> res (option json)) (stringify : option json -> val)
  (openApi baseUrl : val) (path : string) (methods : list string)
  (s : state) (items : list harItem) (s' : state) : Prop :=
  match methods with
  | [] => items = [] /\ s' = s
  | m :: ms =>
      exists r s1 op description rest,
        createHar sampler stringify openApi path m VUndef s = (Ok r, s1)
        /\ operation (heap_of s1) openApi path m = Ok op
        /\ get (heap_of s1) op "description" = Ok description
        /\ items
           = mkHarItem (Str.toUpperCase m) (toStr (heap_of s) baseUrl +++ path)
               (if truthy description then description
                else VStr "No description available")
               r
             :: rest
        /\ itemsFrom sampler stringify openApi baseUrl path ms s1 rest s'
  end.

(** The items of the paths [paths], from the state [s] on: for each path,
    those of the keys that its path item has when its loop starts. *)
Fixpoint itemsOfPaths
  (sampler : heap -> val -> val -> res (option json)) (stringify : option json -> val)
  (openApi baseUrl : val) (paths : list string)
  (s : state) (items : list harItem) (s' : state) : Prop :=
  match paths with
  | [] => items = [] /\ s' = s
  | p :: ps =>
      exists item its s1 rest,
        pathItem (heap_of s) openApi p = Ok item
        /\ itemsFrom sampler stringify openApi baseUrl p
             (forin_keys (heap_of s) item) s its s1
        /\ items = its ++ rest
        /\ itemsOfPaths sampler stringify openApi baseUrl ps s1 rest s'
  end.

(** The values that an object holds. *)
Definition stored (o : obj) : list val :=
  match o with
  | Obj ps => List.map snd ps
  | Arr es ps => es ++ List.map snd ps
  | Native _ _ ms => List.map snd ms
  end.

Definition is_fresh (v : val) : bool :=
  match v with
  | VNew => true
  | _ => false
  end.

(** No object of the store holds the fresh object [VNew]: [setProp] gives
    a fresh object a location when it stores it. *)
Definition noFresh (h : heap) : bool :=
  forallb (fun o => forallb (fun v => negb (is_fresh v)) (stored o)) h.

(** Following the segments of a path from a value: [o[p1][p2]...]. *)
Fixpoint walk (h : heap) (o : val) (segs : list string) : res val :=
  match segs with
  | [] => Ok o
  | p :: rest => let? o' := get h o p in walk h o' rest
  end.

(** The text [/p1/p2/...] of a list of segments. *)
Fixpoint pointer (segs : list string) : string :=
  match segs with
  | [] => EmptyString
  | p :: rest => String "/" (p +++ pointer rest)
  end.

(** From the store [h] to the store [h']: no object is lost, and every
    property of every object of [h], but [schema], [type] and
    [requestBody], reads as before. *)
Definition otherPropertiesKept (h h' : heap) : Prop :=
  (List.length h <= List.length h')%nat
  /\ forall l k,
       (l < List.length h)%nat -> written k = false ->
       get h' (VObj l) k = get h (VObj l) k.

(** A computation that keeps them, and whose log only grows. *)
Definition keepsDocument {A} (m : M A) : Prop :=
  forall s,
    otherPropertiesKept (heap_of s) (heap_of (snd (m s)))
    /\ exists logged, log_of (snd (m s)) = log_of s ++ logged.

(** The two forms of a payload: a JSON body without [params], whose text
    is the stringified form of a sample that [sampled] holds of, and a
    multipart body with an empty text and at least one parameter. *)
Definition payloadShape (sampled : option json -> Prop)
  (stringify : option json -> val) (p : postData) : Prop :=
  (mimeType p = "application/json"
   /\ params p = None
   /\ exists sample, sampled sample /\ text p = stringify sample)
  \/ (mimeType p = "multipart/form-data"
      /\ text p = VStr ""
      /\ exists item items, params p = Some (item :: items)).

Definition payloadOk (sampled : option json -> Prop)
  (stringify : option json -> val) (payload : option postData) : Prop :=
  match payload with
  | Some p => payloadShape sampled stringify p
  | None => True
  end.

(** The result of a loop, however it was left. *)
Definition flowValue {A} (r : flow A) : A :=
  match r with
  | Continue a => a
  | Return a => a
  end.

(** The loop of [getPayload] over one parameter list, started in state
    [s] with the payload [payload], comes to a parameter and prepares it,
    which gives [param] and the state [s2]. *)
Definition payloadLoopReaches
  (sampler : heap -> val -> val -> res (option json)) (stringify : option json -> val)
  (openApi : val) (parameters : heap -> res val) (payload : option postData)
  (s : state) (param : val) (s2 : state) : Prop :=
  exists ps ks1 k ks2 p1 s1 ps1 raw,
    parameters (heap_of s) = Ok ps
    /\ forin_keys (heap_of s) ps = ks1 ++ k :: ks2
    /\ foldF (payloadStep sampler stringify openApi parameters) ks1 payload s
       = (Ok (Continue p1), s1)
    /\ parameters (heap_of s1) = Ok ps1
    /\ get (heap_of s1) ps1 k = Ok raw
    /\ prepareParam openApi raw s1 = (Ok param, s2).

(** [sample] is what the sampler gives for the schema of an [in: body]
    parameter that one of the two loops of [getPayload], started in [s],
    comes to, in the store that the preparation of the parameter
    leaves. *)
Definition sampledParameter
  (sampler : heap -> val -> val -> res (option json)) (stringify : option json -> val)
  (openApi : val) (path method : string) (s : state) (sample : option json) : Prop :=
  exists param s2 sch,
    (payloadLoopReaches sampler stringify openApi (pathParameters openApi path) None s
       param s2
     \/ exists payload s0,
          payloadLevel sampler stringify openApi (pathParameters openApi path) None s
          = (Ok (Continue payload), s0)
          /\ payloadLoopReaches sampler stringify openApi
               (operationParameters openApi path method) payload s0 param s2)
    /\ in_is (heap_of s2) param "body" = Ok true
    /\ get (heap_of s2) param "schema" = Ok sch
    /\ defined sch = true
    /\ sampler (heap_of s2) sch openApi = Ok sample.

(** [sample] is what the sampler gives for the schema of the entry
    [application/json] or [*/*] of the content of the request body, in
    the store that the two loops and the resolution of the request body
    leave. *)
Definition sampledContent
  (sampler : heap -> val -> val -> res (option json)) (stringify : option json -> val)
  (openApi : val) (path method : string) (s : state) (sample : option json) : Prop :=
  exists p0 s0 p1 s1 s2 content i requestBody sch,
    payloadLevel sampler stringify openApi (pathParameters openApi path) None s
    = (Ok (Continue p0), s0)
    /\ payloadLevel sampler stringify openApi (operationParameters openApi path method)
         p0 s0 = (Ok (Continue p1), s1)
    /\ resolveRequestBody openApi path method s1 = (Ok tt, s2)
    /\ requestContent openApi path method (heap_of s2) = Ok content
    /\ truthy content = true
    /\ In i (forin_keys (heap_of s2) content)
    /\ (i = "application/json" \/ i = "*/*")
    /\ get (heap_of s2) content i = Ok requestBody
    /\ get (heap_of s2) requestBody "schema" = Ok sch
    /\ truthy sch = true
    /\ sampler (heap_of s2) sch openApi = Ok sample.

(** The samples of a call of [getPayload] that starts in [s]. *)
Definition sampledBy
  (sampler : heap -> val -> val -> res (option json)) (stringify : option json -> val)
  (openApi : val) (path method : string) (s : state) (sample : option json) : Prop :=
  sampledParameter sampler stringify openApi path method s sample
  \/ sampledContent sampler stringify openApi path method s sample.

(* ------------------------------------------------------------------ *)
(** ** Example documents *)
(* ------------------------------------------------------------------ *)

Definition constSampler : heap -> val -> val -> res (option json) :=
  fun _ _ _ => Ok (Some (JObj [("name", JStr "string")])).

Definition failingSampler : heap -> val -> val -> res (option json) :=
  fun _ _ _ => Err SamplerError.

Definition constStringify : option json -> val :=
  fun _ => VStr "{name:string}".

Definition emptyDocument : json := JObj [].

(** An OpenAPI 3 operation whose request body is a reference. *)
Definition docRequestBodyRef : json :=
  JObj [("servers", JArr [JObj [("url", JStr "https://x.io")]]);
        ("paths", JObj [("/pets", JObj [("post", JObj [
           ("requestBody", JObj [("$ref", JStr "#/components/requestBodies/Pet")])])])]);
        ("components", JObj [("requestBodies", JObj [("Pet", JObj [
           ("content", JObj [("application/json", JObj [
              ("schema", JObj [("type", JStr "object")])])])])])])].

(** An OpenAPI 3 operation with an inline JSON request body. *)
Definition docRequestBody : json :=
  JObj [("servers", JArr [JObj [("url", JStr "https://x.io")]]);
        ("paths", JObj [("/pets", JObj [("post", JObj [
           ("requestBody", JObj [("content", JObj [("application/json", JObj [
              ("schema", JObj [("type", JStr "object")])])])])])])])].

(** A Swagger 2.0 operation with a body parameter. *)
Definition docBodyParameter : json :=
  JObj [("host", JStr "x.io");
        ("paths", JObj [("/pets", JObj [("post", JObj [
           ("parameters", JArr [JObj [("name", JStr "pet"); ("in", JStr "body");
                                      ("schema", JObj [("type", JStr "object")])]])])])])].

(** Basic authentication of Swagger 2.0, required by the document and
    required by the operation. *)
Definition docSecurityDocument : json :=
  JObj [("host", JStr "x.io");
        ("security", JArr [JObj [("basicAuth", JArr [])]]);
        ("securityDefinitions", JObj [("basicAuth", JObj [("type", JStr "basic")])]);
        ("paths", JObj [("/pets", JObj [("get", JObj [])])])].

Definition docSecurityOperation : json :=
  JObj [("host", JStr "x.io");
        ("securityDefinitions", JObj [("basicAuth", JObj [("type", JStr "basic")])]);
        ("paths", JObj [("/pets", JObj [("get", JObj [
           ("security", JArr [JObj [("basicAuth", JArr [])]])])])])].


(** The example of the specification: only the operation declares it. *)
Definition docPetById : json :=
  JObj [("host", JStr "api.example.com"); ("basePath", JStr "/v1");
        ("paths", JObj [("/pets/{id}", JObj [
           ("get", JObj [
              ("parameters", JArr [JObj [("name", JStr "id"); ("in", JStr "path");
                                         ("example", JStr "42")]])])])])].

(** Two media types that the operation consumes. *)
Definition docConsumes : json :=
  JObj [("host", JStr "x.io");
        ("paths", JObj [("/pets", JObj [
           ("get", JObj [("consumes", JArr [JStr "application/json";
                                            JStr "application/xml"])])])])].

(** A query parameter and a header parameter, declared by the path item
    and declared again, in another case, by the operation. *)
Definition docOverride : json :=
  JObj [("host", JStr "x.io");
        ("paths", JObj [("/pets", JObj [
           ("parameters", JArr [
              JObj [("name", JStr "Limit"); ("in", JStr "query"); ("type", JStr "integer")];
              JObj [("name", JStr "X-Token"); ("in", JStr "header"); ("type", JStr "string")]]);
           ("get", JObj [
              ("parameters", JArr [
                 JObj [("name", JStr "limit"); ("in", JStr "query"); ("type", JStr "string")];
                 JObj [("name", JStr "x-token"); ("in", JStr "header");
                       ("type", JStr "integer")]])])])])].



(** [t] is the type that the placeholder is built from: [param.type], or
    [param.schema.type] when [param.type] is absent (or falsy). *)
Definition placeholderType (h : heap) (param : val) (t : string) : Prop :=
  field h param "type" = VStr t /\ t <> ""
  \/ truthy (field h param "type") = false
     /\ field h (field h param "schema") "type" = VStr t.




(** A query parameter with a default, one with an example in its schema
    and one with neither. *)
Definition docQueryValues : json :=
  JObj [("host", JStr "x.io");
        ("paths", JObj [("/pets", JObj [
           ("get", JObj [
              ("parameters", JArr [
                 JObj [("name", JStr "limit"); ("in", JStr "query");
                       ("type", JStr "integer"); ("default", JNum 20)];
                 JObj [("name", JStr "tag"); ("in", JStr "query");
                       ("schema", JObj [("type", JStr "string");
                                        ("example", JStr "cat")])];
                 JObj [("name", JStr "sort"); ("in", JStr "query");
                       ("type", JStr "string")]])])])])].

(** The caller's values [{limit: 5}]. *)
Definition limitFive : json := JObj [("limit", JNum 5)].

(** A query parameter that has neither a type nor a schema. *)
Definition docUntypedQuery : json :=
  JObj [("host", JStr "x.io");
        ("paths", JObj [("/pets", JObj [
           ("get", JObj [
              ("parameters", JArr [
                 JObj [("name", JStr "limit"); ("in", JStr "query")]])])])])].

(** A header parameter that has neither a type nor a schema. *)
Definition docUntypedHeader : json :=
  JObj [("host", JStr "x.io");
        ("paths", JObj [("/pets", JObj [
           ("get", JObj [
              ("parameters", JArr [
                 JObj [("name", JStr "X-Token"); ("in", JStr "header")]])])])])].

(** The same untyped query parameter, declared by the path item. *)
Definition docUntypedPathQuery : json :=
  JObj [("host", JStr "x.io");
        ("paths", JObj [("/pets", JObj [
           ("parameters", JArr [
              JObj [("name", JStr "limit"); ("in", JStr "query")]]);
           ("get", JObj [])])])].

(** Two paths, three operations, one of them described. *)
Definition docThreeOperations : json :=
  JObj [("host", JStr "x.io");
        ("paths", JObj [
           ("/pets", JObj [("get", JObj [("description", JStr "List pets")]);
                           ("post", JObj [])]);
           ("/owners", JObj [("get", JObj [("description", JStr "")])])])].

(** Two query parameters of the path item whose names differ in case
    only. *)
Definition docQueryCase : json :=
  JObj [("host", JStr "x.io");
        ("paths", JObj [("/pets", JObj [
           ("parameters", JArr [
              JObj [("name", JStr "Limit"); ("in", JStr "query"); ("type", JStr "integer")];
              JObj [("name", JStr "limit"); ("in", JStr "query"); ("type", JStr "string")]]);
           ("get", JObj [])])])].

(** An OpenAPI 3 document with an empty list of servers. *)
Definition docNoServers : json :=
  JObj [("servers", JArr []);
        ("paths", JObj [("/pets", JObj [("get", JObj [])])])].

(** A document without paths. *)
Definition docNoPaths : json := JObj [("host", JStr "x.io")].

(** The document requires Basic authentication, an operation lifts the
    requirement with an empty list, and another operation has the empty
    requirement that allows anonymous calls. *)
Definition docSecurityLifted : json :=
  JObj [("host", JStr "x.io");
        ("security", JArr [JObj [("basicAuth", JArr [])]]);
        ("securityDefinitions", JObj [("basicAuth", JObj [("type", JStr "basic");
                                                         ("scheme", JStr "basic")])]);
        ("paths", JObj [("/pets", JObj [
           ("get", JObj [("security", JArr [])]);
           ("post", JObj [("security", JArr [JObj []])])])])].

(** A Swagger 2.0 operation with a media type, header and query
    parameters at both levels, and Basic authentication. *)
Definition docAllHeaders : json :=
  JObj [("host", JStr "x.io");
        ("consumes", JArr [JStr "application/json"]);
        ("securityDefinitions", JObj [("basicAuth", JObj [("type", JStr "basic")])]);
        ("paths", JObj [("/pets", JObj [
           ("parameters", JArr [
              JObj [("name", JStr "X-Trace"); ("in", JStr "header"); ("type", JStr "string")];
              JObj [("name", JStr "page"); ("in", JStr "query"); ("type", JStr "integer")]]);
           ("get", JObj [
              ("parameters", JArr [
                 JObj [("name", JStr "X-Token"); ("in", JStr "header");
                       ("type", JStr "string")];
                 JObj [("name", JStr "q"); ("in", JStr "query"); ("type", JStr "string")]]);
              ("security", JArr [JObj [("basicAuth", JArr [])]])])])])].

(** A body parameter whose schema is a reference to a definition without
    type, after a formData parameter. *)
Definition docSchemaRef : json :=
  JObj [("host", JStr "x.io");
        ("definitions", JObj [("Pet", JObj [("required", JArr [JStr "name"])])]);
        ("paths", JObj [("/pets", JObj [("post", JObj [
           ("parameters", JArr [
              JObj [("name", JStr "file"); ("in", JStr "formData"); ("type", JStr "file")];
              JObj [("name", JStr "pet"); ("in", JStr "body");
                    ("schema", JObj [("$ref", JStr "#/definitions/Pet")])]])])])])].

(** A formData parameter described by a schema only. *)
Definition docFormUntyped : json :=
  JObj [("host", JStr "x.io");
        ("paths", JObj [("/pets", JObj [("post", JObj [
           ("parameters", JArr [
              JObj [("name", JStr "file"); ("in", JStr "formData");
                    ("schema", JObj [("type", JStr "string")])]])])])])].

(** A multipart request body of OpenAPI 3. *)
Definition docMultipart : json :=
  JObj [("servers", JArr [JObj [("url", JStr "https://x.io")]]);
        ("paths", JObj [("/pets", JObj [("post", JObj [
           ("requestBody", JObj [("content", JObj [("multipart/form-data", JObj [
              ("schema", JObj [("type", JStr "object")])])])])])])])].

(** A sampler whose sample has a number among its fields. *)
Definition numberSampler : heap -> val -> val -> res (option json) :=
  fun _ _ _ => Ok (Some (JObj [("name", JStr "string"); ("age", JNum 0)])).

(** A header parameter with a default and an example. *)
Definition docHeaderDefault : json :=
  JObj [("host", JStr "x.io");
        ("paths", JObj [("/pets", JObj [("get", JObj [
           ("parameters", JArr [
              JObj [("name", JStr "X-Version"); ("in", JStr "header");
                    ("type", JStr "integer"); ("default", JNum 2);
                    ("example", JNum 3)]])])])])].


(* ------------------------------------------------------------------ *)

Unset Implicit Arguments.

(* ------------------------------------------------------------------ *)
(** ** Property reads: facts *)
(* ------------------------------------------------------------------ *)

Lemma get_field (h : heap) (v : val) (k : string) (x : val) :
  get h v k = Ok x -> field h v k = x.
Proof. unfold field. now intros ->. Qed.

(** A read raises a TypeError and nothing else: on [undefined] and
    [null], and for the two accessors of a built-in function. *)
Lemma get_raises (h : heap) (v : val) (k : string) (e : exn) :
  get h v k = Err e ->
  (not_nullish v = false \/ (callable_value h v = true /\ restricted k = true))
  /\ e = TypeError.
Proof.
  unfold get. intros H.
  destruct v; try (injection H as <-; split; [left|]; reflexivity);
    (destruct (own h _ k); [discriminate|];
     destruct (Str.index_of_key k); [discriminate|];
     destruct (inherited h _ k); [discriminate|];
     destruct (String.eqb k "__proto__"); [discriminate|];
     destruct (callable_value h _) eqn:Hc; simpl in H; [|discriminate];
     destruct (restricted k) eqn:Hr; [|discriminate];
     injection H as <-; split; [right; split|]; reflexivity).
Qed.

Lemma get_ok (h : heap) (v : val) (k : string) :
  not_nullish v = true -> restricted k = false -> get h v k = Ok (field h v k).
Proof.
  intros Hv Hk. unfold field. destruct (get h v k) as [x|e] eqn:E; [reflexivity|].
  apply get_raises in E as [[E|[_ E]] _]; congruence.
Qed.


Example split_ref : Str.split_slash "#/definitions/Pet" = ["#"; "definitions"; "Pet"].
Proof. reflexivity. Qed.

Example split_bare : Str.split_slash "#" = ["#"].
Proof. reflexivity. Qed.

Example replace_first_only :
  Str.replace "/a/{id}/{id}" "{id}" "42" = "/a/42/{id}".
Proof. reflexivity. Qed.

Example replace_pattern :
  Str.replace "/a/{id}" "{id}" "<$&>" = "/a/<{id}>".
Proof. reflexivity. Qed.

Example index_keys :
  (Str.index_of_key "12", Str.index_of_key "012", Str.index_of_key "x")
  = (Some 12%nat, None, None).
Proof. reflexivity. Qed.

Example of_Z_neg : Str.of_Z (-42) = "-42".
Proof. reflexivity. Qed.

Lemma split_slash_no_slash (s : string) :
  has_slash s = false -> Str.split_slash s = [s].
Proof.
  induction s as [|c s IH]; simpl; [reflexivity|].
  intros H. apply orb_false_iff in H as [Hc Hs].
  rewrite Hc, (IH Hs). reflexivity.
Qed.

Lemma split_slash_segment (a b : string) :
  has_slash a = false ->
  Str.split_slash (a +++ String "/" b) = a :: Str.split_slash b.
Proof.
  induction a as [|c a IH]; simpl; [reflexivity|].
  intros H. apply orb_false_iff in H as [Hc Ha].
  rewrite Hc, (IH Ha). reflexivity.
Qed.



(* ------------------------------------------------------------------ *)
(** ** Reference resolution: facts *)
(* ------------------------------------------------------------------ *)

(** Reads that find an inherited member: the constructor of an empty
    document and its name, and the text of the method [toString]. *)
Example inherited_members_are_read :
  let '(d, s) := parse emptyDocument in
  resolveRef (heap_of s) d "#/constructor/name" = Ok (VStr "Object")
  /\ toStr (heap_of s) (field (heap_of s) d "toString")
     = "function toString() { [native code] }"
  /\ get (heap_of s) d "__proto__" = Ok (VObj objectProto)
  /\ forin_keys (heap_of s) d = [].
Proof. repeat split; reflexivity. Qed.

(** C7, as the specification states it, fails: in an empty document the
    reference [#/definitions/Pet] has no resolvable path, and resolving it
    raises a TypeError; the reference [#/Pet] yields [undefined].  Neither
    is an empty object. *)
Lemma resolveRef_unresolvable_not_empty_object :
  let '(d, s) := parse emptyDocument in
  resolveRef (heap_of s) d "#/definitions/Pet" = Err TypeError
  /\ resolveRef (heap_of s) d "#/Pet" = Ok VUndef.
Proof. split; reflexivity. Qed.

(* ------------------------------------------------------------------ *)
(** ** The sampler raises *)
(* ------------------------------------------------------------------ *)

(** C5 at its failing input.  With a sampler that raises, the payload of
    an OpenAPI 3 [requestBody] is not [null]: the exception leaves
    [getPayload] and [createHar], and nothing is logged.  For the body
    parameter of Swagger 2.0 the same sampler gives the [null] payload and
    one logged exception. *)
Theorem sampler_exception_escapes_requestBody :
  (let '(d, s) := parse docRequestBody in
   getPayload failingSampler constStringify d "/pets" "post" s = (Err SamplerError, s)
   /\ createHar failingSampler constStringify d "/pets" "post" VUndef s
      = (Err SamplerError, s))
  /\ (let '(d, s) := parse docBodyParameter in
      getPayload failingSampler constStringify d "/pets" "post" s
      = (Ok None, mkState (heap_of s) [SamplerError])).
Proof. split; [split|]; vm_compute; reflexivity. Qed.

(* ------------------------------------------------------------------ *)
(** ** Security requirements of the document *)
(* ------------------------------------------------------------------ *)

(** C6 at its failing input.  A [basic] scheme of Swagger 2.0 has no
    [scheme] member.  Required by the operation it gives the Basic
    header; required by the document it makes [getHeadersArray] raise,
    and with it [createHar]. *)
Theorem document_level_basic_scheme_raises :
  (let '(d, s) := parse docSecurityOperation in
   getHeadersArray (heap_of s) d "/pets" "get"
   = Ok [mkEntry "Authorization" (VStr "Basic REPLACE_BASIC_AUTH")])
  /\ (let '(d, s) := parse docSecurityDocument in
      getHeadersArray (heap_of s) d "/pets" "get" = Err TypeError
      /\ createHar constSampler constStringify d "/pets" "get" VUndef s
         = (Err TypeError, s)).
Proof. split; [|split]; vm_compute; reflexivity. Qed.

(* ------------------------------------------------------------------ *)
(** ** The two security loops and the two sampler calls, in general *)
(* ------------------------------------------------------------------ *)

(** When the scheme definition has a string [scheme] member, the loop
    over the security of the document does what the loop over the
    security of the operation does. *)
Lemma security_steps_agree_on_string_scheme (h : heap) (openApi security : val)
  (k : string) (a : authDefs) (requirement secScheme sd : val) (s : string) :
  get h security k = Ok requirement ->
  schemeOf h openApi requirement = Ok (secScheme, sd) ->
  get h sd "scheme" = Ok (VStr s) ->
  securityStepDocument h openApi security k a
  = securityStepOperation h openApi security k a.
Proof.
  intros Hreq Hsd Hscheme. unfold securityStepDocument, securityStepOperation.
  rewrite Hreq. simpl. rewrite Hsd. simpl.
  destruct (get h sd "type") as [ty|]; simpl; [|reflexivity].
  destruct (toLowerCase ty) as [authType|]; simpl; [|reflexivity].
  rewrite Hscheme. simpl.
  destruct (String.eqb authType "apikey") eqn:Hapikey; simpl.
  - apply String.eqb_eq in Hapikey. subst authType. reflexivity.
  - destruct (String.eqb authType "oauth2") eqn:Hoauth; simpl.
    + apply String.eqb_eq in Hoauth. subst authType. reflexivity.
    + destruct (String.eqb authType "http") eqn:Hhttp;
        destruct (String.eqb authType "basic") eqn:Hbasic; try reflexivity.
      apply String.eqb_eq in Hhttp, Hbasic. subst authType. discriminate.
Qed.

(** Without a [scheme] member a [basic] scheme is a Basic candidate in
    the loop of the operation, and a TypeError in the loop of the
    document. *)
Lemma document_step_raises_without_scheme (h : heap) (openApi security : val)
  (k : string) (a : authDefs) (requirement secScheme sd : val) (t : string) :
  get h security k = Ok requirement ->
  schemeOf h openApi requirement = Ok (secScheme, sd) ->
  get h sd "type" = Ok (VStr t) ->
  Str.toLowerCase t = "basic" ->
  get h sd "scheme" = Ok VUndef ->
  securityStepOperation h openApi security k a
  = Ok (mkAuth secScheme (apiKeyAuthDef a) (oauthDef a))
  /\ securityStepDocument h openApi security k a = Err TypeError.
Proof.
  intros Hreq Hsd Hty Hbasic Hscheme.
  unfold securityStepDocument, securityStepOperation.
  rewrite Hreq. simpl. rewrite Hsd. simpl. rewrite Hty. simpl.
  rewrite Hbasic, Hscheme. split; reflexivity.
Qed.

Section SamplerRaises.

Variable sampler : heap -> val -> val -> res (option json).
Variable stringify : option json -> val.

(** In the loop over [requestBody.content] an exception of the sampler
    leaves the loop body as it is, for each content type that is
    sampled. *)
Lemma contentStep_sampler_raises (openApi : val) (path method i : string)
  (payload : option postData) (s : state) (content requestBody sch : val) (e : exn) :
  requestContent openApi path method (heap_of s) = Ok content ->
  get (heap_of s) content i = Ok requestBody ->
  get (heap_of s) requestBody "schema" = Ok sch ->
  truthy sch = true ->
  i = "multipart/form-data" \/ i = "application/json" \/ i = "*/*" ->
  sampler (heap_of s) sch openApi = Err e ->
  contentStep sampler stringify openApi path method i payload s = (Err e, s).
Proof.
  intros Hcontent Hrb Hsch Htruthy Hi Hraise.
  unfold contentStep, bind, lift. rewrite Hcontent, Hrb, Hsch, Htruthy. simpl.
  destruct Hi as [->|[->| ->]]; simpl; now rewrite Hraise.
Qed.

(** In the loops over the parameters the exception is caught: it is
    logged and the function returns [null]. *)
Lemma payloadStep_sampler_raises (openApi : val) (parameters : heap -> res val)
  (i : string) (payload : option postData) (s s2 : state)
  (ps raw param sch : val) (e : exn) :
  parameters (heap_of s) = Ok ps ->
  get (heap_of s) ps i = Ok raw ->
  prepareParam openApi raw s = (Ok param, s2) ->
  in_is (heap_of s2) param "body" = Ok true ->
  get (heap_of s2) param "schema" = Ok sch ->
  defined sch = true ->
  sampler (heap_of s2) sch openApi = Err e ->
  payloadStep sampler stringify openApi parameters i payload s
  = (Ok (Return None), mkState (heap_of s2) (log_of s2 ++ [e])).
Proof.
  intros Hps Hraw Hprep Hin Hsch Hdef Hraise.
  unfold payloadStep, bind, lift. rewrite Hps, Hraw, Hprep, Hin, Hsch, Hdef. simpl.
  unfold try_catch, bind, lift. rewrite Hraise. reflexivity.
Qed.

End SamplerRaises.

(* ------------------------------------------------------------------ *)
(** ** Calling createHar twice *)
(* ------------------------------------------------------------------ *)

(** C9 at its failing input.  The first call builds the headers while
    [requestBody] is still a reference, so there is no content-type
    header; [getPayload] then replaces the reference in the document, and
    the second call finds the content type. *)
Theorem second_call_sees_resolved_requestBody :
  let '(d, s) := parse docRequestBodyRef in
  let '(r1, s1) := createHar constSampler constStringify d "/pets" "post" VUndef s in
  let '(r2, s2) := createHar constSampler constStringify d "/pets" "post" VUndef s1 in
  (exists h1 h2,
      r1 = Ok h1 /\ r2 = Ok h2
      /\ headers h1 = []
      /\ headers h2 = [mkEntry "content-type" (VStr "application/json")])
  /\ r1 <> r2
  /\ s1 <> s
  /\ s2 = s1.
Proof.
  vm_compute. split; [|split; [|split]].
  - eexists _, _. repeat split; reflexivity.
  - discriminate.
  - discriminate.
  - reflexivity.
Qed.

(* ------------------------------------------------------------------ *)
(** ** Path rendering *)
(* ------------------------------------------------------------------ *)






(* ------------------------------------------------------------------ *)
(** ** Merging path-level and operation-level entries *)
(* ------------------------------------------------------------------ *)

Lemma mem_In (k : string) (ks : list string) : mem k ks = true <-> In k ks.
Proof.
  unfold mem. rewrite existsb_exists. split.
  - intros [x [Hin Heq]]. apply String.eqb_eq in Heq. now subst.
  - intros Hin. exists k. split; [assumption|apply String.eqb_refl].
Qed.

Lemma mem_false (k : string) (ks : list string) : mem k ks = false <-> ~ In k ks.
Proof.
  split.
  - intros H Hin. apply mem_In in Hin. congruence.
  - intros H. destruct (mem k ks) eqn:E; [|reflexivity].
    apply mem_In in E. contradiction.
Qed.

Lemma In_remove_key (k : string) (e : entry) (es : list entry) :
  In e (remove_key k es) <-> In e es /\ key e <> k.
Proof.
  unfold remove_key. rewrite filter_In. split; intros [H1 H2]; split; auto.
  - intros Heq. rewrite Heq, String.eqb_refl in H2. discriminate.
  - apply negb_true_iff. now apply String.eqb_neq.
Qed.

Lemma filter_hasKey_remove_same (k : string) (es : list entry) :
  filter (hasKey k) (remove_key k es) = [].
Proof.
  induction es as [|e es IH]; simpl; [reflexivity|].
  destruct (String.eqb (key e) k) eqn:E; simpl; [assumption|].
  unfold hasKey at 1. rewrite E. assumption.
Qed.

Lemma filter_hasKey_remove_other (k k' : string) (es : list entry) :
  k <> k' -> filter (hasKey k) (remove_key k' es) = filter (hasKey k) es.
Proof.
  intros Hne. induction es as [|e es IH]; simpl; [reflexivity|].
  destruct (String.eqb (key e) k') eqn:E; simpl.
  - apply String.eqb_eq in E. unfold hasKey at 2.
    destruct (String.eqb (key e) k) eqn:E'; [|assumption].
    apply String.eqb_eq in E'. congruence.
  - now rewrite IH.
Qed.

Lemma filter_nil_iff {A} (f : A -> bool) (l : list A) :
  (forall x, In x l -> f x = false) -> filter f l = [].
Proof.
  induction l as [|x l IH]; simpl; intros H; [reflexivity|].
  rewrite (H x) by auto. apply IH. auto.
Qed.

Lemma filter_remove_key (f : entry -> bool) (k : string) (es : list entry) :
  filter f (remove_key k es) = remove_key k (filter f es).
Proof.
  induction es as [|e es IH]; simpl; [reflexivity|].
  destruct (String.eqb (key e) k) eqn:E; destruct (f e) eqn:F; simpl;
    rewrite ?E, ?F; simpl; now rewrite IH.
Qed.

Lemma NoDup_keys_filter (f : entry -> bool) (es : list entry) :
  NoDup (List.map key es) -> NoDup (List.map key (filter f es)).
Proof.
  induction es as [|e es IH]; simpl; intros H; [constructor|].
  inversion H as [|? ? Hnotin Hnodup]; subst.
  destruct (f e); simpl; [|auto].
  constructor; [|auto].
  intros Hin. apply Hnotin. apply in_map_iff in Hin as [x [Hx Hin]].
  apply filter_In in Hin as [Hin _]. apply in_map_iff. eauto.
Qed.

Lemma NoDup_keys_snoc (es : list entry) (e : entry) :
  NoDup (List.map key es) -> ~ In (key e) (List.map key es) ->
  NoDup (List.map key (es ++ [e])).
Proof.
  intros Hnd Hnotin. rewrite map_app. simpl.
  apply NoDup_app; [assumption|repeat constructor; simpl; tauto|].
  intros x Hx [<-|[]]. contradiction.
Qed.

Lemma pushPathLevel_all (ps : list entry) (c : collected) :
  fold_left (fun c e => pushPathLevel e c) ps c
  = (fst c ++ ps, snd c ++ List.map key ps).
Proof.
  revert c. induction ps as [|p ps IH]; intros [hs d]; simpl.
  - now rewrite !app_nil_r.
  - rewrite IH. unfold pushPathLevel; simpl. now rewrite <- !app_assoc.
Qed.

Lemma otherThan_own (hs0 : list entry) (e : entry) :
  In e hs0 -> otherThan hs0 e = false.
Proof.
  intros Hin. unfold otherThan. apply negb_false_iff, mem_In.
  now apply in_map.
Qed.

Lemma collected_path (hs0 ps : list entry) :
  Collected hs0 ps (fold_left (fun c e => pushPathLevel e c) ps (hs0, [])).
Proof.
  rewrite pushPathLevel_all. simpl. repeat split; simpl.
  - intros e Hin. apply in_app_or in Hin as [Hin|Hin]; [now right|].
    left. now apply in_map.
  - auto.
  - intros Hnd. rewrite filter_app.
    rewrite (filter_nil_iff (otherThan hs0) hs0) by (apply otherThan_own).
    simpl. now apply NoDup_keys_filter.
Qed.

Lemma collected_operation (hs0 ps : list entry) (e : entry) (c : collected) :
  Collected hs0 ps c -> Collected hs0 ps (pushOperationLevel e c).
Proof.
  intros (Hin & Hps & Hnd). unfold pushOperationLevel.
  destruct (mem (key e) (snd c)) eqn:Hmem; repeat split; simpl.
  - intros x Hx. apply in_app_or in Hx as [Hx|[<-|[]]].
    + apply In_remove_key in Hx as [Hx _]. auto.
    + left. now apply mem_In.
  - assumption.
  - intros Hp. specialize (Hnd Hp).
    rewrite filter_app, filter_remove_key. simpl.
    destruct (otherThan hs0 e).
    + apply NoDup_keys_snoc.
      * now apply NoDup_keys_filter.
      * intros Hk. apply in_map_iff in Hk as [x [Hkey Hx]].
        apply In_remove_key in Hx as [_ Hne]. contradiction.
    + rewrite app_nil_r. now apply NoDup_keys_filter.
  - intros x Hx. apply in_app_or in Hx as [Hx|[<-|[]]].
    + destruct (Hin x Hx); [left; apply in_or_app|]; auto.
    + left. apply in_or_app. right. now left.
  - intros k Hk. apply in_or_app. auto.
  - intros Hp. specialize (Hnd Hp).
    rewrite filter_app. simpl.
    destruct (otherThan hs0 e) eqn:Hother; [|now rewrite app_nil_r].
    apply NoDup_keys_snoc; [assumption|].
    intros Hk. apply in_map_iff in Hk as [x [Hkey Hx]].
    apply filter_In in Hx as [Hx Hox].
    apply mem_false in Hmem. apply Hmem. rewrite <- Hkey.
    destruct (Hin x Hx) as [?|Hx0]; [assumption|].
    rewrite (otherThan_own _ _ Hx0) in Hox. discriminate.
Qed.

Lemma collected_all (hs0 ps os : list entry) (c : collected) :
  Collected hs0 ps c ->
  Collected hs0 ps (fold_left (fun c e => pushOperationLevel e c) os c).
Proof.
  revert c. induction os as [|o os IH]; simpl; intros c Hc; [assumption|].
  apply IH. now apply collected_operation.
Qed.

Lemma collected_merged (hs0 ps os : list entry) :
  Collected hs0 ps (merged hs0 ps os).
Proof. apply collected_all, collected_path. Qed.

Lemma lastWithKey_snoc (k : string) (os : list entry) (o : entry) :
  lastWithKey k (os ++ [o]) = if hasKey k o then Some o else lastWithKey k os.
Proof. unfold lastWithKey. rewrite rev_app_distr. reflexivity. Qed.

(** The entry of the last operation-level parameter of a name is the
    only entry of that name, if the name is also a path-level name or is
    not the name of a header that was there before. *)
Lemma operation_level_wins (hs0 ps : list entry) (k : string) :
  In k (List.map key ps) \/ ~ In k (List.map key hs0) ->
  forall (os : list entry) (c : collected),
    Collected hs0 ps c ->
    In k (List.map key os) ->
    exists o,
      lastWithKey k os = Some o
      /\ filter (hasKey k) (fst (fold_left (fun c e => pushOperationLevel e c) os c))
         = [o].
Proof.
  intros Hk os. induction os as [|o os IH] using rev_ind; intros c Hc Hin.
  - destruct Hin.
  - rewrite fold_left_app, lastWithKey_snoc. simpl.
    pose proof (collected_all hs0 ps os c Hc) as (Hc1 & Hc2 & _).
    set (c' := fold_left (fun c e => pushOperationLevel e c) os c) in *.
    unfold pushOperationLevel.
    destruct (hasKey k o) eqn:Hko.
    + exists o. split; [reflexivity|].
      unfold hasKey in Hko. apply String.eqb_eq in Hko.
      destruct (mem (key o) (snd c')) eqn:Hmem; simpl; rewrite filter_app; simpl;
        unfold hasKey at 2; rewrite Hko, String.eqb_refl.
      * rewrite <- Hko at 1. rewrite Hko. now rewrite filter_hasKey_remove_same.
      * rewrite filter_nil_iff; [reflexivity|].
        intros x Hx. unfold hasKey. apply String.eqb_neq. intros Hxk.
        apply mem_false in Hmem. apply Hmem. rewrite Hko.
        destruct (Hc1 x Hx) as [Hd|Hx0]; [now rewrite <- Hxk|].
        destruct Hk as [Hk|Hk]; [auto|].
        exfalso. apply Hk. rewrite <- Hxk. now apply in_map.
    + assert (Hin' : In k (List.map key os)).
      { rewrite map_app in Hin. apply in_app_or in Hin as [?|[Heq|[]]]; [assumption|].
        unfold hasKey in Hko. rewrite Heq, String.eqb_refl in Hko. discriminate. }
      destruct (IH c Hc Hin') as [o' [Hlast Hfilter]].
      exists o'. split; [assumption|].
      fold c' in Hfilter.
      assert (Hne : k <> key o).
      { intros ->. unfold hasKey in Hko. rewrite String.eqb_refl in Hko. discriminate. }
      destruct (mem (key o) (snd c')); simpl; rewrite filter_app; simpl; rewrite Hko;
        rewrite app_nil_r; [|assumption].
      now rewrite filter_hasKey_remove_other.
Qed.

(* ------------------------------------------------------------------ *)
(** ** Loops *)
(* ------------------------------------------------------------------ *)

Lemma rfold_invariant {A} (P : A -> Prop) (body : string -> A -> res A)
  (keys : list string) :
  (forall k a a', P a -> body k a = Ok a' -> P a') ->
  forall a a', P a -> rfold body keys a = Ok a' -> P a'.
Proof.
  intros Hstep. induction keys as [|k ks IH]; simpl; intros a a' Ha Hrun.
  - injection Hrun as <-. assumption.
  - destruct (body k a) as [a1|] eqn:Hb; simpl in Hrun; [|discriminate].
    apply (IH a1 a'); [exact (Hstep k a a1 Ha Hb)|assumption].
Qed.

Lemma rfold_raises {A} (body : string -> A -> res A) (keys : list string) (k : string) :
  In k keys ->
  (forall a, exists e, body k a = Err e) ->
  forall a, exists e, rfold body keys a = Err e.
Proof.
  intros Hin Hk. induction keys as [|k' ks IH]; simpl; intros a; [destruct Hin|].
  destruct Hin as [->|Hin].
  - destruct (Hk a) as [e He]. rewrite He. simpl. eauto.
  - destruct (body k' a) as [a1|e]; simpl; eauto.
Qed.

Lemma rfold_headerStep (push : entry -> collected -> collected)
  (h : heap) (openApi parameters : val) (keys : list string) :
  forall c,
    rfold (headerStep push h openApi parameters) keys c
    = (let? es := gather (headerParam h openApi parameters) keys in
       Ok (fold_left (fun c e => push e c) es c)).
Proof.
  induction keys as [|k ks IH]; simpl; intros c; [reflexivity|].
  unfold headerStep at 1.
  destruct (headerParam h openApi parameters k) as [oe|]; simpl; [|reflexivity].
  rewrite IH.
  destruct (gather (headerParam h openApi parameters) ks) as [es|]; simpl;
    [|reflexivity].
  destruct oe; reflexivity.
Qed.

Lemma foldM_queryStep (push : entry -> collected -> collected)
  (openApi values : val) (parameters : heap -> res val) (keys : list string) :
  forall c s,
    foldM (queryStep push openApi values parameters) keys c s
    = match gatherM (queryParam openApi values parameters) keys s with
      | (Ok es, s') => (Ok (fold_left (fun c e => push e c) es c), s')
      | (Err e, s') => (Err e, s')
      end.
Proof.
  induction keys as [|k ks IH]; simpl; intros c s; [reflexivity|].
  unfold bind, queryStep at 1, bind.
  destruct (queryParam openApi values parameters k s) as [[oe|e] s1]; [|reflexivity].
  unfold ret at 1. rewrite IH.
  destruct (gatherM (queryParam openApi values parameters) ks s1) as [[es|e] s2];
    [|reflexivity].
  unfold ret. destruct oe; reflexivity.
Qed.

(* ------------------------------------------------------------------ *)
(** ** Headers: facts *)
(* ------------------------------------------------------------------ *)

Lemma pushAll_media (h : heap) (hname : string) (types : val) (hs hs' : list entry) :
  hname = "accept" \/ hname = "content-type" ->
  Forall mediaHeader hs ->
  pushAll h hname types hs = Ok hs' ->
  Forall mediaHeader hs'.
Proof.
  intros Hname Hhs. unfold pushAll, rforIn.
  apply rfold_invariant; [|assumption].
  intros k a a' Ha Hstep.
  destruct (get h types k) as [t|]; simpl in Hstep; [|discriminate].
  injection Hstep as <-. apply Forall_app. split; [assumption|].
  constructor; [exact Hname|constructor].
Qed.

Lemma mediaHeaders_media (h : heap) (openApi pathObj : val) (fld hname : string)
  (hs hs' : list entry) :
  hname = "accept" \/ hname = "content-type" ->
  Forall mediaHeader hs ->
  mediaHeaders h openApi pathObj fld hname hs = Ok hs' ->
  Forall mediaHeader hs'.
Proof.
  intros Hname Hhs. unfold mediaHeaders.
  destruct (get h pathObj fld) as [own|]; simpl; [|discriminate].
  destruct (defined own); [now apply pushAll_media|].
  destruct (get h openApi fld) as [global|]; simpl; [|discriminate].
  destruct (defined global); [now apply pushAll_media|].
  now intros [= <-].
Qed.

Lemma contentHeaders_media (h : heap) (pathObj : val) (hs hs' : list entry) :
  Forall mediaHeader hs ->
  contentHeaders h pathObj hs = Ok hs' ->
  Forall mediaHeader hs'.
Proof.
  intros Hhs. unfold contentHeaders.
  destruct (get h pathObj "requestBody") as [rb|]; simpl; [|discriminate].
  destruct (truthy rb); [|now intros [= <-]].
  destruct (get h rb "content") as [content|]; simpl; [|discriminate].
  destruct (truthy content); [|now intros [= <-]].
  destruct (object_keys h content) as [ks|]; simpl; [|discriminate].
  intros [= <-]. apply Forall_app. split; [assumption|].
  apply Forall_map. apply Forall_forall. intros k _. now right.
Qed.

Lemma mediaHeader_key (e : entry) :
  mediaHeader e -> key e = "accept" \/ key e = "content-type".
Proof. unfold key. intros [->| ->]; [left|right]; reflexivity. Qed.

(** The headers before the security part are the accept and content-type
    headers merged with the entries of the two parameter lists. *)
Lemma declaredHeaders_merged (h : heap) (openApi : val) (path method : string)
  (c : collected) :
  declaredHeaders h openApi path method = Ok c ->
  exists hs0 pl ol ps os,
    Forall mediaHeader hs0
    /\ pathParameters openApi path h = Ok pl
    /\ operationParameters openApi path method h = Ok ol
    /\ headerEntries h openApi pl = Ok ps
    /\ headerEntries h openApi ol = Ok os
    /\ c = merged hs0 ps os.
Proof.
  unfold declaredHeaders, headerParams, pathParameters, operationParameters.
  destruct (operation h openApi path method) as [pathObj|] eqn:Hop; simpl;
    [|discriminate].
  destruct (mediaHeaders h openApi pathObj "consumes" "accept" []) as [hs1|] eqn:H1;
    simpl; [|discriminate].
  destruct (mediaHeaders h openApi pathObj "produces" "content-type" hs1)
    as [hs2|] eqn:H2; simpl; [|discriminate].
  destruct (contentHeaders h pathObj hs2) as [hs0|] eqn:H3; simpl; [|discriminate].
  destruct (pathItem h openApi path) as [item|] eqn:Hitem; simpl; [|discriminate].
  destruct (get h item "parameters") as [pl|] eqn:Hpl; simpl; [|discriminate].
  assert (Hmedia : Forall mediaHeader hs0).
  { eapply contentHeaders_media; [|exact H3].
    eapply mediaHeaders_media; [now right| |exact H2].
    eapply mediaHeaders_media; [now left| |exact H1]. constructor. }
  assert (Hpath :
    (if defined pl
     then rforIn h pl (headerStep pushPathLevel h openApi pl) (hs0, [])
     else Ok (hs0, []))
    = (let? ps := headerEntries h openApi pl in
       Ok (fold_left (fun c e => pushPathLevel e c) ps (hs0, [])))).
  { unfold headerEntries, rforIn. destruct (defined pl) eqn:Hd.
    - apply rfold_headerStep.
    - destruct pl; try discriminate. reflexivity. }
  rewrite Hpath.
  destruct (headerEntries h openApi pl) as [ps|] eqn:Hps; simpl; [|discriminate].
  destruct (get h pathObj "parameters") as [ol|] eqn:Hol; simpl; [|discriminate].
  intros Hrun.
  assert (Hop' :
    (let? os := headerEntries h openApi ol in
     Ok (fold_left (fun c e => pushOperationLevel e c) os
           (fold_left (fun c e => pushPathLevel e c) ps (hs0, [])))) = Ok c).
  { rewrite <- Hrun. unfold headerEntries, rforIn. destruct (defined ol) eqn:Hd.
    - symmetry. apply rfold_headerStep.
    - destruct ol; try discriminate. reflexivity. }
  destruct (headerEntries h openApi ol) as [os|] eqn:Hos; simpl in Hop';
    [|discriminate].
  injection Hop' as <-.
  exists hs0, pl, ol, ps, os. repeat split; auto.
Qed.

Lemma toStr_str (h : heap) (s : string) : toStr h (VStr s) = s.
Proof. unfold toStr. destruct (List.length h); reflexivity. Qed.

(** The security part pushes nothing or one header, whose name is not a
    recorded name. *)
Lemma authHeader_cases (h : heap) (a : authDefs) (d : list string) (auth : list entry) :
  authHeader h a d = Ok auth ->
  auth = [] \/ exists e, auth = [e] /\ ~ In (key e) d.
Proof.
  unfold authHeader.
  destruct (truthy (basicAuthDef a) && negb (mem "authorization" d)) eqn:Hbasic.
  - intros [= <-]. right. eexists. split; [reflexivity|].
    apply andb_true_iff in Hbasic as [_ Hmem].
    apply negb_true_iff in Hmem. now apply mem_false.
  - destruct (truthy (apiKeyAuthDef a)); simpl.
    + destruct (get h (apiKeyAuthDef a) "name") as [name|]; simpl; [|discriminate].
      destruct name; simpl; try discriminate.
      destruct (mem (Str.toLowerCase s) d) eqn:Hmem; simpl.
      * destruct (truthy (oauthDef a) && negb (mem "authorization" d)) eqn:Hoauth;
          intros [= <-]; [right|now left].
        eexists. split; [reflexivity|].
        apply andb_true_iff in Hoauth as [_ Hm].
        apply negb_true_iff in Hm. now apply mem_false.
      * intros [= <-]. right. eexists. split; [reflexivity|].
        unfold key; simpl. rewrite toStr_str. now apply mem_false.
    + destruct (truthy (oauthDef a) && negb (mem "authorization" d)) eqn:Hoauth;
        intros [= <-]; [right|now left].
      eexists. split; [reflexivity|].
      apply andb_true_iff in Hoauth as [_ Hm].
      apply negb_true_iff in Hm. now apply mem_false.
Qed.

Lemma recorded_names (hs0 ps os : list entry) (k : string) :
  In k (snd (merged hs0 ps os)) <-> In k (List.map key (ps ++ os)).
Proof.
  unfold merged. rewrite pushPathLevel_all. simpl.
  generalize (hs0 ++ ps) as hs. rewrite map_app.
  generalize (List.map key ps) as d. clear ps.
  induction os as [|o os IH]; simpl; intros d hs.
  - rewrite app_nil_r. tauto.
  - unfold pushOperationLevel at 2. simpl.
    destruct (mem (key o) d) eqn:Hmem.
    + rewrite IH. apply mem_In in Hmem. rewrite !in_app_iff. simpl.
      intuition (subst; auto).
    + rewrite IH. rewrite !in_app_iff. simpl. tauto.
Qed.

Lemma declared_not_named (hs0 ps os : list entry) (k : string) :
  Forall mediaHeader hs0 ->
  k <> "accept" -> k <> "content-type" ->
  ~ In k (snd (merged hs0 ps os)) ->
  filter (hasKey k) (fst (merged hs0 ps os)) = [].
Proof.
  intros Hmedia Ha Hc Hnot. apply filter_nil_iff. intros e He.
  unfold hasKey. apply String.eqb_neq. intros Hk.
  destruct (collected_merged hs0 ps os) as (Hin & _ & _).
  destruct (Hin e He) as [Hd|H0].
  - apply Hnot. now rewrite <- Hk.
  - rewrite Forall_forall in Hmedia.
    destruct (mediaHeader_key e (Hmedia e H0)); congruence.
Qed.

Lemma authHeader_order (h : heap) (a : authDefs) (d : list string) (auth : list entry) :
  authHeader h a d = Ok auth ->
  auth =
    if basicFree a d then [basicAuthHeader]
    else if apiKeyFree h a d
         then [mkEntry (toStr h (field h (apiKeyAuthDef a) "name"))
                 (VStr "REPLACE_KEY_VALUE")]
         else if bearerFree a d then [bearerAuthHeader]
              else [].
Proof.
  unfold authHeader, basicFree, apiKeyFree, bearerFree, field.
  destruct (truthy (basicAuthDef a) && negb (mem "authorization" d)).
  - now intros [= <-].
  - destruct (truthy (apiKeyAuthDef a)); simpl.
    + destruct (get h (apiKeyAuthDef a) "name") as [name|]; simpl; [|discriminate].
      destruct name; simpl; try discriminate.
      destruct (negb (mem (Str.toLowerCase s) d)); simpl.
      * now intros [= <-].
      * destruct (truthy (oauthDef a) && negb (mem "authorization" d));
          now intros [= <-].
    + destruct (truthy (oauthDef a) && negb (mem "authorization" d));
        now intros [= <-].
Qed.

(** C3: the security part of [getHeadersArray] pushes at most one header;
    the candidates are tried in the order Basic, API key, Bearer; and a
    candidate is pushed only under a name that no [in: header] parameter
    has (the recorded names are the names of the entries of the two
    parameter lists, in lower case).  In particular, when the operation requires one scheme, defined
    in [securityDefinitions] with type [basic], and no header parameter is
    named Authorization, the headers have exactly one entry of that name,
    [Authorization: Basic REPLACE_BASIC_AUTH]. *)
Theorem auth_header_at_most_one_in_order :
  (forall h openApi path method hs,
      getHeadersArray h openApi path method = Ok hs ->
      exists c pathObj a auth,
        declaredHeaders h openApi path method = Ok c
        /\ operation h openApi path method = Ok pathObj
        /\ securityDefs h openApi pathObj = Ok a
        /\ hs = fst c ++ auth
        /\ (List.length auth <= 1)%nat
        /\ (forall e, In e auth -> ~ In (key e) (snd c))
        /\ (exists pl ol ps os,
               pathParameters openApi path h = Ok pl
               /\ operationParameters openApi path method h = Ok ol
               /\ headerEntries h openApi pl = Ok ps
               /\ headerEntries h openApi ol = Ok os
               /\ forall k, In k (snd c) <-> In k (List.map key (ps ++ os)))
        /\ auth =
             if basicFree a (snd c) then [basicAuthHeader]
             else if apiKeyFree h a (snd c)
                  then [mkEntry (toStr h (field h (apiKeyAuthDef a) "name"))
                          (VStr "REPLACE_KEY_VALUE")]
                  else if bearerFree a (snd c) then [bearerAuthHeader]
                       else [])
  /\ (forall h openApi path method c pathObj sec req n rest defs sd t sch,
         declaredHeaders h openApi path method = Ok c ->
         ~ In "authorization" (snd c) ->
         operation h openApi path method = Ok pathObj ->
         get h pathObj "security" = Ok sec ->
         forin_keys h sec = ["0"] ->
         get h sec "0" = Ok req ->
         object_keys h req = Ok (n :: rest) ->
         n <> "" ->
         get h openApi "securityDefinitions" = Ok defs ->
         truthy defs = true ->
         get h defs n = Ok sd ->
         get h sd "type" = Ok (VStr t) ->
         Str.toLowerCase t = "basic" ->
         get h sd "scheme" = Ok sch ->
         (not_nullish sch = false \/ exists s, sch = VStr s) ->
         getHeadersArray h openApi path method = Ok (fst c ++ [basicAuthHeader])
         /\ filter (hasKey "authorization") (fst c ++ [basicAuthHeader])
            = [basicAuthHeader]).
Proof.
  split.
  - intros h openApi path method hs. unfold getHeadersArray.
    destruct (declaredHeaders h openApi path method) as [c|] eqn:Hc; simpl;
      [|discriminate].
    destruct (operation h openApi path method) as [pathObj|] eqn:Hop; simpl;
      [|discriminate].
    destruct (securityDefs h openApi pathObj) as [a|] eqn:Ha; simpl; [|discriminate].
    destruct (authHeader h a (snd c)) as [auth|] eqn:Hauth; simpl; [|discriminate].
    intros [= <-]. exists c, pathObj, a, auth.
    do 4 (split; [auto|]).
    assert (Hnames : exists pl ol ps os,
               pathParameters openApi path h = Ok pl
               /\ operationParameters openApi path method h = Ok ol
               /\ headerEntries h openApi pl = Ok ps
               /\ headerEntries h openApi ol = Ok os
               /\ forall k, In k (snd c) <-> In k (List.map key (ps ++ os))).
    { destruct (declaredHeaders_merged _ _ _ _ _ Hc)
        as (hs0 & pl & ol & ps & os & _ & Hpl & Hol & Hps & Hos & ->).
      exists pl, ol, ps, os. do 4 (split; [assumption|]).
      intros k. apply recorded_names. }
    destruct (authHeader_cases _ _ _ _ Hauth) as [->|[e [-> He]]].
    + split; [simpl; lia|]. split; [intros e []|]. split; [exact Hnames|].
      now apply authHeader_order.
    + split; [simpl; lia|]. split; [intros x [<-|[]]; assumption|].
      split; [exact Hnames|].
      now apply authHeader_order.
  - intros h openApi path method c pathObj sec req n rest defs sd t sch
      Hc Hfree Hop Hsec Hkeys Hreq Hreqkeys Hn Hdefs Htruthy Hsd Hty Hbasic Hsch Hscheme.
    assert (Hdefs' : securityDefs h openApi pathObj
                     = Ok (mkAuth (VStr n) VUndef VUndef)).
    { unfold securityDefs. rewrite Hsec. simpl.
      assert (Hd : defined sec = true).
      { destruct sec; try reflexivity. discriminate. }
      rewrite Hd. unfold rforIn. rewrite Hkeys. simpl.
      unfold securityStepOperation. rewrite Hreq. simpl.
      unfold schemeOf. rewrite Hreqkeys. simpl. rewrite Hdefs. simpl.
      rewrite Htruthy, toStr_str, Hsd. simpl.
      rewrite Hty. simpl. rewrite Hbasic, Hsch. simpl.
      destruct Hscheme as [Hnull|[s ->]].
      - rewrite Hnull. reflexivity.
      - reflexivity. }
    assert (Hauth : authHeader h (mkAuth (VStr n) VUndef VUndef) (snd c)
                    = Ok [basicAuthHeader]).
    { unfold authHeader. simpl.
      apply String.eqb_neq in Hn. rewrite Hn. simpl.
      apply mem_false in Hfree. rewrite Hfree. reflexivity. }
    split.
    + unfold getHeadersArray. rewrite Hc. simpl. rewrite Hop. simpl.
      rewrite Hdefs'. simpl. rewrite Hauth. reflexivity.
    + rewrite filter_app.
      destruct (declaredHeaders_merged _ _ _ _ _ Hc)
        as (hs0 & pl & ol & ps & os & Hmedia & _ & _ & _ & _ & ->).
      rewrite declared_not_named; auto; discriminate.
Qed.

Lemma auth_header_at_most_one_in_order_witness :
  getHeadersArray (heap_of (snd (parse docSecurityOperation)))
    (fst (parse docSecurityOperation)) "/pets" "get"
  = Ok ([] ++ [basicAuthHeader])
  /\ filter (hasKey "authorization") ([] ++ [basicAuthHeader]) = [basicAuthHeader].
Proof.
  eapply (proj2 auth_header_at_most_one_in_order
            (heap_of (snd (parse docSecurityOperation)))
            (fst (parse docSecurityOperation)) "/pets" "get" ([], [])).
  - reflexivity.
  - simpl. tauto.
  - reflexivity.
  - reflexivity.
  - reflexivity.
  - reflexivity.
  - reflexivity.
  - discriminate.
  - reflexivity.
  - reflexivity.
  - reflexivity.
  - reflexivity.
  - reflexivity.
  - reflexivity.
  - left. reflexivity.
Defined.

Lemma auth_header_parts (h : heap) (openApi : val) (path method : string)
  (hs : list entry) :
  getHeadersArray h openApi path method = Ok hs ->
  exists c auth,
    declaredHeaders h openApi path method = Ok c
    /\ hs = fst c ++ auth
    /\ (auth = [] \/ exists e, auth = [e] /\ ~ In (key e) (snd c)).
Proof.
  unfold getHeadersArray.
  destruct (declaredHeaders h openApi path method) as [c|] eqn:Hc; simpl;
    [|discriminate].
  destruct (operation h openApi path method) as [pathObj|]; simpl; [|discriminate].
  destruct (securityDefs h openApi pathObj) as [a|]; simpl; [|discriminate].
  destruct (authHeader h a (snd c)) as [auth|] eqn:Hauth; simpl; [|discriminate].
  intros [= <-]. exists c, auth. repeat split.
  now apply authHeader_cases in Hauth.
Qed.

(* ------------------------------------------------------------------ *)
(** ** Names in queryString and headers *)
(* ------------------------------------------------------------------ *)

Lemma queryLevel_entries (push : entry -> collected -> collected)
  (openApi values : val) (parameters : heap -> res val) (c : collected) (s : state) :
  queryLevel push openApi values parameters c s
  = match queryEntries openApi values parameters s with
    | (Ok es, s') => (Ok (fold_left (fun c e => push e c) es c), s')
    | (Err e, s') => (Err e, s')
    end.
Proof.
  unfold queryLevel, queryEntries, bind, lift.
  destruct (parameters (heap_of s)) as [ps|e]; [|reflexivity].
  destruct (defined ps) eqn:Hd.
  - unfold forIn. apply foldM_queryStep.
  - destruct ps; try discriminate. reflexivity.
Qed.

Lemma otherThan_nil (es : list entry) : filter (otherThan []) es = es.
Proof.
  induction es as [|e es IH]; simpl; [reflexivity|]. now rewrite IH.
Qed.

Lemma other_entries_recorded (hs0 ps : list entry) (c : collected) (x : entry) :
  Collected hs0 ps c ->
  In x (filter (otherThan hs0) (fst c)) -> In (key x) (snd c).
Proof.
  intros (Hin & _ & _) Hx. apply filter_In in Hx as [Hx Hother].
  destruct (Hin x Hx) as [?|Hx0]; [assumption|].
  rewrite (otherThan_own _ _ Hx0) in Hother. discriminate.
Qed.

(** [queryString] is the merge of the entries of the two parameter
    lists, the operation-level list read after the path-level loop. *)
Lemma getQueryStrings_merged (openApi : val) (path method : string) (values : val)
  (s : state) (qs : list entry) (s' : state) :
  getQueryStrings openApi path method values s = (Ok qs, s') ->
  exists ps os s1,
    queryEntries openApi (if defined values then values else VNew)
      (pathParameters openApi path) s = (Ok ps, s1)
    /\ queryEntries openApi (if defined values then values else VNew)
         (operationParameters openApi path method) s1 = (Ok os, s')
    /\ qs = fst (merged [] ps os).
Proof.
  unfold getQueryStrings, queryCollect, bind.
  set (values' := if defined values then values else VNew).
  rewrite queryLevel_entries.
  destruct (queryEntries openApi values' (pathParameters openApi path) s)
    as [[ps|e] s1] eqn:Hps; [|discriminate].
  rewrite queryLevel_entries.
  destruct (queryEntries openApi values' (operationParameters openApi path method) s1)
    as [[os|e] s2] eqn:Hos; [|discriminate].
  unfold ret. intros [= <- <-].
  exists ps, os, s1. auto.
Qed.

(** C2, as the specification states it, fails: an operation that
    consumes two media types gets two [accept] headers, and two query
    parameters of the path item whose names differ in case only are both
    in [queryString]. *)
Lemma names_repeat :
  (let '(d, s) := parse docConsumes in
   exists hs,
     getHeadersArray (heap_of s) d "/pets" "get" = Ok hs
     /\ ~ NoDup (List.map key hs))
  /\ (let '(d, s) := parse docQueryCase in
      exists qs,
        getQueryStrings d "/pets" "get" VUndef s = (Ok qs, s)
        /\ ~ NoDup (List.map key qs)).
Proof.
  split; vm_compute; eexists; (split; [reflexivity|]);
    intros H; inversion H as [|? ? Hnotin _]; apply Hnotin; now left.
Qed.

(** C2, amended.  [queryString] and [headers] are the merge ([merged]) of
    the entries of the path-level parameters with those of the
    operation-level parameters: an operation-level entry whose name
    (without regard to case) a parameter has had before it removes the
    entries of that name and is appended.  So when a path-level and an
    operation-level parameter share a name, the entry of the last such
    operation-level parameter is the only entry of that name.  Names are
    unique in [queryString] if the names of the path-level query
    parameters are; in [headers] the same holds apart from the names of
    the accept and content-type headers, which are pushed once for each
    media type. *)
Theorem operation_level_entry_replaces_path_level :
  (forall openApi path method values s qs s',
      getQueryStrings openApi path method values s = (Ok qs, s') ->
      exists ps os s1,
        queryEntries openApi (if defined values then values else VNew)
          (pathParameters openApi path) s = (Ok ps, s1)
        /\ queryEntries openApi (if defined values then values else VNew)
             (operationParameters openApi path method) s1 = (Ok os, s')
        /\ qs = fst (merged [] ps os)
        /\ (NoDup (List.map key ps) -> NoDup (List.map key qs))
        /\ (forall k, In k (List.map key os) ->
                      exists o, lastWithKey k os = Some o
                                /\ filter (hasKey k) qs = [o]))
  /\ (forall h openApi path method hs,
         getHeadersArray h openApi path method = Ok hs ->
         exists hs0 pl ol ps os auth,
           Forall mediaHeader hs0
           /\ pathParameters openApi path h = Ok pl
           /\ operationParameters openApi path method h = Ok ol
           /\ headerEntries h openApi pl = Ok ps
           /\ headerEntries h openApi ol = Ok os
           /\ hs = fst (merged hs0 ps os) ++ auth
           /\ (NoDup (List.map key ps) ->
               NoDup (List.map key (filter (otherThan hs0) hs)))
           /\ (forall k, In k (List.map key ps) -> In k (List.map key os) ->
                         exists o, lastWithKey k os = Some o
                                   /\ filter (hasKey k) hs = [o])).
Proof.
  split.
  - intros openApi path method values s qs s' Hrun.
    destruct (getQueryStrings_merged _ _ _ _ _ _ _ Hrun)
      as (ps & os & s1 & Hps & Hos & ->).
    exists ps, os, s1. do 3 (split; [auto|]).
    fold (merged [] ps os).
    pose proof (collected_merged [] ps os) as Hc.
    split.
    + intros Hnd. destruct Hc as (_ & _ & Hc). specialize (Hc Hnd).
      now rewrite otherThan_nil in Hc.
    + intros k Hk. unfold merged.
      apply (operation_level_wins [] ps k); auto using collected_path.
  - intros h openApi path method hs Hrun.
    destruct (auth_header_parts h openApi path method hs Hrun)
      as (c & auth & Hc & -> & Hauth).
    destruct (declaredHeaders_merged _ _ _ _ _ Hc)
      as (hs0 & pl & ol & ps & os & Hmedia & Hpl & Hol & Hps & Hos & ->).
    exists hs0, pl, ol, ps, os, auth. do 6 (split; [auto|]).
    pose proof (collected_merged hs0 ps os) as Hcol.
    split.
    + intros Hnd. rewrite filter_app.
      destruct Hcol as (H1 & H2 & H3). specialize (H3 Hnd).
      destruct Hauth as [->|[e [-> He]]]; simpl; [now rewrite app_nil_r|].
      destruct (otherThan hs0 e); [|now rewrite app_nil_r].
      apply NoDup_keys_snoc; [assumption|].
      intros Hk. apply in_map_iff in Hk as [x [Hkey Hx]].
      apply He. rewrite <- Hkey.
      apply (other_entries_recorded hs0 ps); [repeat split; auto|assumption].
    + intros k Hkp Hko.
      destruct (operation_level_wins hs0 ps k (or_introl Hkp) os _
                  (collected_path hs0 ps) Hko) as [o [Hlast Hfilter]].
      exists o. split; [assumption|].
      rewrite filter_app. fold (merged hs0 ps os) in Hfilter. rewrite Hfilter.
      destruct Hauth as [->|[e [-> He]]]; simpl; [reflexivity|].
      unfold hasKey at 1.
      destruct (String.eqb (key e) k) eqn:E; [|reflexivity].
      apply String.eqb_eq in E. exfalso. apply He. rewrite E.
      destruct Hcol as (_ & H2 & _). auto.
Qed.

Lemma operation_level_entry_replaces_path_level_witness :
  (exists qs s' o,
      getQueryStrings (fst (parse docOverride)) "/pets" "get" VUndef
        (snd (parse docOverride)) = (Ok qs, s')
      /\ NoDup (List.map key qs)
      /\ filter (hasKey "limit") qs = [o])
  /\ (exists hs o,
         getHeadersArray (heap_of (snd (parse docOverride))) (fst (parse docOverride))
           "/pets" "get" = Ok hs
         /\ filter (hasKey "x-token") hs = [o]).
Proof.
  split.
  - assert (Hrun : getQueryStrings (fst (parse docOverride)) "/pets" "get" VUndef
                     (snd (parse docOverride))
                   = (Ok [mkEntry "limit" (VStr "SOME_STRING_VALUE")],
                      snd (parse docOverride))) by reflexivity.
    destruct (proj1 operation_level_entry_replaces_path_level _ _ _ _ _ _ _ Hrun)
      as (ps & os & s1 & Hps & Hos & _ & Hnd & Hwin).
    vm_compute in Hps. injection Hps as <- <-.
    vm_compute in Hos. injection Hos as <-.
    destruct (Hwin "limit") as [o [_ Ho]]; [now left|].
    eexists _, _, o. split; [exact Hrun|]. split; [|exact Ho].
    apply Hnd. repeat constructor. simpl. tauto.
  - assert (Hrun : getHeadersArray (heap_of (snd (parse docOverride)))
                     (fst (parse docOverride)) "/pets" "get"
                   = Ok [mkEntry "x-token" (VStr "SOME_INTEGER_VALUE")]) by reflexivity.
    destruct (proj2 operation_level_entry_replaces_path_level _ _ _ _ _ Hrun)
      as (hs0 & pl & ol & ps & os & auth & _ & Hpl & Hol & Hps & Hos & _ & _ & Hwin).
    vm_compute in Hpl. injection Hpl as <-.
    vm_compute in Hol. injection Hol as <-.
    vm_compute in Hps. injection Hps as <-.
    vm_compute in Hos. injection Hos as <-.
    destruct (Hwin "x-token") as [o [_ Ho]]; [now left|now left|].
    eexists _, o. split; [exact Hrun|exact Ho].
Defined.

(* ------------------------------------------------------------------ *)
(** ** The value of a query parameter *)
(* ------------------------------------------------------------------ *)

Lemma placeholder_type (h : heap) (param : val) (ph : string) :
  placeholder h param = Ok ph ->
  exists t, placeholderType h param t
            /\ ph = "SOME_" +++ Str.toUpperCase t +++ "_VALUE".
Proof.
  unfold placeholder, typeOrSchemaType, placeholderType. intros H.
  destruct (get h param "type") as [t0|] eqn:Ht; simpl in H; [|discriminate].
  rewrite (get_field _ _ _ _ Ht).
  destruct (truthy t0) eqn:Htruthy; simpl in H.
  - destruct t0; simpl in H; try discriminate. injection H as <-.
    exists s. split; [|reflexivity]. left. split; [reflexivity|].
    simpl in Htruthy. apply negb_true_iff in Htruthy. now apply String.eqb_neq.
  - destruct (get h param "schema") as [sch|] eqn:Hsch; simpl in H; [|discriminate].
    rewrite (get_field _ _ _ _ Hsch).
    destruct (get h sch "type") as [t1|] eqn:Ht1; simpl in H; [|discriminate].
    rewrite (get_field _ _ _ _ Ht1).
    destruct t1; simpl in H; try discriminate. injection H as <-.
    exists s. split; [|reflexivity]. now right.
Qed.



Lemma merged_entries (hs0 ps os : list entry) (e : entry) :
  In e (fst (merged hs0 ps os)) -> In e hs0 \/ In e ps \/ In e os.
Proof.
  unfold merged. rewrite pushPathLevel_all. simpl.
  assert (Hgen : forall c,
             In e (fst (fold_left (fun c e => pushOperationLevel e c) os c)) ->
             In e (fst c) \/ In e os).
  { induction os as [|o os IH]; simpl; intros c H; [now left|].
    destruct (IH _ H) as [Hc|Hos]; [|now right; right].
    unfold pushOperationLevel in Hc.
    destruct (mem (key o) (snd c)); simpl in Hc;
      apply in_app_or in Hc as [Hc|[<-|[]]]; auto.
    apply In_remove_key in Hc as [Hc _]. now left. }
  intros H. destruct (Hgen _ H) as [Hc|Hos]; [|auto].
  simpl in Hc. apply in_app_or in Hc as [?|?]; auto.
Qed.










(* ------------------------------------------------------------------ *)
(** ** Parameters without a type *)
(* ------------------------------------------------------------------ *)

Lemma lacksType_placeholder (h : heap) (param : val) :
  lacksType h param -> placeholder h param = Err TypeError.
Proof.
  unfold lacksType, placeholder, typeOrSchemaType. intros [Hty Hsty].
  destruct (get h param "type") as [t0|e] eqn:Ht; simpl.
  - rewrite (get_field _ _ _ _ Ht) in Hty. subst t0. simpl.
    destruct (get h param "schema") as [sch|e] eqn:Hsch; simpl.
    + rewrite (get_field _ _ _ _ Hsch) in Hsty.
      destruct (get h sch "type") as [t1|e] eqn:Ht1; simpl.
      * rewrite (get_field _ _ _ _ Ht1) in Hsty. now subst t1.
      * now apply get_raises in Ht1 as [_ ->].
    + now apply get_raises in Hsch as [_ ->].
  - now apply get_raises in Ht as [_ ->].
Qed.

Lemma placeholder_has_type (h : heap) (param : val) (ph : string) :
  placeholder h param = Ok ph -> ~ lacksType h param.
Proof.
  intros Hph Hlacks. rewrite (lacksType_placeholder _ _ Hlacks) in Hph. discriminate.
Qed.

Lemma lacksType_headerEntry (h : heap) (param : val) :
  lacksType h param -> headerEntry h param = Err TypeError.
Proof.
  intros Hlacks. unfold headerEntry.
  destruct (get h param "name") as [name|e] eqn:Hname; simpl.
  - now rewrite lacksType_placeholder.
  - now apply get_raises in Hname as [_ ->].
Qed.

Lemma lacksType_queryEntry (h : heap) (values param : val) :
  lacksType h param -> queryEntry h values param = Err TypeError.
Proof.
  intros Hlacks. unfold queryEntry, queryValue.
  now rewrite lacksType_placeholder.
Qed.

Lemma foldM_app {A} (body : string -> A -> M A) (ks1 ks2 : list string) :
  forall a s,
    foldM body (ks1 ++ ks2) a s
    = match foldM body ks1 a s with
      | (Ok a1, s1) => foldM body ks2 a1 s1
      | (Err e, s1) => (Err e, s1)
      end.
Proof.
  induction ks1 as [|k ks1 IH]; simpl; intros a s; [reflexivity|].
  unfold bind. destruct (body k a s) as [[a1|e] s1]; [apply IH|reflexivity].
Qed.

Lemma forin_keys_defined (h : heap) (v : val) (k : string) :
  In k (forin_keys h v) -> defined v = true.
Proof. destruct v; simpl; tauto. Qed.

(** A header parameter without a type makes [getHeadersArray] raise. *)
Lemma headerLoop_raises (push : entry -> collected -> collected)
  (h : heap) (openApi parameters : val) (k : string) (raw param : val) :
  In k (forin_keys h parameters) ->
  get h parameters k = Ok raw ->
  derefParam h openApi raw = Ok param ->
  in_is h param "header" = Ok true ->
  lacksType h param ->
  forall c, exists e,
    rforIn h parameters (headerStep push h openApi parameters) c = Err e.
Proof.
  intros Hk Hraw Hparam Hin Hlacks. unfold rforIn.
  apply (rfold_raises _ _ k Hk). intros c. exists TypeError.
  unfold headerStep, headerParam. rewrite Hraw. simpl. rewrite Hparam. simpl.
  rewrite Hin. simpl. now rewrite lacksType_headerEntry.
Qed.

Lemma rbind_raises {A B} (r : res A) (k : A -> res B) :
  (forall a, r = Ok a -> exists e, k a = Err e) ->
  exists e, rbind r k = Err e.
Proof.
  intros H. destruct r as [a|e]; simpl; [|eauto]. now apply H.
Qed.

Lemma getHeadersArray_untyped (h : heap) (openApi : val) (path method : string)
  (parameters : val) (k : string) (raw param : val) :
  pathParameters openApi path h = Ok parameters
  \/ operationParameters openApi path method h = Ok parameters ->
  In k (forin_keys h parameters) ->
  get h parameters k = Ok raw ->
  derefParam h openApi raw = Ok param ->
  in_is h param "header" = Ok true ->
  lacksType h param ->
  exists e, getHeadersArray h openApi path method = Err e.
Proof.
  intros Hlist Hk Hraw Hparam Hin Hlacks.
  pose proof (forin_keys_defined _ _ _ Hk) as Hdef.
  unfold getHeadersArray. apply rbind_raises. intros c Hc. exfalso.
  revert Hc. unfold declaredHeaders, headerParams.
  unfold pathParameters, operationParameters in Hlist.
  destruct (operation h openApi path method) as [pathObj|] eqn:Hop; simpl;
    [|discriminate].
  destruct (mediaHeaders h openApi pathObj "consumes" "accept" []) as [hs1|];
    simpl; [|discriminate].
  destruct (mediaHeaders h openApi pathObj "produces" "content-type" hs1) as [hs2|];
    simpl; [|discriminate].
  destruct (contentHeaders h pathObj hs2) as [hs0|]; simpl; [|discriminate].
  destruct (pathItem h openApi path) as [item|] eqn:Hitem; simpl; [|discriminate].
  simpl in Hlist.
  destruct (get h item "parameters") as [pl|] eqn:Hpl; simpl; [|discriminate].
  destruct Hlist as [Hlist|Hlist].
  - injection Hlist as ->. rewrite Hdef.
    destruct (headerLoop_raises pushPathLevel _ _ _ _ _ _ Hk Hraw Hparam Hin Hlacks
                (hs0, [])) as [e ->].
    discriminate.
  - match goal with
    | |- context [rbind ?r _] => destruct r as [c1|]; simpl; [|discriminate]
    end.
    rewrite Hlist. simpl. rewrite Hdef.
    destruct (headerLoop_raises pushOperationLevel _ _ _ _ _ _ Hk Hraw Hparam Hin
                Hlacks c1) as [e ->].
    discriminate.
Qed.

Section Calls.

Variable sampler : heap -> val -> val -> res (option json).
Variable stringify : option json -> val.

(** [createHar] raises when building the headers raises, and when
    building the query strings raises: nothing before them writes to the
    document. *)
Lemma createHar_headers_raise (openApi : val) (path method : string) (values : val)
  (s : state) (e : exn) :
  getHeadersArray (heap_of s) openApi path method = Err e ->
  raises (createHar sampler stringify openApi path method values s).
Proof.
  intros Hhs. unfold raises, createHar, bind, lift.
  destruct (getBaseUrl (heap_of s) openApi); simpl; [|eauto].
  destruct (getFullPath (heap_of s) openApi path method); simpl; [|eauto].
  rewrite Hhs. simpl. eauto.
Qed.

Lemma createHar_query_raises (openApi : val) (path method : string) (values : val)
  (s s' : state) (e : exn) :
  getQueryStrings openApi path method (if defined values then values else VNew) s
  = (Err e, s') ->
  raises (createHar sampler stringify openApi path method values s).
Proof.
  intros Hqs. unfold raises, createHar, bind, lift.
  destruct (getBaseUrl (heap_of s) openApi); simpl; [|eauto].
  destruct (getFullPath (heap_of s) openApi path method); simpl; [|eauto].
  destruct (getHeadersArray (heap_of s) openApi path method); simpl; [|eauto].
  rewrite Hqs. simpl. eauto.
Qed.

End Calls.

Lemma queryLevel_untyped (push : entry -> collected -> collected)
  (openApi values : val) (parameters : heap -> res val) (c : collected)
  (s : state) (param : val) (s2 : state) :
  queryLoopReaches push openApi values parameters c s param s2 ->
  in_is (heap_of s2) param "query" = Ok true ->
  lacksType (heap_of s2) param ->
  queryLevel push openApi values parameters c s = (Err TypeError, s2).
Proof.
  intros (ps & ks1 & k & ks2 & c1 & s1 & ps1 & raw
          & Hps & Hkeys & Hloop & Hps1 & Hraw & Hprep) Hin Hlacks.
  unfold queryLevel, bind, lift. rewrite Hps.
  assert (Hdef : defined ps = true).
  { apply (forin_keys_defined (heap_of s) ps k). rewrite Hkeys.
    apply in_or_app. right. now left. }
  rewrite Hdef. unfold forIn. rewrite Hkeys, foldM_app, Hloop. simpl.
  unfold bind, queryStep, queryParam, bind, lift.
  rewrite Hps1, Hraw, Hprep, Hin. now rewrite lacksType_queryEntry.
Qed.

Lemma values_or_empty (values : val) :
  (if defined (if defined values then values else VNew)
   then (if defined values then values else VNew) else VNew)
  = (if defined values then values else VNew).
Proof. destruct values; reflexivity. Qed.

(** C10: a placeholder needs a type.  If a value is produced for a
    parameter, [param.type] or [param.schema.type] is defined where the
    loop reads them.  If both are absent, the entry of an [in: header] and
    of an [in: query] parameter raises a TypeError, the latter whatever
    values the caller has supplied, and [createHar] raises: for a header
    parameter of either list, and for a query parameter that the loop over
    the path-level list or the loop over the operation-level list comes
    to. *)
Theorem untyped_parameter_raises :
  (forall h param ph, placeholder h param = Ok ph -> ~ lacksType h param)
  /\ (forall h values param,
         lacksType h param ->
         headerEntry h param = Err TypeError
         /\ queryEntry h values param = Err TypeError)
  /\ (forall sampler stringify openApi path method values s parameters k raw param,
         pathParameters openApi path (heap_of s) = Ok parameters
         \/ operationParameters openApi path method (heap_of s) = Ok parameters ->
         In k (forin_keys (heap_of s) parameters) ->
         get (heap_of s) parameters k = Ok raw ->
         derefParam (heap_of s) openApi raw = Ok param ->
         in_is (heap_of s) param "header" = Ok true ->
         lacksType (heap_of s) param ->
         raises (createHar sampler stringify openApi path method values s))
  /\ (forall sampler stringify openApi path method values s param s2,
         queryLoopReaches pushPathLevel openApi
           (if defined values then values else VNew)
           (pathParameters openApi path) ([], []) s param s2 ->
         in_is (heap_of s2) param "query" = Ok true ->
         lacksType (heap_of s2) param ->
         raises (createHar sampler stringify openApi path method values s))
  /\ (forall sampler stringify openApi path method values s c s0 param s2,
         queryLevel pushPathLevel openApi (if defined values then values else VNew)
           (pathParameters openApi path) ([], []) s = (Ok c, s0) ->
         queryLoopReaches pushOperationLevel openApi
           (if defined values then values else VNew)
           (operationParameters openApi path method) c s0 param s2 ->
         in_is (heap_of s2) param "query" = Ok true ->
         lacksType (heap_of s2) param ->
         raises (createHar sampler stringify openApi path method values s)).
Proof.
  split; [exact placeholder_has_type|].
  split; [intros; split;
          [now apply lacksType_headerEntry|now apply lacksType_queryEntry]|].
  split; [|split].
  - intros sampler stringify openApi path method values s parameters k raw param
      Hlist Hk Hraw Hparam Hin Hlacks.
    destruct (getHeadersArray_untyped _ _ path method _ _ _ _ Hlist Hk Hraw Hparam
                Hin Hlacks) as [e He].
    now apply (createHar_headers_raise _ _ _ _ _ _ _ e).
  - intros sampler stringify openApi path method values s param s2 Hreach Hin Hlacks.
    apply (createHar_query_raises _ _ _ _ _ _ _ s2 TypeError).
    unfold getQueryStrings, queryCollect, bind. rewrite values_or_empty.
    now rewrite (queryLevel_untyped _ _ _ _ _ _ _ _ Hreach Hin Hlacks).
  - intros sampler stringify openApi path method values s c s0 param s2
      Hpath Hreach Hin Hlacks.
    apply (createHar_query_raises _ _ _ _ _ _ _ s2 TypeError).
    unfold getQueryStrings, queryCollect, bind. rewrite values_or_empty.
    rewrite Hpath.
    now rewrite (queryLevel_untyped _ _ _ _ _ _ _ _ Hreach Hin Hlacks).
Qed.

Lemma untyped_parameter_raises_witness :
  ~ lacksType (heap_of (snd (parse docQueryValues))) (VObj 139)
  /\ (headerEntry (heap_of (snd (parse docUntypedHeader))) (VObj 136) = Err TypeError
      /\ queryEntry (heap_of (snd (parseWith docUntypedQuery limitFive)))
           (VObj 142) (VObj 136) = Err TypeError)
  /\ raises (createHar constSampler constStringify (fst (parse docUntypedHeader))
               "/pets" "get" VUndef (snd (parse docUntypedHeader)))
  /\ raises (createHar constSampler constStringify (VObj 141) "/pets" "get" (VObj 142)
               (snd (parseWith docUntypedPathQuery limitFive)))
  /\ raises (createHar constSampler constStringify (VObj 141) "/pets" "get" (VObj 142)
               (snd (parseWith docUntypedQuery limitFive))).
Proof.
  destruct untyped_parameter_raises as (H1 & H2 & H3 & H4 & H5).
  split; [|split; [|split; [|split]]].
  - apply (H1 _ _ "SOME_STRING_VALUE"). reflexivity.
  - split.
    + apply (H2 _ VUndef). split; reflexivity.
    + apply H2. split; reflexivity.
  - apply (H3 _ _ _ _ _ _ _ (VObj 137) "0" (VObj 136) (VObj 136)).
    + right. reflexivity.
    + now left.
    + reflexivity.
    + reflexivity.
    + reflexivity.
    + split; reflexivity.
  - apply (H4 _ _ _ _ _ _ _ (VObj 136) (snd (parseWith docUntypedPathQuery limitFive))).
    + exists (VObj 137), [], "0", [], ([], []),
        (snd (parseWith docUntypedPathQuery limitFive)), (VObj 137), (VObj 136).
      repeat split; reflexivity.
    + reflexivity.
    + split; reflexivity.
  - apply (H5 _ _ _ _ _ _ _ ([], []) (snd (parseWith docUntypedQuery limitFive))
             (VObj 136) (snd (parseWith docUntypedQuery limitFive))).
    + reflexivity.
    + exists (VObj 137), [], "0", [], ([], []),
        (snd (parseWith docUntypedQuery limitFive)), (VObj 137), (VObj 136).
      repeat split; reflexivity.
    + reflexivity.
    + split; reflexivity.
Defined.

(* ------------------------------------------------------------------ *)
(** ** The list of all operations *)
(* ------------------------------------------------------------------ *)

Section HarList.

Variable sampler : heap -> val -> val -> res (option json).
Variable stringify : option json -> val.

Lemma harList_methods (openApi baseUrl : val) (path : string) (methods : list string) :
  forall harList harList' s s',
    foldM (harListStep sampler stringify openApi baseUrl path) methods harList s
    = (Ok harList', s') ->
    exists items,
      harList' = harList ++ items
      /\ itemsFrom sampler stringify openApi baseUrl path methods s items s'.
Proof.
  induction methods as [|m ms IH]; simpl; intros harList harList' s s' Hrun.
  - injection Hrun as <- <-. exists []. rewrite app_nil_r. auto.
  - unfold bind at 1 in Hrun. unfold harListStep at 1 in Hrun.
    unfold bind, lift, ret in Hrun. simpl in Hrun.
    destruct (createHar sampler stringify openApi path m VUndef s)
      as [[r|] s1] eqn:Hhar; [|discriminate].
    destruct (operation (heap_of s1) openApi path m) as [op|] eqn:Hop;
      simpl in Hrun; [|discriminate].
    destruct (get (heap_of s1) op "description") as [d|] eqn:Hd; simpl in Hrun;
      [|discriminate].
    destruct (IH _ _ _ _ Hrun) as [rest [-> Hrest]].
    eexists. rewrite <- app_assoc. split; [reflexivity|].
    exists r, s1, op, d, rest. auto.
Qed.

Lemma harList_paths (openApi baseUrl : val) (paths : list string) :
  forall harList harList' s s',
    foldM (harListPath sampler stringify openApi baseUrl) paths harList s
    = (Ok harList', s') ->
    exists items,
      harList' = harList ++ items
      /\ itemsOfPaths sampler stringify openApi baseUrl paths s items s'.
Proof.
  induction paths as [|p ps IH]; simpl; intros harList harList' s s' Hrun.
  - injection Hrun as <- <-. exists []. rewrite app_nil_r. auto.
  - unfold bind at 1 in Hrun. unfold harListPath at 1 in Hrun.
    unfold bind, lift in Hrun.
    destruct (pathItem (heap_of s) openApi p) as [item|] eqn:Hitem; [|discriminate].
    unfold forIn in Hrun.
    destruct (foldM (harListStep sampler stringify openApi baseUrl p)
                (forin_keys (heap_of s) item) harList s) as [[l1|] s1] eqn:Hms;
      [|discriminate].
    destruct (harList_methods _ _ _ _ _ _ _ _ Hms) as [its [-> Hits]].
    destruct (IH _ _ _ _ Hrun) as [rest [-> Hrest]].
    exists (its ++ rest). rewrite <- app_assoc. split; [reflexivity|].
    exists item, its, s1, rest. auto.
Qed.

End HarList.

(** C8, as the specification states it, fails.  A path item with
    [parameters] and one operation gives two items, one of them for the
    key [parameters]; and an operation whose description is the empty
    string, which is defined, gets the fallback text. *)
Lemma one_item_per_key_not_per_operation :
  (exists items s',
      openApiToHarList constSampler constStringify (fst (parse docOverride))
        (snd (parse docOverride)) = (Ok (Some items), s')
      /\ List.map item_method items = ["PARAMETERS"; "GET"])
  /\ (exists items s' op,
         openApiToHarList constSampler constStringify (fst (parse docThreeOperations))
           (snd (parse docThreeOperations)) = (Ok (Some items), s')
         /\ operation (heap_of s') (fst (parse docThreeOperations)) "/owners" "get"
            = Ok op
         /\ get (heap_of s') op "description" = Ok (VStr "")
         /\ List.map item_description items
            = [VStr "List pets"; VStr "No description available";
               VStr "No description available"]).
Proof.
  split.
  - eexists _, _. split; [vm_compute; reflexivity|reflexivity].
  - eexists _, _, _. split; [vm_compute; reflexivity|].
    split; [vm_compute; reflexivity|]. split; [vm_compute; reflexivity|reflexivity].
Qed.

(** C8, amended: [openApiToHarList] visits every path and every key of
    its path item, whatever the key is, and makes exactly one item for
    each, in order: the key in upper case, the base URL followed by the
    path, the result of [createHar] called without values in the state
    that the items before have left, and the description read after that
    call, or the text [No description available] when the description is
    not truthy.  Whenever anything raises on the way, the exception is
    logged and the result is [undefined], for the whole list; the call
    itself never raises. *)
Theorem openApiToHarList_one_item_per_operation :
  (forall sampler stringify openApi s,
      match harListBody sampler stringify openApi s with
      | (Ok harList, s') =>
          openApiToHarList sampler stringify openApi s = (Ok (Some harList), s')
      | (Err e, s') =>
          openApiToHarList sampler stringify openApi s
          = (Ok None, mkState (heap_of s') (log_of s' ++ [e]))
      end)
  /\ (forall sampler stringify openApi s harList s',
         openApiToHarList sampler stringify openApi s = (Ok (Some harList), s') ->
         exists baseUrl paths,
           getBaseUrl (heap_of s) openApi = Ok baseUrl
           /\ get (heap_of s) openApi "paths" = Ok paths
           /\ itemsOfPaths sampler stringify openApi baseUrl
                (forin_keys (heap_of s) paths) s harList s').
Proof.
  split.
  - intros sampler stringify openApi s.
    unfold openApiToHarList, try_catch, bind.
    destruct (harListBody sampler stringify openApi s) as [[l|e] s']; reflexivity.
  - intros sampler stringify openApi s harList s'.
    unfold openApiToHarList, try_catch. unfold bind at 1.
    destruct (harListBody sampler stringify openApi s) as [[l|e] s1] eqn:Hbody;
      [|discriminate].
    unfold ret. intros [= <- <-].
    unfold harListBody, bind, lift in Hbody.
    destruct (getBaseUrl (heap_of s) openApi) as [baseUrl|] eqn:Hbase; [|discriminate].
    destruct (get (heap_of s) openApi "paths") as [paths|] eqn:Hpaths; [|discriminate].
    unfold forIn in Hbody.
    destruct (harList_paths _ _ _ _ _ _ _ _ _ Hbody) as [items [-> Hitems]].
    exists baseUrl, paths. auto.
Qed.

Lemma openApiToHarList_one_item_per_operation_witness :
  exists harList s',
    openApiToHarList constSampler constStringify (fst (parse docThreeOperations))
      (snd (parse docThreeOperations)) = (Ok (Some harList), s')
    /\ List.map item_method harList = ["GET"; "POST"; "GET"]
    /\ exists baseUrl paths,
         getBaseUrl (heap_of (snd (parse docThreeOperations)))
           (fst (parse docThreeOperations)) = Ok baseUrl
         /\ get (heap_of (snd (parse docThreeOperations)))
              (fst (parse docThreeOperations)) "paths" = Ok paths
         /\ itemsOfPaths constSampler constStringify
              (fst (parse docThreeOperations)) baseUrl
              (forin_keys (heap_of (snd (parse docThreeOperations))) paths)
              (snd (parse docThreeOperations)) harList s'.
Proof.
  eexists _, _. split; [vm_compute; reflexivity|].
  split; [reflexivity|].
  eapply (proj2 openApiToHarList_one_item_per_operation constSampler constStringify).
  vm_compute. reflexivity.
Defined.

(** An exception of the sampler in one operation loses the whole list:
    the result is [undefined] and the exception is in the log. *)
Example openApiToHarList_sampler_raises :
  let '(d, s) := parse docRequestBody in
  openApiToHarList failingSampler constStringify d s
  = (Ok None, mkState (heap_of s) [SamplerError]).
Proof. vm_compute. reflexivity. Qed.

(** The URL of the example of the specification. *)
Example createHar_pet_by_id :
  let '(d, s) := parse docPetById in
  exists r, createHar constSampler constStringify d "/pets/{id}" "get" VUndef s
            = (Ok r, s)
            /\ url r = "http://api.example.com/v1/pets/42"
            /\ method r = "GET".
Proof. vm_compute. eexists. repeat split; reflexivity. Qed.

(* ------------------------------------------------------------------ *)
(** ** Reference strings and the walk through the document *)
(* ------------------------------------------------------------------ *)

Lemma recursive_walk (h : heap) (parts : list string) :
  parts <> [] -> forall o, recursive h o parts = walk h o parts.
Proof.
  induction parts as [|p rest IH]; intros Hne o; [contradiction|].
  destruct rest as [|q rest].
  - simpl. destruct (get h o p); reflexivity.
  - change (recursive h o (p :: q :: rest))
      with (let? o' := get h o p in recursive h o' (q :: rest)).
    simpl walk. destruct (get h o p) as [o'|]; simpl; [|reflexivity].
    apply IH. discriminate.
Qed.

Lemma append_empty_r (s : string) : s +++ EmptyString = s.
Proof. induction s as [|c s IH]; simpl; [reflexivity|]. now rewrite IH. Qed.

Lemma split_slash_pointer (segs : list string) :
  Forall (fun p => has_slash p = false) segs ->
  forall a, has_slash a = false ->
            Str.split_slash (a +++ pointer segs) = a :: segs.
Proof.
  induction segs as [|p rest IH]; simpl; intros Hall a Ha.
  - rewrite append_empty_r. now apply split_slash_no_slash.
  - inversion Hall as [|? ? Hp Hrest]; subst.
    rewrite (split_slash_segment a _ Ha). now rewrite IH.
Qed.

Lemma split_slash_cons (s : string) : exists p ps, Str.split_slash s = p :: ps.
Proof.
  induction s as [|c s (p & ps & IH)]; simpl; [eauto|].
  destruct (Ascii.eqb c "/"); [eauto|]. rewrite IH. eauto.
Qed.

Lemma split_slash_round_trip (s : string) :
  match Str.split_slash s with
  | [] => False
  | p :: ps => s = p +++ pointer ps /\ Forall (fun q => has_slash q = false) (p :: ps)
  end.
Proof.
  induction s as [|c s IH]; simpl.
  - split; [reflexivity|]. repeat constructor.
  - destruct (Ascii.eqb c "/") eqn:Hc.
    + destruct (Str.split_slash s) as [|p ps]; [contradiction|].
      destruct IH as [Hs Hall]. apply Ascii.eqb_eq in Hc. subst c.
      simpl. split; [now rewrite <- Hs|]. now constructor.
    + destruct (Str.split_slash s) as [|p ps]; [contradiction|].
      destruct IH as [Hs Hall]. simpl. split; [now rewrite <- Hs|].
      inversion Hall as [|? ? Hp Hps]; subst.
      constructor; [|assumption]. simpl. now rewrite Hc.
Qed.

Lemma split_slash_two (s : string) :
  has_slash s = true -> exists p q qs, Str.split_slash s = p :: q :: qs.
Proof.
  induction s as [|c s IH]; simpl; [discriminate|].
  destruct (Ascii.eqb c "/"); simpl.
  - intros _. destruct (split_slash_cons s) as (q & qs & ->). eauto.
  - intros Hs. destruct (IH Hs) as (p & q & qs & ->). eauto.
Qed.

(** X1: a reference [#/p1/.../pn] whose segments have no slash resolves
    to [openApi[p1]...[pn]], raising where a property of [undefined] or
    [null] would be read. *)
Theorem resolveRef_follows_segments (h : heap) (openApi : val) (segs : list string) :
  segs <> [] ->
  Forall (fun p => has_slash p = false) segs ->
  resolveRef h openApi ("#" +++ pointer segs) = walk h openApi segs.
Proof.
  intros Hne Hall. unfold resolveRef.
  rewrite (split_slash_pointer segs Hall "#" eq_refl).
  destruct segs as [|p rest]; [contradiction|]. simpl length. simpl tl.
  change (S (S (List.length rest)) <=? 1)%nat with false.
  apply recursive_walk. discriminate.
Qed.

Lemma resolveRef_follows_segments_witness :
  resolveRef (heap_of (snd (parse docRequestBodyRef))) (fst (parse docRequestBodyRef))
    ("#" +++ pointer ["components"; "requestBodies"; "Pet"])
  = Ok (VObj 145).
Proof.
  rewrite resolveRef_follows_segments.
  - reflexivity.
  - discriminate.
  - repeat constructor.
Defined.

(** X2: whatever stands before the first slash of a reference string is
    not looked at, and the rest is cut at every slash: the string is
    [first/p1/.../pn] with slash-free parts, and the result is
    [openApi[p1]...[pn]].  A key that contains a slash, as every path
    template does, is never read. *)
Theorem resolveRef_ignores_first_part (h : heap) (openApi : val) (ref : string) :
  has_slash ref = true ->
  exists first segs,
    ref = first +++ pointer segs
    /\ segs <> []
    /\ Forall (fun p => has_slash p = false) (first :: segs)
    /\ resolveRef h openApi ref = walk h openApi segs.
Proof.
  intros Hslash. unfold resolveRef.
  pose proof (split_slash_round_trip ref) as Hrt.
  destruct (split_slash_two ref Hslash) as (p & q & qs & Hparts).
  rewrite Hparts in *. destruct Hrt as [Href Hall].
  exists p, (q :: qs). split; [assumption|]. split; [discriminate|].
  split; [assumption|]. simpl tl.
  change (List.length (p :: q :: qs) <=? 1)%nat with false.
  apply recursive_walk. discriminate.
Qed.

Lemma resolveRef_ignores_first_part_witness :
  exists first segs,
    "definitions/Pet" = first +++ pointer segs
    /\ segs <> []
    /\ Forall (fun p => has_slash p = false) (first :: segs)
    /\ resolveRef [] VNew "definitions/Pet" = walk [] VNew segs.
Proof. apply resolveRef_ignores_first_part. reflexivity. Defined.

Lemma assoc_stored (k : string) (ps : list (string * val)) (x : val) :
  assoc k ps = Some x -> In x (List.map snd ps).
Proof.
  unfold assoc.
  destruct (find (fun kv => String.eqb (fst kv) k) ps) as [kv|] eqn:E; [|discriminate].
  intros [= <-]. apply find_some in E as [E _]. now apply in_map.
Qed.

Lemma own_prop_stored (o : obj) (k : string) (x : val) :
  own_prop o k = Some x -> In x (stored o) \/ exists n, x = VNum n.
Proof.
  destruct o as [ps|es ps|c t ms]; simpl.
  - intros H. left. now apply (assoc_stored k).
  - destruct (String.eqb k "length"); [intros [= <-]; eauto|].
    destruct (Str.index_of_key k) as [i|].
    + intros H. left. apply in_or_app. left. now apply (nth_error_In es i).
    + intros H. left. apply in_or_app. right. now apply (assoc_stored k).
  - intros H. left. now apply (assoc_stored k).
Qed.

Lemma noFresh_stored (h : heap) (l : loc) (o : obj) (x : val) :
  noFresh h = true -> nth_error h l = Some o -> In x (stored o) -> x <> VNew.
Proof.
  unfold noFresh. intros Hh Hl Hx ->.
  rewrite forallb_forall in Hh. specialize (Hh o (nth_error_In _ _ Hl)).
  rewrite forallb_forall in Hh. specialize (Hh VNew Hx). discriminate.
Qed.

Lemma inherited_not_fresh (h : heap) (chn : list loc) (k : string) (x : val) :
  noFresh h = true -> inherited h chn k = Some x -> x <> VNew.
Proof.
  intros Hh. induction chn as [|p chn IH]; simpl; [discriminate|].
  destruct (assoc k (members_at h p)) as [v|] eqn:E; [|exact IH].
  intros [= <-]. unfold members_at in E.
  destruct (nth_error h p) as [[ps|es ps|c t ms]|] eqn:Hp; try discriminate.
  apply (noFresh_stored h p _ v Hh Hp). simpl. now apply (assoc_stored k).
Qed.

(** A read never yields the fresh object. *)
Lemma get_not_fresh (h : heap) (v : val) (k : string) (x : val) :
  noFresh h = true -> get h v k = Ok x -> x <> VNew.
Proof.
  intros Hh. unfold get.
  assert (Hown : forall y, own h v k = Some y -> y <> VNew).
  { destruct v; simpl; try discriminate.
    - destruct (String.eqb k "length"); [intros y [= <-]; discriminate|].
      destruct (Str.index_of_key k) as [i|]; [|discriminate].
      destruct (String.get i s); simpl; [|discriminate].
      intros y [= <-]. discriminate.
    - destruct (nth_error h l) as [o|] eqn:Hl; [|discriminate].
      intros y Hy. destruct (own_prop_stored _ _ _ Hy) as [Hin|[n ->]];
        [|discriminate].
      exact (noFresh_stored h l o y Hh Hl Hin). }
  assert (Hrest : match own h v k with
                  | Some x0 => Ok x0
                  | None =>
                      match Str.index_of_key k with
                      | Some _ => Ok VUndef
                      | None =>
                          match inherited h (chain h v) k with
                          | Some x0 => Ok x0
                          | None =>
                              if String.eqb k "__proto__"
                              then Ok (match chain h v with
                                       | p :: _ => VObj p
                                       | [] => VNull
                                       end)
                              else if callable_value h v && restricted k
                                   then Err TypeError
                                   else Ok VUndef
                          end
                      end
                  end = Ok x -> x <> VNew).
  { destruct (own h v k) as [y|]; [intros [= <-]; now apply Hown|].
    destruct (Str.index_of_key k); [intros [= <-]; discriminate|].
    destruct (inherited h (chain h v) k) as [y|] eqn:E;
      [intros [= <-]; exact (inherited_not_fresh _ _ _ _ Hh E)|].
    destruct (String.eqb k "__proto__").
    - intros [= <-]. destruct (chain h v); discriminate.
    - destruct (callable_value h v && restricted k); [discriminate|].
      intros [= <-]. discriminate. }
  destruct v; try discriminate; exact Hrest.
Qed.

Lemma walk_not_fresh (h : heap) (segs : list string) :
  noFresh h = true -> segs <> [] ->
  forall o x, walk h o segs = Ok x -> x <> VNew.
Proof.
  intros Hh. induction segs as [|p rest IH]; intros Hne o x; [contradiction|].
  simpl. destruct (get h o p) as [o'|] eqn:Hget; simpl; [|discriminate].
  destruct rest as [|q rest].
  - simpl. intros [= <-]. exact (get_not_fresh _ _ _ _ Hh Hget).
  - apply IH. discriminate.
Qed.

Lemma walk_app (h : heap) (l1 l2 : list string) :
  forall o, walk h o (l1 ++ l2) = (let? o' := walk h o l1 in walk h o' l2).
Proof.
  induction l1 as [|p l1 IH]; simpl; intros o; [reflexivity|].
  destruct (get h o p) as [o'|]; simpl; [apply IH|reflexivity].
Qed.

(** A reference with a slash is cut into slash-free parts, and what
    follows the first part is walked from the document. *)
Lemma resolveRef_walk (h : heap) (openApi : val) (ref : string) :
  has_slash ref = true ->
  exists first segs,
    ref = first +++ pointer segs
    /\ segs <> []
    /\ Forall (fun p => has_slash p = false) (first :: segs)
    /\ resolveRef h openApi ref = walk h openApi segs.
Proof.
  intros Hslash. unfold resolveRef.
  pose proof (split_slash_round_trip ref) as Hrt.
  destruct (split_slash_two ref Hslash) as (p & q & qs & Hparts).
  rewrite Hparts in *. destruct Hrt as [Href Hall].
  exists p, (q :: qs). split; [assumption|]. split; [discriminate|].
  split; [assumption|]. simpl tl.
  change (List.length (p :: q :: qs) <=? 1)%nat with false.
  apply recursive_walk. discriminate.
Qed.

Lemma resolveRef_pointer (h : heap) (openApi : val) (first : string)
  (segs : list string) :
  segs <> [] ->
  Forall (fun p => has_slash p = false) (first :: segs) ->
  resolveRef h openApi (first +++ pointer segs) = walk h openApi segs.
Proof.
  intros Hne Hall. inversion Hall as [|? ? Hfirst Hsegs]; subst.
  unfold resolveRef. rewrite (split_slash_pointer segs Hsegs first Hfirst).
  destruct segs as [|p rest]; [contradiction|]. simpl length. simpl tl.
  change (S (S (List.length rest)) <=? 1)%nat with false.
  apply recursive_walk. discriminate.
Qed.

(** C7, amended: a reference string without any slash (no path segment
    after the [#]) resolves to a fresh empty object, and no other
    reference does, in a store that holds no fresh object.  A reference
    with path segments is resolved by reading a property for each
    segment, inherited members included; a path that leads nowhere is not
    turned into an empty object: when the read for a segment yields
    [undefined] or [null], that is the result if the segment is the last
    one, and a TypeError is raised if segments remain. *)
Theorem resolveRef_empty_object_only_without_path :
  (forall h openApi ref,
      has_slash ref = false -> resolveRef h openApi ref = Ok VNew)
  /\ (forall h openApi ref,
         has_slash ref = true -> noFresh h = true ->
         resolveRef h openApi ref <> Ok VNew)
  /\ (forall h openApi first pre a rest v w,
         Forall (fun p => has_slash p = false) (first :: pre ++ a :: rest) ->
         walk h openApi pre = Ok v ->
         get h v a = Ok w ->
         not_nullish w = false ->
         resolveRef h openApi (first +++ pointer (pre ++ a :: rest))
         = match rest with
           | [] => Ok w
           | _ :: _ => Err TypeError
           end).
Proof.
  split; [|split].
  - intros h openApi ref H. unfold resolveRef.
    rewrite (split_slash_no_slash _ H). reflexivity.
  - intros h openApi ref Hslash Hh Hres.
    destruct (resolveRef_walk h openApi ref Hslash)
      as (first & segs & _ & Hne & _ & Hwalk).
    rewrite Hwalk in Hres. now apply (walk_not_fresh h segs Hh Hne openApi VNew).
  - intros h openApi first pre a rest v w Hall Hpre Hget Hw.
    rewrite resolveRef_pointer; [|now destruct pre|assumption].
    rewrite walk_app, Hpre. simpl. rewrite Hget. simpl.
    destruct rest as [|b rest]; [reflexivity|]. simpl.
    destruct w; try discriminate; reflexivity.
Qed.

Lemma resolveRef_empty_object_only_without_path_witness :
  resolveRef (heap_of (snd (parse emptyDocument))) (fst (parse emptyDocument)) "#"
  = Ok VNew
  /\ resolveRef (heap_of (snd (parse emptyDocument))) (fst (parse emptyDocument))
       "#/constructor/name" <> Ok VNew
  /\ resolveRef (heap_of (snd (parse emptyDocument))) (fst (parse emptyDocument))
       ("#" +++ pointer (["constructor"] ++ "Pet" :: [])) = Ok VUndef
  /\ resolveRef (heap_of (snd (parse emptyDocument))) (fst (parse emptyDocument))
       ("#" +++ pointer ([] ++ "definitions" :: ["Pet"])) = Err TypeError.
Proof.
  destruct resolveRef_empty_object_only_without_path as [H1 [H2 H3]].
  split; [|split; [|split]].
  - apply H1. reflexivity.
  - apply H2; reflexivity.
  - apply (H3 (heap_of (snd (parse emptyDocument))) (fst (parse emptyDocument))
             "#" ["constructor"] "Pet" [] (VObj 6) VUndef).
    + repeat constructor.
    + reflexivity.
    + reflexivity.
    + reflexivity.
  - apply (H3 (heap_of (snd (parse emptyDocument))) (fst (parse emptyDocument))
             "#" [] "definitions" ["Pet"] (VObj 136) VUndef).
    + repeat constructor.
    + reflexivity.
    + reflexivity.
    + reflexivity.
Defined.


(* ------------------------------------------------------------------ *)
(** ** Edge cases of the base URL, the security part and the list *)
(* ------------------------------------------------------------------ *)

Lemma toStr_undef (h : heap) : toStr h VUndef = "undefined".
Proof. unfold toStr. destruct (List.length h); reflexivity. Qed.

(** X3: an empty [servers] array is truthy and has no first element, so
    [getBaseUrl] raises a TypeError; [createHar] raises with it, and
    [openApiToHarList] logs it and returns [undefined]. *)
Theorem empty_servers_raise
  (sampler : heap -> val -> val -> res (option json)) (stringify : option json -> val)
  (openApi : val) (s : state) (l : loc) (props : list (string * val)) :
  get (heap_of s) openApi "servers" = Ok (VObj l) ->
  nth_error (heap_of s) l = Some (Arr [] props) ->
  getBaseUrl (heap_of s) openApi = Err TypeError
  /\ (forall path method values,
         createHar sampler stringify openApi path method values s = (Err TypeError, s))
  /\ openApiToHarList sampler stringify openApi s
     = (Ok None, mkState (heap_of s) (log_of s ++ [TypeError])).
Proof.
  intros Hservers Hl.
  assert (Hbase : getBaseUrl (heap_of s) openApi = Err TypeError).
  { unfold getBaseUrl. rewrite Hservers. simpl. rewrite Hl. reflexivity. }
  split; [assumption|]. split.
  - intros path method values. unfold createHar, bind, lift. now rewrite Hbase.
  - unfold openApiToHarList, try_catch, bind, harListBody, bind, lift.
    now rewrite Hbase.
Qed.

Lemma empty_servers_raise_witness :
  openApiToHarList constSampler constStringify (fst (parse docNoServers))
    (snd (parse docNoServers))
  = (Ok None, mkState (heap_of (snd (parse docNoServers))) [TypeError]).
Proof.
  apply (empty_servers_raise constSampler constStringify (fst (parse docNoServers))
           (snd (parse docNoServers)) 136 []); reflexivity.
Defined.

(** X4: a document whose [paths] has nothing to visit (absent, [null] or
    empty) is no failure: [openApiToHarList] returns the empty list and
    logs nothing, when the base URL can be built. *)
Theorem no_paths_empty_list
  (sampler : heap -> val -> val -> res (option json)) (stringify : option json -> val)
  (openApi : val) (s : state) (baseUrl paths : val) :
  getBaseUrl (heap_of s) openApi = Ok baseUrl ->
  get (heap_of s) openApi "paths" = Ok paths ->
  forin_keys (heap_of s) paths = [] ->
  openApiToHarList sampler stringify openApi s = (Ok (Some []), s).
Proof.
  intros Hbase Hpaths Hkeys.
  unfold openApiToHarList, try_catch, bind, harListBody, bind, lift, forIn.
  now rewrite Hbase, Hpaths, Hkeys.
Qed.

Lemma no_paths_empty_list_witness :
  openApiToHarList constSampler constStringify (fst (parse docNoPaths))
    (snd (parse docNoPaths))
  = (Ok (Some []), snd (parse docNoPaths)).
Proof.
  apply (no_paths_empty_list _ _ _ _ (VStr "http://x.io") VUndef); reflexivity.
Defined.

(** X5: a [security] member of the operation hides the security of the
    document even when it is empty: no authentication header is pushed
    then, whatever the document requires. *)
Theorem empty_operation_security_no_auth_header
  (h : heap) (openApi : val) (path method : string) (c : collected)
  (pathObj sec : val) :
  declaredHeaders h openApi path method = Ok c ->
  operation h openApi path method = Ok pathObj ->
  get h pathObj "security" = Ok sec ->
  defined sec = true ->
  forin_keys h sec = [] ->
  getHeadersArray h openApi path method = Ok (fst c).
Proof.
  intros Hc Hop Hsec Hdef Hkeys. unfold getHeadersArray.
  rewrite Hc. simpl. rewrite Hop. simpl.
  unfold securityDefs. rewrite Hsec. simpl. rewrite Hdef.
  unfold rforIn. rewrite Hkeys. simpl. now rewrite app_nil_r.
Qed.

Lemma empty_operation_security_no_auth_header_witness :
  getHeadersArray (heap_of (snd (parse docSecurityLifted)))
    (fst (parse docSecurityLifted)) "/pets" "get"
  = Ok [].
Proof.
  apply (empty_operation_security_no_auth_header _ _ _ _ ([], []) (VObj 142) (VObj 141));
    reflexivity.
Defined.

Lemma securityStep_undefined_scheme (h : heap) (openApi sec : val) (k : string)
  (req : val) (ks : list string) (defs : val) :
  get h sec k = Ok req ->
  object_keys h req = Ok ks ->
  get h openApi "securityDefinitions" = Ok defs ->
  truthy defs = true ->
  get h defs (match ks with n :: _ => n | [] => "undefined" end) = Ok VUndef ->
  forall a,
    securityStepOperation h openApi sec k a = Err TypeError
    /\ securityStepDocument h openApi sec k a = Err TypeError.
Proof.
  intros Hreq Hks Hdefs Htruthy Hundef a.
  assert (Hscheme : exists secScheme,
             schemeOf h openApi req = Ok (secScheme, VUndef)).
  { unfold schemeOf. rewrite Hks. simpl. rewrite Hdefs. simpl. rewrite Htruthy.
    destruct ks as [|n rest].
    - rewrite toStr_undef, Hundef. simpl. eauto.
    - rewrite toStr_str, Hundef. simpl. eauto. }
  destruct Hscheme as [secScheme Hscheme].
  unfold securityStepOperation, securityStepDocument.
  rewrite Hreq. simpl. rewrite Hscheme. split; reflexivity.
Qed.

(** X6: a security requirement whose first scheme name has no definition
    in [securityDefinitions] makes [getHeadersArray] raise, at the level
    of the operation and at the level of the document.  The empty
    requirement [{}] is such a requirement: its scheme name is read as
    [undefined]. *)
Theorem undefined_security_scheme_raises
  (h : heap) (openApi : val) (path method : string) (pathObj sec : val)
  (k : string) (req : val) (ks : list string) (defs : val) :
  operation h openApi path method = Ok pathObj ->
  get h pathObj "security" = Ok sec
  \/ (get h pathObj "security" = Ok VUndef /\ get h openApi "security" = Ok sec) ->
  In k (forin_keys h sec) ->
  get h sec k = Ok req ->
  object_keys h req = Ok ks ->
  get h openApi "securityDefinitions" = Ok defs ->
  truthy defs = true ->
  get h defs (match ks with n :: _ => n | [] => "undefined" end) = Ok VUndef ->
  exists e, getHeadersArray h openApi path method = Err e.
Proof.
  intros Hop Hsec Hk Hreq Hks Hdefs Htruthy Hundef.
  pose proof (securityStep_undefined_scheme _ _ _ _ _ _ _ Hreq Hks Hdefs Htruthy Hundef)
    as Hstep.
  pose proof (forin_keys_defined _ _ _ Hk) as Hdef.
  unfold getHeadersArray. apply rbind_raises. intros c _.
  rewrite Hop. simpl. apply rbind_raises. intros a Ha. exfalso. revert Ha.
  unfold securityDefs, rforIn.
  destruct Hsec as [Hsec|[Hown Hsec]].
  - rewrite Hsec. simpl. rewrite Hdef.
    destruct (rfold_raises (securityStepOperation h openApi sec) _ k Hk
                (fun a => ex_intro _ TypeError (proj1 (Hstep a))) noAuth) as [e ->].
    discriminate.
  - rewrite Hown. simpl. rewrite Hsec. simpl. rewrite Hdef.
    destruct (rfold_raises (securityStepDocument h openApi sec) _ k Hk
                (fun a => ex_intro _ TypeError (proj2 (Hstep a))) noAuth) as [e ->].
    discriminate.
Qed.

Lemma undefined_security_scheme_raises_witness :
  exists e,
    getHeadersArray (heap_of (snd (parse docSecurityLifted)))
      (fst (parse docSecurityLifted)) "/pets" "post" = Err e.
Proof.
  apply (undefined_security_scheme_raises _ _ _ _ (VObj 145) (VObj 144) "0" (VObj 143) []
           (VObj 140)).
  - reflexivity.
  - left. reflexivity.
  - now left.
  - reflexivity.
  - reflexivity.
  - reflexivity.
  - reflexivity.
  - reflexivity.
Defined.

(* ------------------------------------------------------------------ *)
(** ** Order of the entries *)
(* ------------------------------------------------------------------ *)

Lemma pushOperationLevel_all_new (os : list entry) :
  forall hs d,
    NoDup (List.map key os) ->
    (forall k, In k (List.map key os) -> ~ In k d) ->
    fold_left (fun c e => pushOperationLevel e c) os (hs, d)
    = (hs ++ os, d ++ List.map key os).
Proof.
  induction os as [|o os IH]; simpl; intros hs d Hnd Hnew.
  - now rewrite !app_nil_r.
  - inversion Hnd as [|? ? Hnotin Hnd']; subst.
    unfold pushOperationLevel at 2. simpl.
    assert (Hmem : mem (key o) d = false) by (apply mem_false; auto).
    rewrite Hmem. rewrite IH; [now rewrite <- !app_assoc|assumption|].
    intros k Hk Hin. apply in_app_or in Hin as [Hin|[<-|[]]].
    + apply (Hnew k); auto.
    + contradiction.
Qed.

Lemma merged_without_clash (hs0 ps os : list entry) :
  NoDup (List.map key os) ->
  (forall k, In k (List.map key os) -> ~ In k (List.map key ps)) ->
  fst (merged hs0 ps os) = hs0 ++ ps ++ os.
Proof.
  intros Hnd Hnew. unfold merged. rewrite pushPathLevel_all. simpl.
  rewrite pushOperationLevel_all_new by assumption.
  simpl. now rewrite app_assoc.
Qed.

(** X7: when the operation-level query parameters have distinct names
    (without regard to case) that no path-level query parameter has,
    nothing is removed: [queryString] is the entries of the path-level
    query parameters followed by those of the operation-level ones, each
    list in the order of the document. *)
Theorem queryString_path_level_then_operation_level
  (openApi : val) (path method : string) (values : val) (s : state)
  (qs : list entry) (s' : state) :
  getQueryStrings openApi path method values s = (Ok qs, s') ->
  exists ps os s1,
    queryEntries openApi (if defined values then values else VNew)
      (pathParameters openApi path) s = (Ok ps, s1)
    /\ queryEntries openApi (if defined values then values else VNew)
         (operationParameters openApi path method) s1 = (Ok os, s')
    /\ (NoDup (List.map key os) ->
        (forall k, In k (List.map key os) -> ~ In k (List.map key ps)) ->
        qs = ps ++ os).
Proof.
  intros Hrun.
  destruct (getQueryStrings_merged _ _ _ _ _ _ _ Hrun)
    as (ps & os & s1 & Hps & Hos & ->).
  exists ps, os, s1. do 2 (split; [assumption|]).
  intros Hnd Hnew. now rewrite merged_without_clash.
Qed.

(** X8: under the same condition on the header parameters, [headers] is
    the accept and content-type headers, then the entries of the
    path-level header parameters, then those of the operation-level ones,
    then at most one authentication header. *)
Theorem headers_in_order
  (h : heap) (openApi : val) (path method : string) (hs : list entry) :
  getHeadersArray h openApi path method = Ok hs ->
  exists hs0 pl ol ps os auth,
    Forall mediaHeader hs0
    /\ pathParameters openApi path h = Ok pl
    /\ operationParameters openApi path method h = Ok ol
    /\ headerEntries h openApi pl = Ok ps
    /\ headerEntries h openApi ol = Ok os
    /\ (List.length auth <= 1)%nat
    /\ (NoDup (List.map key os) ->
        (forall k, In k (List.map key os) -> ~ In k (List.map key ps)) ->
        hs = hs0 ++ ps ++ os ++ auth).
Proof.
  intros Hrun.
  destruct (auth_header_parts h openApi path method hs Hrun)
    as (c & auth & Hc & -> & Hauth).
  destruct (declaredHeaders_merged _ _ _ _ _ Hc)
    as (hs0 & pl & ol & ps & os & Hmedia & Hpl & Hol & Hps & Hos & ->).
  exists hs0, pl, ol, ps, os, auth. do 5 (split; [assumption|]).
  split.
  - destruct Hauth as [->|[e [-> _]]]; simpl; lia.
  - intros Hnd Hnew. rewrite merged_without_clash by assumption.
    now rewrite <- !app_assoc.
Qed.

Lemma queryString_path_level_then_operation_level_witness :
  exists qs s',
    getQueryStrings (fst (parse docAllHeaders)) "/pets" "get" VUndef
      (snd (parse docAllHeaders)) = (Ok qs, s')
    /\ qs = [mkEntry "page" (VStr "SOME_INTEGER_VALUE")]
            ++ [mkEntry "q" (VStr "SOME_STRING_VALUE")].
Proof.
  assert (Hrun : getQueryStrings (fst (parse docAllHeaders)) "/pets" "get" VUndef
                   (snd (parse docAllHeaders))
                 = (Ok [mkEntry "page" (VStr "SOME_INTEGER_VALUE");
                        mkEntry "q" (VStr "SOME_STRING_VALUE")],
                    snd (parse docAllHeaders))) by reflexivity.
  destruct (queryString_path_level_then_operation_level _ _ _ _ _ _ _ Hrun)
    as (ps & os & s1 & Hps & Hos & Horder).
  vm_compute in Hps. injection Hps as <- <-.
  vm_compute in Hos. injection Hos as <-.
  eexists _, _. split; [exact Hrun|]. apply Horder.
  - repeat constructor. simpl. tauto.
  - intros k [<-|[]] [H|[]]. discriminate.
Defined.

Lemma headers_in_order_witness :
  exists hs hs0 auth,
    getHeadersArray (heap_of (snd (parse docAllHeaders))) (fst (parse docAllHeaders))
      "/pets" "get" = Ok hs
    /\ hs = hs0 ++ [mkEntry "X-Trace" (VStr "SOME_STRING_VALUE")]
               ++ [mkEntry "X-Token" (VStr "SOME_STRING_VALUE")] ++ auth.
Proof.
  assert (Hrun : getHeadersArray (heap_of (snd (parse docAllHeaders)))
                   (fst (parse docAllHeaders)) "/pets" "get"
                 = Ok [mkEntry "accept" (VStr "application/json");
                       mkEntry "X-Trace" (VStr "SOME_STRING_VALUE");
                       mkEntry "X-Token" (VStr "SOME_STRING_VALUE");
                       basicAuthHeader]) by reflexivity.
  destruct (headers_in_order _ _ _ _ _ Hrun)
    as (hs0 & pl & ol & ps & os & auth & _ & Hpl & Hol & Hps & Hos & _ & Horder).
  vm_compute in Hpl. injection Hpl as <-.
  vm_compute in Hol. injection Hol as <-.
  vm_compute in Hps. injection Hps as <-.
  vm_compute in Hos. injection Hos as <-.
  eexists _, hs0, auth. split; [exact Hrun|]. apply Horder.
  - repeat constructor. simpl. tauto.
  - intros k [<-|[]] [H|[]]. discriminate.
Defined.

(* ------------------------------------------------------------------ *)
(** ** What the calls leave of the document *)
(* ------------------------------------------------------------------ *)

Lemma kept_refl (h : heap) : otherPropertiesKept h h.
Proof. split; [lia|reflexivity]. Qed.

Lemma kept_trans (h1 h2 h3 : heap) :
  otherPropertiesKept h1 h2 -> otherPropertiesKept h2 h3 -> otherPropertiesKept h1 h3.
Proof.
  intros [Hlen12 H12] [Hlen23 H23]. split; [lia|].
  intros l k Hl Hk. rewrite H23 by (auto; lia). now apply H12.
Qed.

Lemma length_update (l : loc) (f : obj -> obj) (h : heap) :
  List.length (update l f h) = List.length h.
Proof.
  revert l. induction h as [|o h IH]; intros [|l]; simpl; auto.
Qed.

Lemma nth_error_update (l l' : loc) (f : obj -> obj) (h : heap) :
  nth_error (update l f h) l'
  = if Nat.eqb l l' then option_map f (nth_error h l') else nth_error h l'.
Proof.
  revert l l'. induction h as [|o h IH]; intros l l'.
  - destruct l, l'; simpl; try reflexivity; destruct (Nat.eqb _ _); reflexivity.
  - destruct l, l'; simpl; try reflexivity. apply IH.
Qed.

Lemma assoc_put_other (k k0 : string) (v : val) (ps : list (string * val)) :
  String.eqb k0 k = false -> assoc k0 (put k v ps) = assoc k0 ps.
Proof.
  intros Hne. unfold assoc.
  induction ps as [|[k1 v1] ps IH]; simpl.
  - rewrite String.eqb_sym. now rewrite Hne.
  - destruct (String.eqb k1 k) eqn:Hk1; simpl.
    + apply String.eqb_eq in Hk1. subst k1.
      rewrite (String.eqb_sym k k0), Hne. reflexivity.
    + destruct (String.eqb k1 k0); [reflexivity|assumption].
Qed.

Lemma own_prop_put_other (o : obj) (k k0 : string) (v : val) :
  String.eqb k0 k = false -> own_prop (put_obj k v o) k0 = own_prop o k0.
Proof.
  intros Hne. destruct o as [ps|es ps|c t ms]; simpl.
  - now apply assoc_put_other.
  - destruct (String.eqb k0 "length"); [reflexivity|].
    destruct (Str.index_of_key k0); [reflexivity|]. now apply assoc_put_other.
  - now apply assoc_put_other.
Qed.

(** A write under the name [k] changes no read under another name, of
    whatever value: own properties and inherited members alike. *)
Lemma own_update_other (h : heap) (l : loc) (k k0 : string) (v x : val) :
  String.eqb k0 k = false ->
  own (update l (put_obj k v) h) x k0 = own h x k0.
Proof.
  intros Hne. destruct x; try reflexivity. simpl. rewrite nth_error_update.
  destruct (Nat.eqb l l0); [|reflexivity].
  destruct (nth_error h l0) as [o|]; simpl; [|reflexivity].
  now apply own_prop_put_other.
Qed.

Lemma chain_update (h : heap) (l : loc) (k : string) (v x : val) :
  chain (update l (put_obj k v) h) x = chain h x.
Proof.
  destruct x; try reflexivity. simpl. rewrite nth_error_update.
  destruct (Nat.eqb l l0); [|reflexivity].
  destruct (nth_error h l0) as [[ps|es ps|[|] t ms]|]; reflexivity.
Qed.

Lemma callable_update (h : heap) (l : loc) (k : string) (v x : val) :
  callable_value (update l (put_obj k v) h) x = callable_value h x.
Proof.
  destruct x; try reflexivity. simpl. rewrite nth_error_update.
  destruct (Nat.eqb l l0); [|reflexivity].
  destruct (nth_error h l0) as [[ps|es ps|c t ms]|]; reflexivity.
Qed.

Lemma inherited_update_other (h : heap) (l : loc) (k k0 : string) (v : val)
  (ps : list loc) :
  String.eqb k0 k = false ->
  inherited (update l (put_obj k v) h) ps k0 = inherited h ps k0.
Proof.
  intros Hne. induction ps as [|p ps IH]; simpl; [reflexivity|].
  rewrite IH.
  assert (E : assoc k0 (members_at (update l (put_obj k v) h) p)
              = assoc k0 (members_at h p)).
  { unfold members_at. rewrite nth_error_update.
    destruct (Nat.eqb l p); [|reflexivity].
    destruct (nth_error h p) as [[qs|es qs|c t ms]|]; simpl; try reflexivity.
    now apply assoc_put_other. }
  now rewrite E.
Qed.

Lemma get_update_other (h : heap) (l : loc) (k k0 : string) (v x : val) :
  String.eqb k0 k = false ->
  get (update l (put_obj k v) h) x k0 = get h x k0.
Proof.
  intros Hne. unfold get.
  rewrite own_update_other, chain_update, callable_update by assumption.
  now rewrite inherited_update_other.
Qed.

(** A new object that is not a built-in one changes no read of the
    objects that were there. *)
Lemma members_at_app (h : heap) (ps : list (string * val)) (p : loc) :
  members_at (h ++ [Obj ps]) p = members_at h p.
Proof.
  unfold members_at. destruct (Nat.ltb p (List.length h)) eqn:E.
  - apply Nat.ltb_lt in E. now rewrite nth_error_app1.
  - apply Nat.ltb_ge in E. rewrite nth_error_app2 by assumption.
    rewrite (proj2 (nth_error_None h p) E).
    destruct (p - List.length h)%nat as [|[|n]]; reflexivity.
Qed.

Lemma inherited_app (h : heap) (ps : list (string * val)) (chn : list loc)
  (k : string) :
  inherited (h ++ [Obj ps]) chn k = inherited h chn k.
Proof.
  induction chn as [|p chn IH]; simpl; [reflexivity|].
  now rewrite IH, members_at_app.
Qed.

Lemma get_app_old (h : heap) (ps : list (string * val)) (l : loc) (k : string) :
  (l < List.length h)%nat -> get (h ++ [Obj ps]) (VObj l) k = get h (VObj l) k.
Proof.
  intros Hl. unfold get, own, chain, callable_value.
  rewrite nth_error_app1 by assumption.
  destruct (nth_error h l) as [o|]; [|reflexivity].
  destruct (own_prop o k); [reflexivity|].
  destruct (Str.index_of_key k); [reflexivity|].
  now rewrite inherited_app.
Qed.

Lemma written_other (k k0 : string) :
  written k = true -> written k0 = false -> String.eqb k0 k = false.
Proof.
  intros Hk Hk0. destruct (String.eqb k0 k) eqn:E; [|reflexivity].
  apply String.eqb_eq in E. congruence.
Qed.

Lemma setProp_kept (h : heap) (target : val) (k : string) (v : val) :
  written k = true -> otherPropertiesKept h (snd (setProp h target k v)).
Proof.
  intros Hk. destruct target; simpl; try apply kept_refl.
  destruct v; simpl;
    try (split; [rewrite length_update; lia|];
         intros obj0 key0 Hl Hk0; apply get_update_other;
         now apply (written_other k)).
  split.
  - rewrite length_update, length_app. simpl. lia.
  - intros obj0 key0 Hl Hk0.
    rewrite get_update_other by (now apply (written_other k)).
    now apply get_app_old.
Qed.

Lemma keeps_ret {A} (a : A) : keepsDocument (ret a).
Proof. intros s. simpl. split; [apply kept_refl|]. exists []. now rewrite app_nil_r. Qed.

Lemma keeps_lift {A} (f : heap -> res A) : keepsDocument (lift f).
Proof. intros s. simpl. split; [apply kept_refl|]. exists []. now rewrite app_nil_r. Qed.

Lemma keeps_raise {A} (e : exn) : keepsDocument (fun s => (@Err A e, s)).
Proof. intros s. simpl. split; [apply kept_refl|]. exists []. now rewrite app_nil_r. Qed.

Lemma keeps_console_log (e : exn) : keepsDocument (console_log e).
Proof. intros s. simpl. split; [apply kept_refl|]. now exists [e]. Qed.

Lemma keeps_write (target : val) (k : string) (v : val) :
  written k = true -> keepsDocument (write target k v).
Proof.
  intros Hk s. unfold write.
  pose proof (setProp_kept (heap_of s) target k v Hk) as Hkept.
  destruct (setProp (heap_of s) target k v) as [r h']. simpl in *.
  split; [assumption|]. exists []. now rewrite app_nil_r.
Qed.

Lemma keeps_then (s s1 s2 : state) :
  (otherPropertiesKept (heap_of s) (heap_of s1)
   /\ exists logged, log_of s1 = log_of s ++ logged) ->
  (otherPropertiesKept (heap_of s1) (heap_of s2)
   /\ exists logged, log_of s2 = log_of s1 ++ logged) ->
  otherPropertiesKept (heap_of s) (heap_of s2)
  /\ exists logged, log_of s2 = log_of s ++ logged.
Proof.
  intros [H1 [l1 Hl1]] [H2 [l2 Hl2]]. split; [now apply (kept_trans _ _ _ H1)|].
  exists (l1 ++ l2). now rewrite Hl2, Hl1, app_assoc.
Qed.

Lemma keeps_bind {A B} (m : M A) (k : A -> M B) :
  keepsDocument m -> (forall a, keepsDocument (k a)) -> keepsDocument (bind m k).
Proof.
  intros Hm Hk s. unfold bind. specialize (Hm s).
  destruct (m s) as [[a|e] s1]; simpl in *; [|assumption].
  exact (keeps_then _ _ _ Hm (Hk a s1)).
Qed.

Lemma keeps_try_catch {A} (m : M A) (handler : exn -> M A) :
  keepsDocument m -> (forall e, keepsDocument (handler e)) ->
  keepsDocument (try_catch m handler).
Proof.
  intros Hm Hh s. unfold try_catch. specialize (Hm s).
  destruct (m s) as [[a|e] s1]; simpl in *; [assumption|].
  exact (keeps_then _ _ _ Hm (Hh e s1)).
Qed.

Lemma keeps_foldM {A} (body : string -> A -> M A) (keys : list string) :
  (forall k a, keepsDocument (body k a)) -> forall a, keepsDocument (foldM body keys a).
Proof.
  intros Hbody. induction keys as [|k ks IH]; simpl; intros a.
  - apply keeps_ret.
  - apply keeps_bind; auto.
Qed.

Lemma keeps_forIn {A} (v : val) (body : string -> A -> M A) (a : A) :
  (forall k a, keepsDocument (body k a)) -> keepsDocument (forIn v body a).
Proof. intros Hbody s. unfold forIn. now apply keeps_foldM. Qed.

Lemma keeps_foldF {A} (body : string -> A -> M (flow A)) (keys : list string) :
  (forall k a, keepsDocument (body k a)) -> forall a, keepsDocument (foldF body keys a).
Proof.
  intros Hbody. induction keys as [|k ks IH]; simpl; intros a.
  - apply keeps_ret.
  - apply keeps_bind; [auto|]. intros [a'|a']; [apply IH|apply keeps_ret].
Qed.

Lemma keeps_forInF {A} (v : val) (body : string -> A -> M (flow A)) (a : A) :
  (forall k a, keepsDocument (body k a)) -> keepsDocument (forInF v body a).
Proof. intros Hbody s. unfold forInF. now apply keeps_foldF. Qed.

Ltac keeps :=
  repeat first
    [ apply keeps_ret
    | apply keeps_lift
    | apply keeps_raise
    | apply keeps_console_log
    | apply keeps_write; reflexivity
    | apply keeps_bind; [|intros ?]
    | apply keeps_try_catch; [|intros ?]
    | apply keeps_forIn; intros ? ?
    | apply keeps_forInF; intros ? ?
    | assumption
    | match goal with
      | |- keepsDocument (if ?b then _ else _) => destruct b
      | |- keepsDocument (match ?x with _ => _ end) => destruct x
      end ].

Lemma keeps_prepareParam (openApi raw : val) : keepsDocument (prepareParam openApi raw).
Proof. unfold prepareParam, resolveSchema. keeps. Qed.

Lemma keeps_getQueryStrings (openApi : val) (path method : string) (values : val) :
  keepsDocument (getQueryStrings openApi path method values).
Proof.
  pose proof keeps_prepareParam as Hprep.
  unfold getQueryStrings, queryCollect, queryLevel, queryStep, queryParam.
  keeps; apply Hprep.
Qed.

Section Keeps.

Variable sampler : heap -> val -> val -> res (option json).
Variable stringify : option json -> val.

Lemma keeps_getPayload (openApi : val) (path method : string) :
  keepsDocument (getPayload sampler stringify openApi path method).
Proof.
  pose proof keeps_prepareParam as Hprep.
  unfold getPayload, payloadLevel, payloadStep, resolveRequestBody, contentStep.
  keeps; apply Hprep.
Qed.

Lemma keeps_createHar (openApi : val) (path method : string) (values : val) :
  keepsDocument (createHar sampler stringify openApi path method values).
Proof.
  pose proof keeps_getQueryStrings as Hqs.
  pose proof keeps_getPayload as Hpayload.
  unfold createHar. keeps; auto.
Qed.

Lemma keeps_openApiToHarList (openApi : val) :
  keepsDocument (openApiToHarList sampler stringify openApi).
Proof.
  pose proof keeps_createHar as Hhar.
  unfold openApiToHarList, harListBody, harListPath, harListStep. keeps; auto.
Qed.

End Keeps.

(** X9: [createHar] and [openApiToHarList] write to the document only
    under the names [schema], [type] and [requestBody].  After a call,
    normal or not, every object of the document is still there and every
    other property of it ([name], [in], [default], [example], the
    elements of an array, ...) reads as before; and what was logged
    before is still the beginning of the log. *)
Theorem calls_keep_other_properties :
  forall sampler stringify openApi s,
    (forall path method values,
        otherPropertiesKept (heap_of s)
          (heap_of (snd (createHar sampler stringify openApi path method values s)))
        /\ exists logged,
             log_of (snd (createHar sampler stringify openApi path method values s))
             = log_of s ++ logged)
    /\ (otherPropertiesKept (heap_of s)
          (heap_of (snd (openApiToHarList sampler stringify openApi s)))
        /\ exists logged,
             log_of (snd (openApiToHarList sampler stringify openApi s))
             = log_of s ++ logged).
Proof.
  intros sampler stringify openApi s. split.
  - intros path method values. apply keeps_createHar.
  - apply keeps_openApiToHarList.
Qed.

(* ------------------------------------------------------------------ *)
(** ** Resolution of a schema reference in place *)
(* ------------------------------------------------------------------ *)

Lemma assoc_put_same (k : string) (v : val) (ps : list (string * val)) :
  assoc k (put k v ps) = Some v.
Proof.
  unfold assoc. induction ps as [|[k1 v1] ps IH]; simpl.
  - now rewrite String.eqb_refl.
  - destruct (String.eqb k1 k) eqn:Hk1; simpl.
    + now rewrite String.eqb_refl.
    + now rewrite Hk1.
Qed.

Lemma get_update_same (h : heap) (l : loc) (k : string) (v : val) :
  (l < List.length h)%nat ->
  String.eqb k "length" = false ->
  Str.index_of_key k = None ->
  get (update l (put_obj k v) h) (VObj l) k = Ok v.
Proof.
  intros Hl Hlen Hidx. unfold get, own. rewrite nth_error_update, Nat.eqb_refl.
  destruct (nth_error h l) as [[ps|es ps|c t ms]|] eqn:Hnth; simpl.
  - now rewrite assoc_put_same.
  - now rewrite Hlen, Hidx, assoc_put_same.
  - now rewrite assoc_put_same.
  - apply nth_error_None in Hnth. lia.
Qed.

Lemma get_object_ok (h : heap) (l : loc) (k : string) :
  restricted k = false -> get h (VObj l) k = Ok (field h (VObj l) k).
Proof. intros Hk. now apply get_ok. Qed.

(** X10: when the schema of a parameter is a reference that resolves to
    an object of the document, the schema resolution writes that very
    object into [param.schema], in the place of the reference, and the
    object has a type afterwards: its own if it had one, else
    [object]. *)
Theorem schema_reference_replaced_in_place
  (openApi : val) (l l' : loc) (r : string) (s : state) (sch : val) :
  (l < List.length (heap_of s))%nat ->
  (l' < List.length (heap_of s))%nat ->
  get (heap_of s) (VObj l) "schema" = Ok sch ->
  get (heap_of s) sch "$ref" = Ok (VStr r) ->
  Str.starts_with_hash r = true ->
  resolveRef (heap_of s) openApi r = Ok (VObj l') ->
  exists s',
    resolveSchema openApi (VObj l) s = (Ok tt, s')
    /\ get (heap_of s') (VObj l) "schema" = Ok (VObj l')
    /\ field (heap_of s') (VObj l') "type"
       = (if defined (field (heap_of s) (VObj l') "type")
          then field (heap_of s) (VObj l') "type"
          else VStr "object").
Proof.
  intros Hl Hl' Hsch Href Hhash Hres.
  assert (Hdef : defined sch = true).
  { destruct sch; try reflexivity. discriminate. }
  set (h1 := update l (put_obj "schema" (VObj l')) (heap_of s)).
  assert (Hschema1 : get h1 (VObj l) "schema" = Ok (VObj l'))
    by (now apply get_update_same).
  assert (Htype1 : get h1 (VObj l') "type"
                   = Ok (field (heap_of s) (VObj l') "type")).
  { unfold h1. rewrite get_update_other by reflexivity. now apply get_object_ok. }
  unfold resolveSchema, bind, lift, write.
  rewrite Hsch, Hdef, Href, Hhash, Hres. simpl setProp. cbv iota beta.
  fold h1. simpl heap_of. rewrite Hschema1, Htype1.
  destruct (defined (field (heap_of s) (VObj l') "type")) eqn:Hty.
  - eexists. split; [reflexivity|]. simpl heap_of.
    split; [assumption|]. now rewrite (get_field _ _ _ _ Htype1).
  - change (setProp (heap_of (mkState h1 (log_of s))) (VObj l') "type" (VStr "object"))
      with (Ok tt, update l' (put_obj "type" (VStr "object")) h1).
    cbv iota beta. eexists. split; [reflexivity|]. simpl heap_of. split.
    + rewrite get_update_other by reflexivity. assumption.
    + apply get_field. apply get_update_same; [|reflexivity|reflexivity].
      unfold h1. now rewrite length_update.
Qed.

Lemma schema_reference_replaced_in_place_witness :
  exists s',
    resolveSchema (fst (parse docSchemaRef)) (VObj 141) (snd (parse docSchemaRef))
    = (Ok tt, s')
    /\ get (heap_of s') (VObj 141) "schema" = Ok (VObj 137)
    /\ field (heap_of s') (VObj 137) "type" = VStr "object".
Proof.
  apply (schema_reference_replaced_in_place (fst (parse docSchemaRef)) 141 137
           "#/definitions/Pet" (snd (parse docSchemaRef)) (VObj 140)).
  - simpl. lia.
  - simpl. lia.
  - reflexivity.
  - reflexivity.
  - reflexivity.
  - reflexivity.
Defined.

(* ------------------------------------------------------------------ *)
(** ** The payload *)
(* ------------------------------------------------------------------ *)

Lemma pushForm_shape (sampled : option json -> Prop) (stringify : option json -> val)
  (item : formParam) (payload : option postData) :
  payloadOk sampled stringify payload ->
  payloadOk sampled stringify (pushForm item payload).
Proof.
  unfold pushForm. destruct payload as [p|]; simpl.
  - intros Hp. destruct (params p) as [ps|] eqn:Hps.
    + destruct ps as [|p0 ps]; simpl; [assumption|].
      destruct Hp as [(_ & Hnone & _)|(Hmime & Htext & _)]; [congruence|].
      right. simpl. eauto.
    + right. simpl. eauto.
  - intros _. right. simpl. eauto.
Qed.

Lemma foldF_app {A} (body : string -> A -> M (flow A)) (ks1 ks2 : list string) :
  forall a s,
    foldF body (ks1 ++ ks2) a s
    = match foldF body ks1 a s with
      | (Ok (Continue a1), s1) => foldF body ks2 a1 s1
      | other => other
      end.
Proof.
  induction ks1 as [|k ks1 IH]; simpl; intros a s; [reflexivity|].
  unfold bind. destruct (body k a s) as [[[a1|a1]|e] s1]; [apply IH| |]; reflexivity.
Qed.

(** An invariant of a loop that may be left early, where each iteration
    is known to follow the iterations before it. *)
Lemma foldF_reach_invariant {A} (P : A -> Prop) (body : string -> A -> M (flow A))
  (keys : list string) (a : A) (s : state) :
  (forall ks1 k ks2 a1 s1 r s',
      keys = ks1 ++ k :: ks2 ->
      foldF body ks1 a s = (Ok (Continue a1), s1) ->
      P a1 -> body k a1 s1 = (Ok r, s') -> P (flowValue r)) ->
  P a ->
  forall r s', foldF body keys a s = (Ok r, s') -> P (flowValue r).
Proof.
  intros Hbody Ha.
  assert (Hgen : forall rest pre a0 s0,
             keys = pre ++ rest ->
             foldF body pre a s = (Ok (Continue a0), s0) ->
             P a0 ->
             forall r s', foldF body rest a0 s0 = (Ok r, s') -> P (flowValue r)).
  { induction rest as [|k rest IH]; intros pre a0 s0 Hkeys Hpre Ha0 r s' Hrun.
    - simpl in Hrun. injection Hrun as <- <-. assumption.
    - simpl in Hrun. unfold bind in Hrun.
      destruct (body k a0 s0) as [[r1|] s1] eqn:Hk; [|discriminate].
      pose proof (Hbody pre k rest a0 s0 r1 s1 Hkeys Hpre Ha0 Hk) as H1.
      destruct r1 as [a1|a1].
      + apply (IH (pre ++ [k]) a1 s1) with (s' := s'); auto.
        * rewrite <- app_assoc. exact Hkeys.
        * rewrite foldF_app, Hpre. simpl. unfold bind. now rewrite Hk.
      + injection Hrun as <- <-. assumption. }
  intros r s'. now apply (Hgen keys [] a s).
Qed.

(** An invariant of a loop whose body leaves the state as it is. *)
Lemma foldM_in_place_invariant {A} (P : A -> Prop) (body : string -> A -> M A)
  (keys : list string) (s : state) :
  (forall k a, snd (body k a s) = s) ->
  (forall k a a', In k keys -> P a -> body k a s = (Ok a', s) -> P a') ->
  forall a a' s', P a -> foldM body keys a s = (Ok a', s') -> P a'.
Proof.
  intros Hstate Hbody.
  assert (Hgen : forall ks, incl ks keys ->
             forall a a' s', P a -> foldM body ks a s = (Ok a', s') -> P a').
  { induction ks as [|k ks IH]; simpl; intros Hincl a a' s' Ha Hrun.
    - injection Hrun as <- <-. assumption.
    - unfold bind in Hrun. pose proof (Hstate k a) as Hs.
      destruct (body k a s) as [[a1|] s1] eqn:Hk; [|discriminate].
      simpl in Hs. subst s1.
      apply (IH (fun x Hx => Hincl x (or_intror Hx)) a1 a' s'); [|exact Hrun].
      apply (Hbody k a a1); auto. apply Hincl. now left. }
  apply Hgen. apply incl_refl.
Qed.

Lemma fold_res_invariant {A B} (P : A -> Prop) (f : res A -> B -> res A)
  (l : list B) :
  (forall acc b a', f acc b = Ok a' -> exists a, acc = Ok a /\ (P a -> P a')) ->
  forall acc a',
    List.fold_left f l acc = Ok a' -> exists a, acc = Ok a /\ (P a -> P a').
Proof.
  intros Hf. induction l as [|b l IH]; intros acc a' Hrun.
  - exists a'. auto.
  - destruct (IH _ _ Hrun) as [a1 [H1 Himp1]].
    destruct (Hf _ _ _ H1) as [a [Ha Himp]]. exists a. auto.
Qed.

Section Payload.

Variable sampler : heap -> val -> val -> res (option json).
Variable stringify : option json -> val.
Variable sampled : option json -> Prop.

Lemma jsonPayload_shape (sample : option json) :
  sampled sample -> payloadOk sampled stringify (Some (jsonPayload stringify sample)).
Proof. intros Hs. left. simpl. eauto. Qed.

Lemma payloadStep_shape (openApi : val) (parameters : heap -> res val) (i : string)
  (payload : option postData) (s : state) (r : flow (option postData)) (s' : state) :
  (forall ps raw param s2 sch sample,
      parameters (heap_of s) = Ok ps ->
      get (heap_of s) ps i = Ok raw ->
      prepareParam openApi raw s = (Ok param, s2) ->
      in_is (heap_of s2) param "body" = Ok true ->
      get (heap_of s2) param "schema" = Ok sch ->
      defined sch = true ->
      sampler (heap_of s2) sch openApi = Ok sample ->
      sampled sample) ->
  payloadOk sampled stringify payload ->
  payloadStep sampler stringify openApi parameters i payload s = (Ok r, s') ->
  payloadOk sampled stringify (flowValue r).
Proof.
  intros Hsampled Hp. unfold payloadStep, bind, lift.
  destruct (parameters (heap_of s)) as [ps|] eqn:Hps; [|discriminate].
  destruct (get (heap_of s) ps i) as [raw|] eqn:Hraw; [|discriminate].
  destruct (prepareParam openApi raw s) as [[param|] s1] eqn:Hprep; [|discriminate].
  destruct (in_is (heap_of s1) param "body") as [isBody|] eqn:Hbody; [|discriminate].
  destruct (get (heap_of s1) param "schema") as [sch|] eqn:Hsch; [|discriminate].
  assert (Hform : forall p0 s0 r0 s0',
             payloadOk sampled stringify p0 ->
             match in_is (heap_of s0) param "formdata" with
             | Ok isForm =>
                 (if isForm then
                    fun s => match lift (fun h => get h param "name") s with
                             | (Ok name, s2) =>
                                 match lift (fun h => get h param "type") s2 with
                                 | (Ok ty, s3) =>
                                     match lift (fun _ => toUpperCase ty) s3 with
                                     | (Ok u, s4) =>
                                         ret (Continue
                                                (pushForm
                                                   (mkFormParam name
                                                      ("SOME_" +++ u +++ "_VALUE")) p0))
                                           s4
                                     | (Err e, s4) => (Err e, s4)
                                     end
                                 | (Err e, s3) => (Err e, s3)
                                 end
                             | (Err e, s2) => (Err e, s2)
                             end
                  else ret (Continue p0)) s0
             | Err e => (Err e, s0)
             end = (Ok r0, s0') ->
             payloadOk sampled stringify (flowValue r0)).
  { intros p0 s0 r0 s0' Hp0. unfold lift, ret.
    destruct (in_is (heap_of s0) param "formdata") as [[|]|]; try discriminate.
    - destruct (get (heap_of s0) param "name") as [name|]; [|discriminate].
      destruct (get (heap_of s0) param "type") as [ty|]; [|discriminate].
      destruct (toUpperCase ty) as [u|]; [|discriminate].
      intros [= <- <-]. simpl. now apply pushForm_shape.
    - intros [= <- <-]. assumption. }
  destruct (isBody && defined sch) eqn:Hcond.
  - apply andb_prop in Hcond as [-> Hdef].
    unfold try_catch, bind, lift, console_log, ret.
    destruct (sampler (heap_of s1) sch openApi) as [sample|e] eqn:Hsample.
    + apply Hform. apply jsonPayload_shape.
      exact (Hsampled ps raw param s1 sch sample eq_refl Hraw Hprep Hbody Hsch Hdef
               Hsample).
    + intros [= <- <-]. exact I.
  - unfold ret at 1. now apply Hform.
Qed.

Lemma payloadLevel_shape (openApi : val) (parameters : heap -> res val)
  (payload : option postData) (s : state) (r : flow (option postData)) (s' : state) :
  (forall param s2 sch sample,
      payloadLoopReaches sampler stringify openApi parameters payload s param s2 ->
      in_is (heap_of s2) param "body" = Ok true ->
      get (heap_of s2) param "schema" = Ok sch ->
      defined sch = true ->
      sampler (heap_of s2) sch openApi = Ok sample ->
      sampled sample) ->
  payloadOk sampled stringify payload ->
  payloadLevel sampler stringify openApi parameters payload s = (Ok r, s') ->
  payloadOk sampled stringify (flowValue r).
Proof.
  intros Hsampled Hp. unfold payloadLevel, bind, lift.
  destruct (parameters (heap_of s)) as [ps|] eqn:Hps; [|discriminate].
  destruct (defined ps).
  - unfold forInF. apply foldF_reach_invariant; [|assumption].
    intros ks1 k ks2 a1 s1 r0 s0' Hkeys Hpre Ha1.
    apply payloadStep_shape; [|assumption].
    intros ps1 raw param s2 sch sample Hps1 Hraw Hprep Hbody Hsch Hdef Hsample.
    apply (Hsampled param s2 sch sample); auto.
    exists ps, ks1, k, ks2, a1, s1, ps1, raw.
    repeat (split; [assumption|]). assumption.
  - intros [= <- <-]. assumption.
Qed.

Lemma formFields_shape (fields : list (string * json)) :
  forall (acc : res (option postData)) (payload : option postData),
    List.fold_left
      (fun acc kv =>
         let? payload := acc in
         let? u := jtoUpperCase (snd kv) in
         Ok (pushForm (mkFormParam (VStr (fst kv)) ("SOME_" +++ u +++ "_VALUE")) payload))
      fields acc = Ok payload ->
    exists p0, acc = Ok p0
               /\ (payloadOk sampled stringify p0 -> payloadOk sampled stringify payload).
Proof.
  apply fold_res_invariant. intros acc kv a' H.
  destruct acc as [p0|]; [|discriminate]. exists p0. split; [reflexivity|].
  unfold rbind in H.
  destruct (jtoUpperCase (snd kv)) as [u|]; [|discriminate].
  injection H as <-. apply pushForm_shape.
Qed.

Lemma inheritedFields_shape (fields : list (string * val)) :
  forall (acc : res (option postData)) (payload : option postData),
    List.fold_left
      (fun acc kv =>
         let? payload := acc in
         let? u := toUpperCase (snd kv) in
         Ok (pushForm (mkFormParam (VStr (fst kv)) ("SOME_" +++ u +++ "_VALUE")) payload))
      fields acc = Ok payload ->
    exists p0, acc = Ok p0
               /\ (payloadOk sampled stringify p0 -> payloadOk sampled stringify payload).
Proof.
  apply fold_res_invariant. intros acc kv a' H.
  destruct acc as [p0|]; [|discriminate]. exists p0. split; [reflexivity|].
  unfold rbind in H.
  destruct (toUpperCase (snd kv)) as [u|]; [|discriminate].
  injection H as <-. apply pushForm_shape.
Qed.

Lemma contentStep_shape (openApi : val) (path method i : string)
  (payload : option postData) (s : state) (payload' : option postData) (s' : state) :
  (forall content requestBody sch sample,
      requestContent openApi path method (heap_of s) = Ok content ->
      get (heap_of s) content i = Ok requestBody ->
      get (heap_of s) requestBody "schema" = Ok sch ->
      truthy sch = true ->
      i = "application/json" \/ i = "*/*" ->
      sampler (heap_of s) sch openApi = Ok sample ->
      sampled sample) ->
  payloadOk sampled stringify payload ->
  contentStep sampler stringify openApi path method i payload s = (Ok payload', s') ->
  payloadOk sampled stringify payload'.
Proof.
  intros Hsampled Hp. unfold contentStep, bind, lift.
  destruct (requestContent openApi path method (heap_of s)) as [content|] eqn:Hcontent;
    [|discriminate].
  destruct (get (heap_of s) content i) as [requestBody|] eqn:Hrb; [|discriminate].
  destruct (get (heap_of s) requestBody "schema") as [sch|] eqn:Hsch; [|discriminate].
  destruct (truthy sch && String.eqb i "multipart/form-data").
  - destruct (sampler (heap_of s) sch openApi) as [sample|]; [|discriminate].
    match goal with
    | |- context [List.fold_left ?f (sample_fields sample) ?a] =>
        destruct (List.fold_left f (sample_fields sample) a) as [p1|] eqn:Hfold;
          [|discriminate]
    end.
    unfold rbind at 1.
    match goal with
    | |- context [List.fold_left ?f (sample_inherited ?h sample) ?a] =>
        destruct (List.fold_left f (sample_inherited h sample) a) as [p2|] eqn:Hfold2;
          [|discriminate]
    end.
    intros [= <- <-].
    destruct (formFields_shape _ _ _ Hfold) as [p0 [[= <-] Hshape]].
    destruct (inheritedFields_shape _ _ _ Hfold2) as [p0' [[= <-] Hshape2]]. auto.
  - destruct (truthy sch && (String.eqb i "application/json" || String.eqb i "*/*"))
      eqn:Hcond.
    + apply andb_prop in Hcond as [Htruthy Hi].
      destruct (sampler (heap_of s) sch openApi) as [sample|] eqn:Hsample;
        [|discriminate].
      unfold ret. intros [= <- <-]. apply jsonPayload_shape.
      apply (Hsampled content requestBody sch sample); auto.
      apply orb_prop in Hi as [Hi|Hi]; apply String.eqb_eq in Hi; auto.
    + unfold ret. intros [= <- <-]. assumption.
Qed.

Lemma contentStep_state (openApi : val) (path method i : string)
  (payload : option postData) (s : state) :
  snd (contentStep sampler stringify openApi path method i payload s) = s.
Proof.
  unfold contentStep, bind, lift, ret.
  destruct (requestContent openApi path method (heap_of s)); [|reflexivity].
  destruct (get (heap_of s) a i); [|reflexivity].
  destruct (get (heap_of s) a0 "schema"); [|reflexivity].
  destruct (truthy a1 && String.eqb i "multipart/form-data").
  - destruct (sampler (heap_of s) a1 openApi); [|reflexivity].
    match goal with
    | |- context [rbind ?x ?f] => destruct (rbind x f)
    end; reflexivity.
  - destruct (truthy a1 && (String.eqb i "application/json" || String.eqb i "*/*"));
      [|reflexivity].
    destruct (sampler (heap_of s) a1 openApi); reflexivity.
Qed.

End Payload.

Section PayloadOfCall.

Variable sampler : heap -> val -> val -> res (option json).
Variable stringify : option json -> val.

Lemma getPayload_shape (openApi : val) (path method : string) (s : state)
  (payload : option postData) (s' : state) :
  getPayload sampler stringify openApi path method s = (Ok payload, s') ->
  payloadOk (sampledBy sampler stringify openApi path method s) stringify payload.
Proof.
  set (sampled := sampledBy sampler stringify openApi path method s).
  unfold getPayload. unfold bind at 1.
  destruct (payloadLevel sampler stringify openApi (pathParameters openApi path)
              None s) as [[r1|] s1] eqn:H1; [|discriminate].
  assert (Hr1 : payloadOk sampled stringify (flowValue r1)).
  { apply (payloadLevel_shape sampler stringify sampled openApi
             (pathParameters openApi path) None s r1 s1); [|exact I|exact H1].
    intros param s2 sch sample Hreach Hbody Hsch Hdef Hsample.
    left. exists param, s2, sch. auto. }
  destruct r1 as [p1|v1]; [|unfold ret; intros [= <- <-]; assumption].
  unfold bind at 1.
  destruct (payloadLevel sampler stringify openApi
              (operationParameters openApi path method) p1 s1)
    as [[r2|] s2] eqn:H2; [|discriminate].
  assert (Hr2 : payloadOk sampled stringify (flowValue r2)).
  { apply (payloadLevel_shape sampler stringify sampled openApi
             (operationParameters openApi path method) p1 s1 r2 s2);
      [|exact Hr1|exact H2].
    intros param s3 sch sample Hreach Hbody Hsch Hdef Hsample.
    left. exists param, s3, sch. split; [right; exists p1, s1; auto|auto]. }
  destruct r2 as [p2|v2]; [|unfold ret; intros [= <- <-]; assumption].
  unfold bind at 1.
  destruct (resolveRequestBody openApi path method s2) as [[[]|] s3] eqn:H3;
    [|discriminate].
  unfold bind, lift.
  destruct (requestContent openApi path method (heap_of s3)) as [content|] eqn:Hcontent;
    [|discriminate].
  destruct (truthy content) eqn:Htruthy.
  - unfold forIn.
    apply (foldM_in_place_invariant (payloadOk sampled stringify)); auto.
    + intros k a. apply contentStep_state.
    + intros k a a' Hk Ha. apply contentStep_shape; [|assumption].
      intros content0 requestBody sch sample Hcontent0 Hrb Hsch Hts Hi Hsample.
      right. exists p1, s1, p2, s2, s3, content, k, requestBody, sch.
      rewrite Hcontent in Hcontent0. injection Hcontent0 as <-.
      simpl in Hr1, Hr2. repeat (split; [assumption|]). assumption.
  - unfold ret. intros [= <- <-]. assumption.
Qed.

End PayloadOfCall.

(** X11: the payload that [getPayload] returns, and so the [postData] of
    a descriptor, has one of two forms.  Either its mime type is
    [application/json], it has no [params], and its text is the
    stringified sample that the sampler gave for the schema of a body
    parameter that the loops came to, or of the [application/json] or
    [*/*] content of the request body, in the store as it was then.  Or
    its mime type is [multipart/form-data], its text is empty and its
    list of [params] is not. *)
Theorem postData_json_or_multipart
  (sampler : heap -> val -> val -> res (option json)) (stringify : option json -> val)
  (openApi : val) (path method : string) :
  (forall s p s',
      getPayload sampler stringify openApi path method s = (Ok (Some p), s') ->
      payloadShape (sampledBy sampler stringify openApi path method s) stringify p)
  /\ (forall values s r s' p,
         createHar sampler stringify openApi path method values s = (Ok r, s') ->
         har_postData r = Some p ->
         payloadShape
           (sampledBy sampler stringify openApi path method
              (snd (getQueryStrings openApi path method
                      (if defined values then values else VNew) s)))
           stringify p).
Proof.
  split.
  - intros s p s' Hrun. exact (getPayload_shape _ _ _ _ _ _ _ _ Hrun).
  - intros values s r s' p. unfold createHar, bind, lift.
    destruct (getBaseUrl (heap_of s) openApi); [|discriminate].
    destruct (getFullPath (heap_of s) openApi path method); [|discriminate].
    destruct (getHeadersArray (heap_of s) openApi path method); [|discriminate].
    destruct (getQueryStrings openApi path method _ s) as [[qs|] s1]; [|discriminate].
    destruct (getPayload sampler stringify openApi path method s1)
      as [[payload|] s2] eqn:Hpayload; [|discriminate].
    unfold ret. intros [= <- <-] Hp. simpl in Hp. subst payload. simpl snd.
    exact (getPayload_shape _ _ _ _ _ _ _ _ Hpayload).
Qed.

Lemma postData_json_or_multipart_witness :
  exists r s' p,
    createHar constSampler constStringify (fst (parse docSchemaRef)) "/pets" "post"
      VUndef (snd (parse docSchemaRef)) = (Ok r, s')
    /\ har_postData r = Some p
    /\ mimeType p = "application/json"
    /\ payloadShape
         (sampledBy constSampler constStringify (fst (parse docSchemaRef)) "/pets"
            "post"
            (snd (getQueryStrings (fst (parse docSchemaRef)) "/pets" "post" VNew
                    (snd (parse docSchemaRef)))))
         constStringify p.
Proof.
  eexists _, _, _. split; [vm_compute; reflexivity|].
  split; [reflexivity|]. split; [reflexivity|].
  eapply (proj2 (postData_json_or_multipart constSampler constStringify
                   (fst (parse docSchemaRef)) "/pets" "post")
            VUndef (snd (parse docSchemaRef)));
    [vm_compute; reflexivity|reflexivity].
Defined.

(* ------------------------------------------------------------------ *)
(** ** Parameters on which the payload loop stops *)
(* ------------------------------------------------------------------ *)

Lemma in_is_other (h : heap) (param : val) (kind kind' : string) :
  in_is h param kind = Ok true -> kind <> kind' -> in_is h param kind' = Ok false.
Proof.
  unfold in_is. intros H Hne.
  destruct (get h param "in") as [i|]; simpl in *; [|discriminate].
  destruct (defined i); [|discriminate].
  destruct (toLowerCase i) as [lower|]; simpl in *; [|discriminate].
  injection H as H. apply String.eqb_eq in H. subst lower.
  apply String.eqb_neq in Hne. now rewrite Hne.
Qed.

Section PayloadStops.

Variable sampler : heap -> val -> val -> res (option json).
Variable stringify : option json -> val.

Lemma payloadLevel_at (openApi : val) (parameters : heap -> res val)
  (payload : option postData) (s : state) (param : val) (s2 : state) :
  payloadLoopReaches sampler stringify openApi parameters payload s param s2 ->
  exists ps1 k ks2 p1 s1 raw,
    parameters (heap_of s1) = Ok ps1
    /\ get (heap_of s1) ps1 k = Ok raw
    /\ prepareParam openApi raw s1 = (Ok param, s2)
    /\ payloadLevel sampler stringify openApi parameters payload s
       = match payloadStep sampler stringify openApi parameters k p1 s1 with
         | (Ok (Continue a1), s3) =>
             foldF (payloadStep sampler stringify openApi parameters) ks2 a1 s3
         | other => other
         end.
Proof.
  intros (ps & ks1 & k & ks2 & p1 & s1 & ps1 & raw
          & Hps & Hkeys & Hloop & Hps1 & Hraw & Hprep).
  exists ps1, k, ks2, p1, s1, raw. do 3 (split; [assumption|]).
  unfold payloadLevel, bind, lift. rewrite Hps.
  assert (Hdef : defined ps = true).
  { apply (forin_keys_defined (heap_of s) ps k). rewrite Hkeys.
    apply in_or_app. right. now left. }
  rewrite Hdef. unfold forInF. rewrite Hkeys, foldF_app, Hloop. simpl foldF.
  unfold bind at 1.
  destruct (payloadStep sampler stringify openApi parameters k p1 s1)
    as [[[a1|a1]|e] s3]; reflexivity.
Qed.

Lemma payloadLevel_sampler_raises (openApi : val) (parameters : heap -> res val)
  (payload : option postData) (s : state) (param : val) (s2 : state)
  (sch : val) (e : exn) :
  payloadLoopReaches sampler stringify openApi parameters payload s param s2 ->
  in_is (heap_of s2) param "body" = Ok true ->
  get (heap_of s2) param "schema" = Ok sch ->
  defined sch = true ->
  sampler (heap_of s2) sch openApi = Err e ->
  payloadLevel sampler stringify openApi parameters payload s
  = (Ok (Return None), mkState (heap_of s2) (log_of s2 ++ [e])).
Proof.
  intros Hreach Hin Hsch Hdef Hraise.
  destruct (payloadLevel_at _ _ _ _ _ _ Hreach)
    as (ps1 & k & ks2 & p1 & s1 & raw & Hps1 & Hraw & Hprep & ->).
  now rewrite (payloadStep_sampler_raises sampler stringify openApi parameters k p1
                 s1 s2 ps1 raw param sch e Hps1 Hraw Hprep Hin Hsch Hdef Hraise).
Qed.

Lemma payloadLevel_form_untyped (openApi : val) (parameters : heap -> res val)
  (payload : option postData) (s : state) (param : val) (s2 : state) :
  payloadLoopReaches sampler stringify openApi parameters payload s param s2 ->
  in_is (heap_of s2) param "formdata" = Ok true ->
  toUpperCase (field (heap_of s2) param "type") = Err TypeError ->
  payloadLevel sampler stringify openApi parameters payload s = (Err TypeError, s2).
Proof.
  intros Hreach Hin Hty.
  destruct (payloadLevel_at _ _ _ _ _ _ Hreach)
    as (ps1 & k & ks2 & p1 & s1 & raw & Hps1 & Hraw & Hprep & ->).
  assert (Hparam : not_nullish param = true).
  { unfold in_is in Hin. destruct param; try reflexivity; discriminate. }
  unfold payloadStep, bind, lift. rewrite Hps1, Hraw, Hprep.
  rewrite (in_is_other _ _ _ "body" Hin) by discriminate.
  rewrite (get_ok _ _ "schema" Hparam eq_refl). rewrite Bool.andb_false_l.
  unfold ret at 1. cbv beta iota. rewrite Hin. cbv beta iota.
  rewrite (get_ok _ _ "name" Hparam eq_refl). cbv beta iota.
  rewrite (get_ok _ _ "type" Hparam eq_refl). cbv beta iota.
  rewrite Hty. reflexivity.
Qed.

End PayloadStops.

(** X12: when the sampler raises for an [in: body] parameter with a
    schema, [getPayload] logs the exception and returns [null] at once:
    the multipart parameters collected before are dropped, and neither the
    parameters after it nor the request body are looked at.  This holds
    for a parameter that the loop over the path-level list comes to, and
    for one that the loop over the operation-level list comes to. *)
Theorem getPayload_null_when_sampler_raises
  (sampler : heap -> val -> val -> res (option json)) (stringify : option json -> val)
  (openApi : val) (path method : string) (s : state) (param : val) (s2 : state)
  (sch : val) (e : exn) :
  in_is (heap_of s2) param "body" = Ok true ->
  get (heap_of s2) param "schema" = Ok sch ->
  defined sch = true ->
  sampler (heap_of s2) sch openApi = Err e ->
  payloadLoopReaches sampler stringify openApi (pathParameters openApi path) None s
    param s2
  \/ (exists payload s0,
         payloadLevel sampler stringify openApi (pathParameters openApi path) None s
         = (Ok (Continue payload), s0)
         /\ payloadLoopReaches sampler stringify openApi
              (operationParameters openApi path method) payload s0 param s2) ->
  getPayload sampler stringify openApi path method s
  = (Ok None, mkState (heap_of s2) (log_of s2 ++ [e])).
Proof.
  intros Hin Hsch Hdef Hraise [Hreach|(payload & s0 & Hpath & Hreach)];
    unfold getPayload; unfold bind at 1.
  - now rewrite (payloadLevel_sampler_raises _ _ _ _ _ _ _ _ _ _ Hreach Hin Hsch Hdef
                   Hraise).
  - rewrite Hpath. unfold bind at 1.
    now rewrite (payloadLevel_sampler_raises _ _ _ _ _ _ _ _ _ _ Hreach Hin Hsch Hdef
                   Hraise).
Qed.

(** X13: an [in: formData] parameter needs a string [type]: there is no
    fallback to the type of its schema, and without it [getPayload]
    raises a TypeError. *)
Theorem getPayload_formData_needs_type
  (sampler : heap -> val -> val -> res (option json)) (stringify : option json -> val)
  (openApi : val) (path method : string) (s : state) (param : val) (s2 : state) :
  in_is (heap_of s2) param "formdata" = Ok true ->
  toUpperCase (field (heap_of s2) param "type") = Err TypeError ->
  payloadLoopReaches sampler stringify openApi (pathParameters openApi path) None s
    param s2
  \/ (exists payload s0,
         payloadLevel sampler stringify openApi (pathParameters openApi path) None s
         = (Ok (Continue payload), s0)
         /\ payloadLoopReaches sampler stringify openApi
              (operationParameters openApi path method) payload s0 param s2) ->
  getPayload sampler stringify openApi path method s = (Err TypeError, s2).
Proof.
  intros Hin Hty [Hreach|(payload & s0 & Hpath & Hreach)];
    unfold getPayload; unfold bind at 1.
  - now rewrite (payloadLevel_form_untyped _ _ _ _ _ _ _ _ Hreach Hin Hty).
  - rewrite Hpath. unfold bind at 1.
    now rewrite (payloadLevel_form_untyped _ _ _ _ _ _ _ _ Hreach Hin Hty).
Qed.

Lemma getPayload_null_when_sampler_raises_witness :
  getPayload failingSampler constStringify (fst (parse docSchemaRef)) "/pets" "post"
    (snd (parse docSchemaRef))
  = (Ok None,
     mkState
       (heap_of (snd (prepareParam (fst (parse docSchemaRef)) (VObj 141)
                        (snd (parse docSchemaRef)))))
       (log_of (snd (prepareParam (fst (parse docSchemaRef)) (VObj 141)
                       (snd (parse docSchemaRef)))) ++ [SamplerError])).
Proof.
  apply (getPayload_null_when_sampler_raises failingSampler constStringify
           (fst (parse docSchemaRef)) "/pets" "post" (snd (parse docSchemaRef))
           (VObj 141)
           (snd (prepareParam (fst (parse docSchemaRef)) (VObj 141)
                   (snd (parse docSchemaRef))))
           (VObj 137) SamplerError).
  - reflexivity.
  - reflexivity.
  - reflexivity.
  - reflexivity.
  - right. exists None, (snd (parse docSchemaRef)). split; [reflexivity|].
    exists (VObj 142), ["0"], "1", [],
      (Some (multipart [mkFormParam (VStr "file") "SOME_FILE_VALUE"])),
      (snd (parse docSchemaRef)), (VObj 142), (VObj 141).
    repeat split; reflexivity.
Defined.

Lemma getPayload_formData_needs_type_witness :
  getPayload constSampler constStringify (fst (parse docFormUntyped)) "/pets" "post"
    (snd (parse docFormUntyped))
  = (Err TypeError, snd (parse docFormUntyped)).
Proof.
  apply (getPayload_formData_needs_type constSampler constStringify
           (fst (parse docFormUntyped)) "/pets" "post" (snd (parse docFormUntyped))
           (VObj 137) (snd (parse docFormUntyped))).
  - reflexivity.
  - reflexivity.
  - right. exists None, (snd (parse docFormUntyped)). split; [reflexivity|].
    exists (VObj 138), [], "0", [], None, (snd (parse docFormUntyped)), (VObj 138), (VObj 137).
    repeat split; reflexivity.
Defined.

(* ------------------------------------------------------------------ *)
(** ** Multipart request bodies *)
(* ------------------------------------------------------------------ *)

Lemma inherited_keys_written (h : heap) (k : string) (chn : list loc) :
  forall seen, In k (inherited_keys h seen chn) -> written k = true.
Proof.
  induction chn as [|p chn IH]; simpl; intros seen H; [destruct H|].
  apply in_app_or in H as [H|H]; [|now apply (IH _ H)].
  apply filter_In in H as [_ H]. now apply andb_prop in H.
Qed.

(** A key that the program does not assign to is a key of the value
    itself, and only a non-empty string or an object has keys. *)
Lemma forin_keys_truthy (h : heap) (v : val) (k : string) :
  In k (forin_keys h v) -> written k = false -> truthy v = true.
Proof.
  unfold forin_keys. intros H Hk. apply in_app_or in H as [H|H].
  - destruct v; simpl in H; try tauto; try reflexivity.
    destruct s; simpl in *; tauto.
  - apply inherited_keys_written in H. congruence.
Qed.

Lemma formFields_raise (fields : list (string * json)) :
  Exists (fun kv => jtoUpperCase (snd kv) = Err TypeError) fields ->
  forall acc,
    acc = Err TypeError \/ (exists p, acc = Ok p) ->
    List.fold_left
      (fun acc kv =>
         let? payload := acc in
         let? u := jtoUpperCase (snd kv) in
         Ok (pushForm (mkFormParam (VStr (fst kv)) ("SOME_" +++ u +++ "_VALUE")) payload))
      fields acc = Err TypeError.
Proof.
  assert (Hstays : forall l : list (string * json),
             List.fold_left
               (fun acc kv =>
                  let? payload := acc in
                  let? u := jtoUpperCase (snd kv) in
                  Ok (pushForm
                        (mkFormParam (VStr (fst kv)) ("SOME_" +++ u +++ "_VALUE"))
                        payload))
               l (Err TypeError) = Err TypeError).
  { induction l as [|kv l IH]; [reflexivity|exact IH]. }
  induction fields as [|kv fields IH]; intros Hex acc Hacc.
  - inversion Hex.
  - cbn [List.fold_left]. destruct Hacc as [->|[p ->]]; [apply Hstays|].
    unfold rbind at 2 3.
    destruct (jtoUpperCase (snd kv)) as [u|e] eqn:Hu.
    + apply IH; [|right; eexists; reflexivity].
      inversion Hex as [? ? Hhead|]; subst; [congruence|assumption].
    + destruct (snd kv); try discriminate; injection Hu as <-; apply Hstays.
Qed.

Section Multipart.

Variable sampler : heap -> val -> val -> res (option json).
Variable stringify : option json -> val.

Lemma foldM_raises_in_place {A} (body : string -> A -> M A) (keys : list string)
  (k : string) (s : state) :
  (forall k a, snd (body k a s) = s) ->
  In k keys ->
  (forall a, exists e, fst (body k a s) = Err e) ->
  forall a, exists e, foldM body keys a s = (Err e, s).
Proof.
  intros Hstate Hin Hk. induction keys as [|k' ks IH]; intros a; [destruct Hin|].
  simpl. unfold bind. pose proof (Hstate k' a) as Hs.
  destruct (body k' a s) as [[a1|e] s1] eqn:Hbody; simpl in Hs; subst s1.
  - destruct Hin as [->|Hin]; [|now apply IH].
    destruct (Hk a) as [e He]. rewrite Hbody in He. discriminate.
  - eauto.
Qed.

Lemma contentStep_field_raises (openApi : val) (path method : string)
  (payload : option postData) (s : state) (content requestBody sch : val)
  (sample : option json) :
  requestContent openApi path method (heap_of s) = Ok content ->
  get (heap_of s) content "multipart/form-data" = Ok requestBody ->
  get (heap_of s) requestBody "schema" = Ok sch ->
  truthy sch = true ->
  sampler (heap_of s) sch openApi = Ok sample ->
  Exists (fun kv => jtoUpperCase (snd kv) = Err TypeError) (sample_fields sample) ->
  fst (contentStep sampler stringify openApi path method "multipart/form-data"
         payload s) = Err TypeError.
Proof.
  intros Hcontent Hrb Hsch Htruthy Hsample Hfields.
  unfold contentStep, bind, lift. rewrite Hcontent, Hrb, Hsch, Htruthy.
  rewrite String.eqb_refl. change (true && true) with true. cbv beta iota.
  rewrite Hsample. cbv beta iota.
  rewrite (formFields_raise _ Hfields (Ok payload)) by eauto. reflexivity.
Qed.

End Multipart.

(** X14: for a [multipart/form-data] request body every field of the
    sample must be a string, because each is put in upper case: with a
    sample that has a field of another kind (a number, an object),
    [getPayload] raises. *)
Theorem multipart_sample_fields_must_be_strings
  (sampler : heap -> val -> val -> res (option json)) (stringify : option json -> val)
  (openApi : val) (path method : string) (s s0 s1 s2 : state)
  (p0 p1 : option postData) (content requestBody sch : val) (sample : option json) :
  payloadLevel sampler stringify openApi (pathParameters openApi path) None s
  = (Ok (Continue p0), s0) ->
  payloadLevel sampler stringify openApi (operationParameters openApi path method) p0 s0
  = (Ok (Continue p1), s1) ->
  resolveRequestBody openApi path method s1 = (Ok tt, s2) ->
  requestContent openApi path method (heap_of s2) = Ok content ->
  In "multipart/form-data" (forin_keys (heap_of s2) content) ->
  get (heap_of s2) content "multipart/form-data" = Ok requestBody ->
  get (heap_of s2) requestBody "schema" = Ok sch ->
  truthy sch = true ->
  sampler (heap_of s2) sch openApi = Ok sample ->
  Exists (fun kv => jtoUpperCase (snd kv) = Err TypeError) (sample_fields sample) ->
  exists e, getPayload sampler stringify openApi path method s = (Err e, s2).
Proof.
  intros Hpath Hop Hrb Hcontent Hkey Hbody Hsch Htruthy Hsample Hfields.
  unfold getPayload. unfold bind at 1. rewrite Hpath.
  unfold bind at 1. rewrite Hop.
  unfold bind, lift. rewrite Hrb, Hcontent.
  rewrite (forin_keys_truthy _ _ _ Hkey eq_refl). unfold forIn.
  apply (foldM_raises_in_place _ _ "multipart/form-data").
  - intros k a. apply contentStep_state.
  - assumption.
  - intros a. exists TypeError.
    now apply (contentStep_field_raises sampler stringify openApi path method a s2
                 content requestBody sch sample).
Qed.

Lemma multipart_sample_fields_must_be_strings_witness :
  exists e,
    getPayload numberSampler constStringify (fst (parse docMultipart)) "/pets" "post"
      (snd (parse docMultipart))
    = (Err e, snd (parse docMultipart)).
Proof.
  apply (multipart_sample_fields_must_be_strings numberSampler constStringify
           (fst (parse docMultipart)) "/pets" "post"
           (snd (parse docMultipart)) (snd (parse docMultipart))
           (snd (parse docMultipart)) (snd (parse docMultipart))
           None None (VObj 140) (VObj 139) (VObj 138)
           (Some (JObj [("name", JStr "string"); ("age", JNum 0)]))).
  - reflexivity.
  - reflexivity.
  - reflexivity.
  - reflexivity.
  - now left.
  - reflexivity.
  - reflexivity.
  - reflexivity.
  - reflexivity.
  - apply Exists_cons_tl. apply Exists_cons_hd. reflexivity.
Defined.

(* ------------------------------------------------------------------ *)
(** ** The values of the headers *)
(* ------------------------------------------------------------------ *)

Lemma gather_Forall (P : entry -> Prop) (emit : string -> res (option entry))
  (keys : list string) :
  (forall k e, emit k = Ok (Some e) -> P e) ->
  forall es, gather emit keys = Ok es -> Forall P es.
Proof.
  intros Hemit. induction keys as [|k ks IH]; simpl; intros es H.
  - injection H as <-. constructor.
  - destruct (emit k) as [oe|] eqn:Hk; simpl in H; [|discriminate].
    destruct (gather emit ks) as [es1|]; simpl in H; [|discriminate].
    injection H as <-. specialize (IH _ eq_refl).
    destruct oe as [e|]; [|assumption]. constructor; [|assumption]. exact (Hemit k e Hk).
Qed.

Lemma headerParam_entry (h : heap) (openApi parameters : val) (k : string) (e : entry) :
  headerParam h openApi parameters k = Ok (Some e) ->
  exists param t,
    in_is h param "header" = Ok true
    /\ field h param "name" = VStr (ename e)
    /\ placeholderType h param t
    /\ evalue e = VStr ("SOME_" +++ Str.toUpperCase t +++ "_VALUE").
Proof.
  unfold headerParam. intros H.
  destruct (get h parameters k) as [raw|]; simpl in H; [|discriminate].
  destruct (derefParam h openApi raw) as [param|]; simpl in H; [|discriminate].
  destruct (in_is h param "header") as [[|]|] eqn:Hin; simpl in H; try discriminate.
  unfold headerEntry in H.
  destruct (get h param "name") as [name|] eqn:Hname; simpl in H; [|discriminate].
  destruct (placeholder h param) as [ph|] eqn:Hph; simpl in H; [|discriminate].
  destruct name; simpl in H; try discriminate. injection H as <-.
  destruct (placeholder_type _ _ _ Hph) as [t [Ht ->]].
  exists param, t. simpl. rewrite toStr_str, (get_field _ _ _ _ Hname). auto.
Qed.

(** X15: every header that [getHeadersArray] returns is an accept or
    content-type header, one of the three authentication headers, or the
    header of an [in: header] parameter, and then its value is the
    placeholder [SOME_<TYPE>_VALUE] of the parameter's type: the default
    and the example of a header parameter are never used. *)
Theorem header_values_are_placeholders
  (h : heap) (openApi : val) (path method : string) (hs : list entry) :
  getHeadersArray h openApi path method = Ok hs ->
  Forall
    (fun e =>
       mediaHeader e
       \/ e = basicAuthHeader
       \/ e = bearerAuthHeader
       \/ evalue e = VStr "REPLACE_KEY_VALUE"
       \/ exists param t,
            in_is h param "header" = Ok true
            /\ field h param "name" = VStr (ename e)
            /\ placeholderType h param t
            /\ evalue e = VStr ("SOME_" +++ Str.toUpperCase t +++ "_VALUE"))
    hs.
Proof.
  unfold getHeadersArray. intros Hrun.
  destruct (declaredHeaders h openApi path method) as [c|] eqn:Hc; simpl in Hrun;
    [|discriminate].
  destruct (operation h openApi path method) as [pathObj|]; simpl in Hrun;
    [|discriminate].
  destruct (securityDefs h openApi pathObj) as [a|]; simpl in Hrun; [|discriminate].
  destruct (authHeader h a (snd c)) as [auth|] eqn:Hauth; simpl in Hrun;
    [|discriminate].
  injection Hrun as <-.
  destruct (declaredHeaders_merged _ _ _ _ _ Hc)
    as (hs0 & pl & ol & ps & os & Hmedia & _ & _ & Hps & Hos & ->).
  apply Forall_app. split.
  - apply Forall_forall. intros e He.
    destruct (merged_entries _ _ _ _ He) as [H0|Hparam].
    + left. rewrite Forall_forall in Hmedia. auto.
    + do 4 right.
      assert (Hall : forall parameters es,
                 headerEntries h openApi parameters = Ok es ->
                 forall x, In x es ->
                   exists param t,
                     in_is h param "header" = Ok true
                     /\ field h param "name" = VStr (ename x)
                     /\ placeholderType h param t
                     /\ evalue x = VStr ("SOME_" +++ Str.toUpperCase t +++ "_VALUE")).
      { intros parameters es Hes. apply Forall_forall.
        revert Hes. unfold headerEntries. apply gather_Forall.
        intros k x Hx. exact (headerParam_entry h openApi parameters k x Hx). }
      destruct Hparam as [Hin|Hin]; eauto.
  - rewrite (authHeader_order _ _ _ _ Hauth).
    destruct (basicFree a (snd (merged hs0 ps os)));
      [constructor; [|constructor]; right; left; reflexivity|].
    destruct (apiKeyFree h a (snd (merged hs0 ps os)));
      [constructor; [|constructor]; do 3 right; left; reflexivity|].
    destruct (bearerFree a (snd (merged hs0 ps os))); [|constructor].
    constructor; [|constructor]. right. right. now left.
Qed.

Lemma header_values_are_placeholders_witness :
  exists param t,
    in_is (heap_of (snd (parse docHeaderDefault))) param "header" = Ok true
    /\ field (heap_of (snd (parse docHeaderDefault))) param "name" = VStr "X-Version"
    /\ placeholderType (heap_of (snd (parse docHeaderDefault))) param t
    /\ VStr "SOME_INTEGER_VALUE" = VStr ("SOME_" +++ Str.toUpperCase t +++ "_VALUE").
Proof.
  assert (Hrun : getHeadersArray (heap_of (snd (parse docHeaderDefault)))
                   (fst (parse docHeaderDefault)) "/pets" "get"
                 = Ok [mkEntry "X-Version" (VStr "SOME_INTEGER_VALUE")]) by reflexivity.
  apply header_values_are_placeholders in Hrun. apply Forall_inv in Hrun.
  destruct Hrun as [[H|H]|[H|[H|[H|H]]]]; try discriminate H. exact H.
Defined.
